(** * The sanitizer allocator (lib/sanitizer_common/sanitizer_allocator.h)

    A shallow embedding of the size-class map, the per-thread cache, the
    large-mmap allocator and the combined allocator, followed by the
    properties proved about them.

    Conventions.
    - [uptr] values are integers in [0, 2^64); every arithmetic operation of
      the source is written with its wrap-around ([+%], [-%], [*%]).
    - A null pointer is the address 0.
    - A failed [CHECK] (the process dies) or an access through a dangling
      pointer is the result [None]. *)

From stdpp Require Import gmap list.
From Stdlib Require Import ZArith Lia.
From Stdlib Require Strings.Byte.

Local Open Scope Z_scope.

(** ** Machine words *)

Definition uptr : Type := Z.

Definition kWordBits : Z := 64.
Definition kWordMod : Z := 2 ^ kWordBits.

Definition is_uptr (x : Z) : Prop := 0 <= x < kWordMod.

Definition wrap (x : Z) : uptr := x mod kWordMod.

Definition uadd (a b : uptr) : uptr := wrap (a + b).
Definition usub (a b : uptr) : uptr := wrap (a - b).
Definition umul (a b : uptr) : uptr := wrap (a * b).
Definition udiv (a b : uptr) : uptr := a / b.
Definition urem (a b : uptr) : uptr := a mod b.
Definition uand (a b : uptr) : uptr := Z.land a b.
(** [~x] on a 64-bit word. *)
Definition unot (a : uptr) : uptr := wrap (Z.lnot a).
(** [1 << n], as the template arguments are written. *)
Definition ushl (a n : uptr) : uptr := wrap (Z.shiftl a n).

Infix "+%" := uadd (at level 50, left associativity).
Infix "-%" := usub (at level 50, left associativity).
Infix "*%" := umul (at level 40, left associativity).
Infix "/%" := udiv (at level 40, left associativity).
Infix "&%" := uand (at level 40, left associativity).

(** A power of two in the mathematical sense: [2^k] for a bit position [k]
    of the word. *)
Definition pow2 (x : Z) : Prop := exists k, 0 <= k < kWordBits /\ x = 2 ^ k.

(** ** Helpers of sanitizer_common.h *)

(** Modelled from the spec: sanitizer_common.h is not part of the sources at
    hand.  [IsPowerOfTwo] is the usual one-bit test. *)
Definition IsPowerOfTwo (x : uptr) : bool := (x &% (x -% 1)) =? 0.

(** Modelled from the spec: sanitizer_common.h is not part of the sources at
    hand.  [RoundUpTo size boundary] rounds [size] up to the next multiple of
    the power of two [boundary], in machine arithmetic (adding [boundary - 1]
    and masking the low bits). *)
Definition RoundUpTo (size boundary : uptr) : uptr :=
  (size +% boundary -% 1) &% unot (boundary -% 1).

(** Modelled from the spec: sanitizer_common.h is not part of the sources at
    hand.  [Min] of two words. *)
Definition Min (a b : uptr) : uptr := if a <? b then a else b.

(** ** SplineSizeClassMap *)

(** The sixteen template arguments. *)
Record SplineParams : Type := {
  l0 : uptr; l1 : uptr; l2 : uptr; l3 : uptr; l4 : uptr; l5 : uptr;
  s0 : uptr; s1 : uptr; s2 : uptr; s3 : uptr; s4 : uptr;
  c0 : uptr; c1 : uptr; c2 : uptr; c3 : uptr; c4 : uptr
}.

Module SplineSizeClassMap.
Section WithParams.
Variable p : SplineParams.

Definition u0 : uptr := 0 +% (l1 p -% l0 p) /% s0 p.
Definition u1 : uptr := u0 +% (l2 p -% l1 p) /% s1 p.
Definition u2 : uptr := u1 +% (l3 p -% l2 p) /% s2 p.
Definition u3 : uptr := u2 +% (l4 p -% l3 p) /% s3 p.
Definition u4 : uptr := u3 +% (l5 p -% l4 p) /% s4 p.

Definition kNumClasses : uptr := u4 +% 1.
Definition kMaxSize : uptr := l5 p.
Definition kMinSize : uptr := l0 p.

(** The three COMPILER_CHECKs of the class template. *)
Definition compiler_checks : bool :=
  (kNumClasses <=? 256)
  && ((kNumClasses &% (kNumClasses -% 1)) =? 0)
  && ((kMaxSize &% (kMaxSize -% 1)) =? 0).

Definition Size (class_id : uptr) : uptr :=
  if class_id <=? u0 then l0 p +% s0 p *% (class_id -% 0) else
  if class_id <=? u1 then l1 p +% s1 p *% (class_id -% u0) else
  if class_id <=? u2 then l2 p +% s2 p *% (class_id -% u1) else
  if class_id <=? u3 then l3 p +% s3 p *% (class_id -% u2) else
  if class_id <=? u4 then l4 p +% s4 p *% (class_id -% u3) else
  0.

Definition ClassID (size : uptr) : uptr :=
  if size <=? l1 p then 0  +% (size -% l0 p +% s0 p -% 1) /% s0 p else
  if size <=? l2 p then u0 +% (size -% l1 p +% s1 p -% 1) /% s1 p else
  if size <=? l3 p then u1 +% (size -% l2 p +% s2 p -% 1) /% s2 p else
  if size <=? l4 p then u2 +% (size -% l3 p +% s3 p -% 1) /% s3 p else
  if size <=? l5 p then u3 +% (size -% l4 p +% s4 p -% 1) /% s4 p else
  0.

Definition MaxCached (class_id : uptr) : uptr :=
  if class_id <=? u0 then c0 p else
  if class_id <=? u1 then c1 p else
  if class_id <=? u2 then c2 p else
  if class_id <=? u3 then c3 p else
  if class_id <=? u4 then c4 p else
  0.

(** The step of the segment a class lies in; the segments are told apart
    exactly as [Size] and [MaxCached] do. *)
Definition SegmentStep (class_id : uptr) : uptr :=
  if class_id <=? u0 then s0 p else
  if class_id <=? u1 then s1 p else
  if class_id <=? u2 then s2 p else
  if class_id <=? u3 then s3 p else
  if class_id <=? u4 then s4 p else
  0.
End WithParams.
End SplineSizeClassMap.

Definition DefaultSizeClassMap : SplineParams := {|
  l0 := ushl 1 4; l1 := ushl 1 9; l2 := ushl 1 12;
  l3 := ushl 1 15; l4 := ushl 1 18; l5 := ushl 1 21;
  s0 := ushl 1 4; s1 := ushl 1 6; s2 := ushl 1 9;
  s3 := ushl 1 12; s4 := ushl 1 15;
  c0 := 256; c1 := 64; c2 := 16; c3 := 4; c4 := 1
|}.

Definition CompactSizeClassMap : SplineParams := {|
  l0 := ushl 1 3; l1 := ushl 1 4; l2 := ushl 1 7;
  l3 := ushl 1 8; l4 := ushl 1 12; l5 := ushl 1 15;
  s0 := ushl 1 3; s1 := ushl 1 4; s2 := ushl 1 7;
  s3 := ushl 1 8; s4 := ushl 1 12;
  c0 := 256; c1 := 64; c2 := 16; c3 := 4; c4 := 1
|}.

(** The invariants the template arguments of every instantiation obey:
    they are machine words, the boundaries increase strictly, every step is
    a power of two, and every segment is a whole number of steps long. *)
Record spline_ok (p : SplineParams) : Prop := {
  ok_l0 : 0 <= l0 p;
  ok_l01 : l0 p < l1 p;
  ok_l12 : l1 p < l2 p;
  ok_l23 : l2 p < l3 p;
  ok_l34 : l3 p < l4 p;
  ok_l45 : l4 p < l5 p;
  ok_l5 : l5 p < kWordMod;
  ok_s0 : pow2 (s0 p);
  ok_s1 : pow2 (s1 p);
  ok_s2 : pow2 (s2 p);
  ok_s3 : pow2 (s3 p);
  ok_s4 : pow2 (s4 p);
  ok_d0 : (s0 p | l1 p - l0 p);
  ok_d1 : (s1 p | l2 p - l1 p);
  ok_d2 : (s2 p | l3 p - l2 p);
  ok_d3 : (s3 p | l4 p - l3 p);
  ok_d4 : (s4 p | l5 p - l4 p)
}.

(** ** Free lists *)

(** Modelled from the spec: sanitizer_list.h is not part of the sources at
    hand.  [AllocatorFreeList] is [IntrusiveList<AllocatorListNode>], a
    singly-linked list threaded through the first word of every free chunk;
    it is kept as the list of the node addresses, front first. *)
Definition AllocatorFreeList : Type := list uptr.

Definition list_size (l : AllocatorFreeList) : uptr := Z.of_nat (length l).
Definition list_empty (l : AllocatorFreeList) : bool :=
  match l with [] => true | _ => false end.
Definition push_front (x : uptr) (l : AllocatorFreeList) : AllocatorFreeList :=
  x :: l.

(** [first_]: the front node, null for an empty list. *)
Definition front (l : AllocatorFreeList) : uptr :=
  match l with x :: _ => x | [] => 0 end.

(** The list is intrusive: [AllocatorListNode] is the one pointer [next],
    which lies in the first word of the free chunk itself.  Byte [i] of a
    word, least significant first, and the store of a word at an address. *)
Definition byte_of_word (v : uptr) (i : Z) : Byte.byte :=
  match Byte.of_N (Z.to_N ((v / 2 ^ (8 * i)) mod 256)) with
  | Some b => b
  | None => Byte.x00
  end.

Definition store_word (b : gmap Z Byte.byte) (addr v : uptr) : gmap Z Byte.byte :=
  fold_left (fun b i => <[addr +% i := byte_of_word v i]> b)
    [0; 1; 2; 3; 4; 5; 6; 7] b.

(** Modelled from the spec: what [push_front x] stores, [x->next = first_];
    and what [push_back x] stores, [x->next = 0] and, in a list that is not
    empty, [last_->next = x]. *)
Definition push_front_stores (x : uptr) (l : AllocatorFreeList)
    (b : gmap Z Byte.byte) : gmap Z Byte.byte :=
  store_word b x (front l).

Definition push_back_stores (x : uptr) (l : AllocatorFreeList)
    (b : gmap Z Byte.byte) : gmap Z Byte.byte :=
  let b := store_word b x 0 in
  match last l with
  | Some y => store_word b y x
  | None => b
  end.

(** Modelled from the spec: what [l.append_front(l')] stores when neither
    list is empty, [l'.last_->next = l.first_]. *)
Definition append_front_stores (l l' : AllocatorFreeList)
    (b : gmap Z Byte.byte) : gmap Z Byte.byte :=
  match l, last l' with
  | _ :: _, Some y => store_word b y (front l)
  | _, _ => b
  end.

(** ** The primary allocator *)

(** Modelled from the spec: the size-class allocator the cache and the
    combined allocator are instantiated with (SizeClassAllocator64) is not
    part of the sources at hand.  Its interface is the contract the
    combined allocator requires of it: a size-class map, the bulk transfers
    of free chunks (which update the allocator and the list they are handed,
    and store list links in the chunks: [BulkAllocate_stores] and
    [BulkDeallocate_stores] give the bytes of memory after the transfer) and
    the queries. *)
Class SizeClassAllocator (A : Type) : Type := {
  SizeClassMapT : SplineParams;
  BulkAllocate : A -> uptr -> AllocatorFreeList -> A * AllocatorFreeList;
  BulkDeallocate : A -> uptr -> AllocatorFreeList -> A * AllocatorFreeList;
  BulkAllocate_stores :
    A -> uptr -> AllocatorFreeList -> gmap Z Byte.byte -> gmap Z Byte.byte;
  BulkDeallocate_stores :
    A -> uptr -> AllocatorFreeList -> gmap Z Byte.byte -> gmap Z Byte.byte;
  CanAllocate : A -> uptr -> uptr -> bool;
  ClassID : A -> uptr -> uptr;
  GetSizeClass : A -> uptr -> uptr;
  PointerIsMine : A -> uptr -> bool;
  GetMetaData : A -> uptr -> uptr;
  GetBlockBegin : A -> uptr -> uptr;
  GetActuallyAllocatedSize : A -> uptr -> uptr;
  TotalMemoryUsed : A -> uptr
}.

(** Modelled from the spec: what the bulk transfers promise, for the class
    ids of the map.  [BulkAllocate] adds chunks to the list it is given
    ([refill_appends]), which is not empty afterwards ([refill_delivers]);
    [BulkDeallocate] takes every chunk of the list it is given
    ([drain_takes_all]). *)
Definition refill_appends (A : Type) `{SizeClassAllocator A} : Prop :=
  forall (a : A) c fl,
    0 <= c < SplineSizeClassMap.kNumClasses SizeClassMapT ->
    exists chunks, (BulkAllocate a c fl).2 = fl ++ chunks.

Definition refill_delivers (A : Type) `{SizeClassAllocator A} : Prop :=
  forall (a : A) c fl,
    0 <= c < SplineSizeClassMap.kNumClasses SizeClassMapT ->
    (BulkAllocate a c fl).2 <> [].

Definition drain_takes_all (A : Type) `{SizeClassAllocator A} : Prop :=
  forall (a : A) c fl,
    0 <= c < SplineSizeClassMap.kNumClasses SizeClassMapT ->
    (BulkDeallocate a c fl).2 = [].

Definition bulk_contract (A : Type) `{SizeClassAllocator A} : Prop :=
  refill_appends A /\ refill_delivers A /\ drain_takes_all A.

(** ** SizeClassAllocatorLocalCache *)

(** The cache is the array [free_lists_[kNumClasses]]. *)
Abbreviation LocalCache := (list AllocatorFreeList).

Module SizeClassAllocatorLocalCache.
Section WithAllocator.
Context {A : Type} `{SizeClassAllocator A}.

Definition kNumClasses : uptr := SplineSizeClassMap.kNumClasses SizeClassMapT.
Definition MaxCached : uptr -> uptr := SplineSizeClassMap.MaxCached SizeClassMapT.

(** [Init] zeroes the object: every list is empty. *)
Definition Init : LocalCache := replicate (Z.to_nat kNumClasses) [].

Definition Allocate (cache : LocalCache) (allocator : A) (class_id : uptr)
  : option (LocalCache * A * uptr) :=
  if negb (class_id <? kNumClasses) then None else
  match cache !! Z.to_nat class_id with
  | None => None
  | Some free_list =>
      let '(allocator, free_list) :=
        if list_empty free_list
        then BulkAllocate allocator class_id free_list
        else (allocator, free_list) in
      match free_list with
      | [] => None
      | res :: rest =>
          Some (<[Z.to_nat class_id := rest]> cache, allocator, res)
      end
  end.

(** The loop of [DrainHalf]: [count] times, pop the front node and push it
    on [half]. *)
Fixpoint DrainHalf_loop (count : nat) (free_list half : AllocatorFreeList)
  : option (AllocatorFreeList * AllocatorFreeList) :=
  match count with
  | O => Some (free_list, half)
  | S count' =>
      match free_list with
      | [] => None
      | node :: rest => DrainHalf_loop count' rest (push_front node half)
      end
  end.

Definition DrainHalf (cache : LocalCache) (allocator : A) (class_id : uptr)
  : option (LocalCache * A) :=
  match cache !! Z.to_nat class_id with
  | None => None
  | Some free_list =>
      let count := list_size free_list /% 2 in
      match DrainHalf_loop (Z.to_nat count) free_list [] with
      | None => None
      | Some (free_list, half) =>
          let '(allocator, _) := BulkDeallocate allocator class_id half in
          Some (<[Z.to_nat class_id := free_list]> cache, allocator)
      end
  end.

Definition Deallocate (cache : LocalCache) (allocator : A)
    (class_id : uptr) (p : uptr) : option (LocalCache * A) :=
  if negb (class_id <? kNumClasses) then None else
  match cache !! Z.to_nat class_id with
  | None => None
  | Some free_list =>
      let free_list := push_front p free_list in
      let cache := <[Z.to_nat class_id := free_list]> cache in
      if 2 *% MaxCached class_id <=? list_size free_list
      then DrainHalf cache allocator class_id
      else Some (cache, allocator)
  end.

(** The loop of [Drain], from class [i], with [n] classes left. *)
Fixpoint Drain_loop (n : nat) (i : uptr) (cache : LocalCache) (allocator : A)
  : option (LocalCache * A) :=
  match n with
  | O => Some (cache, allocator)
  | S n' =>
      match cache !! Z.to_nat i with
      | None => None
      | Some free_list =>
          let '(allocator, free_list) := BulkDeallocate allocator i free_list in
          if list_empty free_list
          then Drain_loop n' (i +% 1) (<[Z.to_nat i := free_list]> cache) allocator
          else None
      end
  end.

Definition Drain (cache : LocalCache) (allocator : A) : option (LocalCache * A) :=
  Drain_loop (Z.to_nat kNumClasses) 0 cache allocator.

(** The functions above keep the lists as sequences of node addresses.
    The nodes are the free chunks, so the same calls also write to memory;
    the functions below give the bytes after a call that completes, store
    by store in the order of the source.  [Allocate] stores nothing itself
    ([pop_front] only reads): memory changes when the primary refills the
    list. *)
Definition Allocate_stores (cache : LocalCache) (allocator : A) (class_id : uptr)
    (b : gmap Z Byte.byte) : gmap Z Byte.byte :=
  match cache !! Z.to_nat class_id with
  | None => b
  | Some free_list =>
      if list_empty free_list
      then BulkAllocate_stores allocator class_id free_list b
      else b
  end.

(** The loop of [DrainHalf]: every [half.push_front(node)] stores the
    front of [half] in the node. *)
Fixpoint DrainHalf_loop_stores (count : nat) (free_list half : AllocatorFreeList)
    (b : gmap Z Byte.byte) : gmap Z Byte.byte :=
  match count with
  | O => b
  | S count' =>
      match free_list with
      | [] => b
      | node :: rest =>
          DrainHalf_loop_stores count' rest (push_front node half)
            (push_front_stores node half b)
      end
  end.

Definition DrainHalf_stores (cache : LocalCache) (allocator : A) (class_id : uptr)
    (b : gmap Z Byte.byte) : gmap Z Byte.byte :=
  match cache !! Z.to_nat class_id with
  | None => b
  | Some free_list =>
      let count := list_size free_list /% 2 in
      match DrainHalf_loop (Z.to_nat count) free_list [] with
      | None => b
      | Some (_, half) =>
          BulkDeallocate_stores allocator class_id half
            (DrainHalf_loop_stores (Z.to_nat count) free_list [] b)
      end
  end.

(** [Deallocate]: [push_front(p)] stores the old front of the list in the
    first word of the freed chunk, then [DrainHalf] may run. *)
Definition Deallocate_stores (cache : LocalCache) (allocator : A)
    (class_id : uptr) (p : uptr) (b : gmap Z Byte.byte) : gmap Z Byte.byte :=
  match cache !! Z.to_nat class_id with
  | None => b
  | Some free_list =>
      let b := push_front_stores p free_list b in
      let free_list := push_front p free_list in
      let cache := <[Z.to_nat class_id := free_list]> cache in
      if 2 *% MaxCached class_id <=? list_size free_list
      then DrainHalf_stores cache allocator class_id b
      else b
  end.

Fixpoint Drain_loop_stores (n : nat) (i : uptr) (cache : LocalCache) (allocator : A)
    (b : gmap Z Byte.byte) : gmap Z Byte.byte :=
  match n with
  | O => b
  | S n' =>
      match cache !! Z.to_nat i with
      | None => b
      | Some free_list =>
          let b := BulkDeallocate_stores allocator i free_list b in
          let '(allocator, free_list) := BulkDeallocate allocator i free_list in
          Drain_loop_stores n' (i +% 1) (<[Z.to_nat i := free_list]> cache)
            allocator b
      end
  end.

Definition Drain_stores (cache : LocalCache) (allocator : A)
    (b : gmap Z Byte.byte) : gmap Z Byte.byte :=
  Drain_loop_stores (Z.to_nat kNumClasses) 0 cache allocator b.

(** The public operations, and the states a cache and its allocator reach
    from the zero-initialised cache by operations that complete. *)
Inductive operation : Type :=
  | OpAllocate (class_id : uptr)
  | OpDeallocate (class_id : uptr) (p : uptr)
  | OpDrain.

Definition run (o : operation) (st : LocalCache * A) : option (LocalCache * A) :=
  match o with
  | OpAllocate class_id =>
      match Allocate st.1 st.2 class_id with
      | Some (cache, allocator, _) => Some (cache, allocator)
      | None => None
      end
  | OpDeallocate class_id p => Deallocate st.1 st.2 class_id p
  | OpDrain => Drain st.1 st.2
  end.

(** The arguments of an operation are machine words. *)
Definition operation_ok (o : operation) : Prop :=
  match o with
  | OpAllocate class_id => is_uptr class_id
  | OpDeallocate class_id p => is_uptr class_id /\ is_uptr p
  | OpDrain => True
  end.

Inductive reachable : LocalCache * A -> Prop :=
  | reachable_init (allocator : A) : reachable (Init, allocator)
  | reachable_run o st st' :
      reachable st -> operation_ok o -> run o st = Some st' -> reachable st'.

(** Running a sequence of operations, stopping at the first that fails. *)
Fixpoint run_all (ops : list operation) (st : LocalCache * A)
  : option (LocalCache * A) :=
  match ops with
  | [] => Some st
  | o :: ops' =>
      match run o st with
      | Some st' => run_all ops' st'
      | None => None
      end
  end.

(** Every list is shorter than twice the cap of its class. *)
Definition lists_bounded (cache : LocalCache) : Prop :=
  length cache = Z.to_nat kNumClasses /\
  forall (c : nat) fl, cache !! c = Some fl ->
    list_size fl < 2 * MaxCached (Z.of_nat c).

End WithAllocator.
End SizeClassAllocatorLocalCache.

(** The caps of a size-class map are usable: positive, and small enough
    that doubling them stays within a word.  Both instantiations have the
    caps 256, 64, 16, 4 and 1. *)
Definition caps_ok (p : SplineParams) : Prop :=
  (0 < c0 p /\ 0 < c1 p /\ 0 < c2 p /\ 0 < c3 p /\ 0 < c4 p) /\
  (2 * c0 p < kWordMod /\ 2 * c1 p < kWordMod /\ 2 * c2 p < kWordMod /\
   2 * c3 p < kWordMod /\ 2 * c4 p < kWordMod).

(** A primary that refills an empty list with no more chunks than the cache
    may hold, for the class ids of the map. *)
Definition refill_bounded (A : Type) `{SizeClassAllocator A} : Prop :=
  forall (a : A) c,
    0 <= c < SplineSizeClassMap.kNumClasses SizeClassMapT ->
    list_size (BulkAllocate a c []).2
      <= 2 * SplineSizeClassMap.MaxCached SizeClassMapT c.

(** A small primary to run the cache and the combined allocator on: it
    carves chunks off a bump pointer, [batch c] of them for every refill of
    class [c], which it adds to the list with [push_back]; it remembers the
    class of every chunk, and collects the chunks it gets back on a list of
    its own with [append_front]. *)
Module ToyPrimary.

Record t : Type := {
  next_chunk : uptr;
  chunks : list (uptr * uptr);
  freed : list uptr
}.

Definition kSpaceBeg : uptr := 0x700000000000.

Definition init : t := {| next_chunk := kSpaceBeg; chunks := []; freed := [] |}.

Fixpoint carve (n : nat) (from size : uptr) : list uptr :=
  match n with
  | O => []
  | S n' => from :: carve n' (from +% size) size
  end.

(** [push_back] of the chunks [new], one after the other, on the list
    [fl]. *)
Fixpoint push_back_all (new : list uptr) (fl : AllocatorFreeList)
    (b : gmap Z Byte.byte) : gmap Z Byte.byte :=
  match new with
  | [] => b
  | x :: new' => push_back_all new' (fl ++ [x]) (push_back_stores x fl b)
  end.

Definition class_of (a : t) (p : uptr) : option uptr :=
  match List.find (fun e => e.1 =? p) (chunks a) with
  | Some e => Some e.2
  | None => None
  end.

Definition allocator (map : SplineParams) (batch : uptr -> nat)
  : SizeClassAllocator t := {|
  SizeClassMapT := map;
  BulkAllocate a c fl :=
    let size := SplineSizeClassMap.Size map c in
    let new := carve (batch c) (next_chunk a) size in
    ({| next_chunk := next_chunk a +% Z.of_nat (batch c) *% size;
        chunks := List.map (fun q => (q, c)) new ++ chunks a;
        freed := freed a |},
     fl ++ new);
  BulkDeallocate a c fl :=
    ({| next_chunk := next_chunk a; chunks := chunks a;
        freed := fl ++ freed a |}, []);
  BulkAllocate_stores a c fl b :=
    push_back_all
      (carve (batch c) (next_chunk a) (SplineSizeClassMap.Size map c)) fl b;
  BulkDeallocate_stores a c fl b := append_front_stores (freed a) fl b;
  CanAllocate a size alignment :=
    (size <=? SplineSizeClassMap.kMaxSize map)
    && (alignment <=? SplineSizeClassMap.kMaxSize map);
  ClassID a size := SplineSizeClassMap.ClassID map size;
  GetSizeClass a p := default 0 (class_of a p);
  PointerIsMine a p := bool_decide (is_Some (class_of a p));
  GetMetaData a p := 0;
  GetBlockBegin a p := if bool_decide (is_Some (class_of a p)) then p else 0;
  GetActuallyAllocatedSize a p :=
    SplineSizeClassMap.Size map (default 0 (class_of a p));
  TotalMemoryUsed a := next_chunk a -% kSpaceBeg
|}.

End ToyPrimary.

(** Two primaries over [DefaultSizeClassMap]: one refills a list with as
    many chunks as the cap of the class, the other always with four. *)
Definition ModestPrimary : SizeClassAllocator ToyPrimary.t :=
  ToyPrimary.allocator DefaultSizeClassMap
    (fun c => Z.to_nat (SplineSizeClassMap.MaxCached DefaultSizeClassMap c)).

Definition GreedyPrimary : SizeClassAllocator ToyPrimary.t :=
  ToyPrimary.allocator DefaultSizeClassMap (fun _ => 4%nat).

(** ** Memory *)

(** The header a large mapping starts with. *)
Module Header.
Record t : Type := {
  map_beg : uptr;
  map_size : uptr;
  size : uptr;
  next : uptr;
  prev : uptr
}.
Definition set_next (h : t) (v : uptr) : t :=
  {| map_beg := map_beg h; map_size := map_size h; size := size h;
     next := v; prev := prev h |}.
Definition set_prev (h : t) (v : uptr) : t :=
  {| map_beg := map_beg h; map_size := map_size h; size := size h;
     next := next h; prev := v |}.
End Header.

(** What the allocators see of the address space: the headers of the large
    mappings by address, the bytes of the chunks of the primary and of the
    user regions of the mappings by address (a byte never written reads as
    zero), and the regions [(beg, size)] obtained from [MmapOrDie] and not
    yet given back.  Giving a region back takes it out of [mappings]; what
    [bytes] holds at its addresses is then read by nothing. *)
Record Memory : Type := {
  headers : gmap Z Header.t;
  bytes : gmap Z Byte.byte;
  mappings : list (uptr * uptr)
}.

Definition empty_memory : Memory :=
  {| headers := ∅; bytes := ∅; mappings := [] |}.

Definition load_byte (m : gmap Z Byte.byte) (a : uptr) : Byte.byte :=
  default Byte.x00 (m !! a).

Definition with_bytes (m : Memory) (b : gmap Z Byte.byte) : Memory :=
  {| headers := headers m; bytes := b; mappings := mappings m |}.

(** An address is mapped when it lies in a region obtained from
    [MmapOrDie]; a store to an address that is not mapped kills the
    process. *)
Definition is_mapped (maps : list (uptr * uptr)) (addr : uptr) : bool :=
  existsb (fun r => (r.1 <=? addr) && (addr <? r.1 + r.2)) maps.

(** Modelled from the spec: sanitizer_libc is not part of the sources at
    hand.  [internal_memset dst c n] stores the byte [c] at the [n]
    addresses from [dst], in increasing order. *)
Fixpoint internal_memset_loop (n : nat) (i : uptr) (dst : uptr) (c : Byte.byte)
    (m : gmap Z Byte.byte) : gmap Z Byte.byte :=
  match n with
  | O => m
  | S n' => internal_memset_loop n' (i +% 1) dst c (<[dst +% i := c]> m)
  end.

Definition internal_memset (m : gmap Z Byte.byte) (dst : uptr) (c : Byte.byte)
    (n : uptr) : gmap Z Byte.byte :=
  internal_memset_loop (Z.to_nat n) 0 dst c m.

(** Modelled from the spec: sanitizer_libc is not part of the sources at
    hand.  [internal_memcpy dst src n] copies [n] bytes one at a time, in
    increasing order of address. *)
Fixpoint internal_memcpy_loop (n : nat) (i : uptr) (dst src : uptr)
    (m : gmap Z Byte.byte) : gmap Z Byte.byte :=
  match n with
  | O => m
  | S n' =>
      internal_memcpy_loop n' (i +% 1) dst src
        (<[dst +% i := load_byte m (src +% i)]> m)
  end.

Definition internal_memcpy (m : gmap Z Byte.byte) (dst src : uptr) (n : uptr)
  : gmap Z Byte.byte :=
  internal_memcpy_loop (Z.to_nat n) 0 dst src m.

(** ** LargeMmapAllocator *)

Module LargeMmapAllocator.

(** The object: the cached page size and the head of the list of live
    headers (the spin mutex has no part in a sequential run). *)
Record t : Type := {
  page_size_ : uptr;
  list_ : uptr
}.

(** [Init] zeroes the object and caches the page size, the value of
    [GetPageSizeCached ()]. *)
Definition Init (page_size : uptr) : t :=
  {| page_size_ := page_size; list_ := 0 |}.

Definition GetHeader (a : t) (p : uptr) : option uptr :=
  if urem p (page_size_ a) =? 0 then Some (p -% page_size_ a) else None.

Definition GetUser (a : t) (h : uptr) : option uptr :=
  if urem h (page_size_ a) =? 0 then Some (h +% page_size_ a) else None.

Definition RoundUpMapSize (a : t) (size : uptr) : uptr :=
  RoundUpTo size (page_size_ a) +% page_size_ a.

(** The size of the mapping [Allocate] asks for. *)
Definition MapSize (a : t) (size alignment : uptr) : uptr :=
  let map_size := RoundUpMapSize a size in
  if page_size_ a <? alignment then map_size +% alignment else map_size.

(** The user address [Allocate] picks in a mapping that starts at
    [map_beg]. *)
Definition AlignedUser (a : t) (map_beg alignment : uptr) : uptr :=
  let res := map_beg +% page_size_ a in
  if (res &% (alignment -% 1)) =? 0 then res
  else res +% (alignment -% (res &% (alignment -% 1))).

(** [Allocate size alignment]; [map_beg] is the address [MmapOrDie]
    answers with if it is called.  The stores to the header are stores to
    the address [GetHeader] computes: they kill the process when that
    address is not mapped. *)
Definition Allocate (a : t) (m : Memory) (size alignment : uptr) (map_beg : uptr)
  : option (t * Memory * uptr) :=
  if negb (IsPowerOfTwo alignment) then None else
  let map_size := MapSize a size alignment in
  if map_size <? size then Some (a, m, 0) else
  let map_end := map_beg +% map_size in
  let res := AlignedUser a map_beg alignment in
  if negb (0 =? res &% (alignment -% 1)) then None else
  if negb (res +% size <=? map_end) then None else
  match GetHeader a res with
  | None => None
  | Some h =>
      if negb (is_mapped ((map_beg, map_size) :: mappings m) h) then None else
      let hdr := {| Header.map_beg := map_beg; Header.map_size := map_size;
                    Header.size := size;
                    Header.next := list_ a; Header.prev := 0 |} in
      let hs := <[h := hdr]> (headers m) in
      let linked :=
        if list_ a =? 0 then Some hs
        else match hs !! list_ a with
             | None => None
             | Some first => Some (<[list_ a := Header.set_prev first h]> hs)
             end in
      match linked with
      | None => None
      | Some hs =>
          Some ({| page_size_ := page_size_ a; list_ := h |},
                {| headers := hs; bytes := bytes m;
                   mappings := (map_beg, map_size) :: mappings m |},
                res)
      end
  end.

Definition unmap (beg size : uptr) (maps : list (uptr * uptr)) : list (uptr * uptr) :=
  List.filter (fun r => negb ((r.1 =? beg) && (r.2 =? size))) maps.

Definition Deallocate (a : t) (m : Memory) (p : uptr) : option (t * Memory) :=
  match GetHeader a p with
  | None => None
  | Some h =>
      match headers m !! h with
      | None => None
      | Some hdr =>
          let prev := Header.prev hdr in
          let next := Header.next hdr in
          let after_prev :=
            if prev =? 0 then Some (headers m)
            else match headers m !! prev with
                 | None => None
                 | Some ph => Some (<[prev := Header.set_next ph next]> (headers m))
                 end in
          match after_prev with
          | None => None
          | Some hs =>
              let after_next :=
                if next =? 0 then Some hs
                else match hs !! next with
                     | None => None
                     | Some nh => Some (<[next := Header.set_prev nh prev]> hs)
                     end in
              match after_next with
              | None => None
              | Some hs =>
                  let head := if h =? list_ a then next else list_ a in
                  match hs !! h with
                  | None => None
                  | Some hdr =>
                      Some ({| page_size_ := page_size_ a; list_ := head |},
                            {| headers := delete h hs; bytes := bytes m;
                               mappings := unmap (Header.map_beg hdr)
                                             (Header.map_size hdr) (mappings m) |})
                  end
              end
          end
      end
  end.

(** The list walks follow [next] from [list_] until null; a walk of more
    steps than there are headers is on a cycle and never ends. *)
Definition walk_fuel (m : Memory) : nat := S (size (headers m)).

Fixpoint TotalMemoryUsed_loop (fuel : nat) (a : t) (m : Memory) (l : uptr)
    (res : uptr) : option uptr :=
  if l =? 0 then Some res else
  match fuel with
  | O => None
  | S fuel' =>
      match headers m !! l with
      | None => None
      | Some hdr =>
          TotalMemoryUsed_loop fuel' a m (Header.next hdr)
            (res +% RoundUpMapSize a (Header.size hdr))
      end
  end.

Definition TotalMemoryUsed (a : t) (m : Memory) : option uptr :=
  TotalMemoryUsed_loop (walk_fuel m) a m (list_ a) 0.

Fixpoint PointerIsMine_loop (fuel : nat) (a : t) (m : Memory) (l : uptr)
    (p : uptr) : option bool :=
  if l =? 0 then Some false else
  match fuel with
  | O => None
  | S fuel' =>
      match headers m !! l with
      | None => None
      | Some hdr =>
          match GetUser a l with
          | None => None
          | Some b =>
              if b =? p then Some true
              else PointerIsMine_loop fuel' a m (Header.next hdr) p
          end
      end
  end.

Definition PointerIsMine (a : t) (m : Memory) (p : uptr) : option bool :=
  if negb ((p &% (page_size_ a -% 1)) =? 0) then Some false
  else PointerIsMine_loop (walk_fuel m) a m (list_ a) p.

Definition GetActuallyAllocatedSize (a : t) (m : Memory) (p : uptr) : option uptr :=
  match GetHeader a p with
  | None => None
  | Some h =>
      match headers m !! h with
      | None => None
      | Some hdr => Some (RoundUpMapSize a (Header.size hdr) -% page_size_ a)
      end
  end.

(** [sizeof(Header)]: five words. *)
Definition kHeaderSize : uptr := 40.

Definition GetMetaData (a : t) (p : uptr) : option uptr :=
  match GetHeader a p with
  | None => None
  | Some h => Some (h +% kHeaderSize)
  end.

Fixpoint GetBlockBegin_loop (fuel : nat) (a : t) (m : Memory) (l : uptr)
    (p : uptr) : option uptr :=
  if l =? 0 then Some 0 else
  match fuel with
  | O => None
  | S fuel' =>
      match headers m !! l with
      | None => None
      | Some hdr =>
          match GetUser a l with
          | None => None
          | Some b =>
              if (b <=? p) && (p <? b +% Header.size hdr) then Some b
              else GetBlockBegin_loop fuel' a m (Header.next hdr) p
          end
      end
  end.

Definition GetBlockBegin (a : t) (m : Memory) (p : uptr) : option uptr :=
  GetBlockBegin_loop (walk_fuel m) a m (list_ a) p.

(** The live list: the headers met from [l] by following [next] down to
    null, with their addresses. *)
Fixpoint live_list (hs : gmap Z Header.t) (l : uptr)
    (chain : list (uptr * Header.t)) : Prop :=
  match chain with
  | [] => l = 0
  | (h, hdr) :: rest =>
      l = h /\ h <> 0 /\ hs !! h = Some hdr /\ live_list hs (Header.next hdr) rest
  end.

(** The list as [Allocate] and [Deallocate] keep it: a live list in which
    the [prev] of every header is the address of the header before it,
    [prev] for the first. *)
Fixpoint doubly_linked (hs : gmap Z Header.t) (prev l : uptr)
    (chain : list (uptr * Header.t)) : Prop :=
  match chain with
  | [] => l = 0
  | (h, hdr) :: rest =>
      l = h /\ h <> 0 /\ hs !! h = Some hdr /\ Header.prev hdr = prev /\
      doubly_linked hs h (Header.next hdr) rest
  end.

(** The invariant of the list: doubly linked from [list_], with every
    header at a page-aligned address of the address space. *)
Definition list_invariant (a : t) (m : Memory) (chain : list (uptr * Header.t))
  : Prop :=
  doubly_linked (headers m) 0 (list_ a) chain /\
  Forall (fun h : uptr => is_uptr h /\ h mod page_size_ a = 0) chain.*1.

(** The size of the mapping [Allocate] asks for, in unbounded arithmetic:
    the user size rounded up to whole pages, one page for the header and,
    for an alignment above the page size, the alignment. *)
Definition RoundUpExact (size boundary : Z) : Z :=
  (size + boundary - 1) / boundary * boundary.

Definition MapSizeExact (a : t) (size alignment : Z) : Z :=
  RoundUpExact size (page_size_ a) + page_size_ a
  + (if page_size_ a <? alignment then alignment else 0).

(** The sum the walk of [TotalMemoryUsed] accumulates over a live list:
    [RoundUpMapSize] of every user size, in machine arithmetic. *)
Definition SumMapSizes (a : t) (chain : list (uptr * Header.t)) : uptr :=
  fold_left (fun res e => res +% RoundUpMapSize a (Header.size e.2)) chain 0.

(** The sum as the specification words it: the page-rounded user size of
    every live header, without the header page. *)
Definition SumRoundedUserSizes (a : t) (chain : list (uptr * Header.t)) : uptr :=
  fold_left (fun res e => res +% RoundUpTo (Header.size e.2) (page_size_ a)) chain 0.

End LargeMmapAllocator.

(** ** CombinedAllocator *)

Module CombinedAllocator.

(** The methods of the primary, under names the methods of this class do
    not hide. *)
Local Abbreviation Primary_PointerIsMine := PointerIsMine.
Local Abbreviation Primary_GetMetaData := GetMetaData.
Local Abbreviation Primary_GetBlockBegin := GetBlockBegin.
Local Abbreviation Primary_GetActuallyAllocatedSize := GetActuallyAllocatedSize.
Local Abbreviation Primary_TotalMemoryUsed := TotalMemoryUsed.

Section WithPrimary.
Context {A : Type} `{SizeClassAllocator A}.

(** The allocator ([primary_], [secondary_]) together with what its
    methods reach through their arguments: the cache the caller passes and
    the memory. *)
Record State : Type := {
  primary_ : A;
  secondary_ : LargeMmapAllocator.t;
  cache_ : LocalCache;
  memory_ : Memory
}.

Definition set_bytes (s : State) (b : gmap Z Byte.byte) : State :=
  {| primary_ := primary_ s; secondary_ := secondary_ s; cache_ := cache_ s;
     memory_ := {| headers := headers (memory_ s); bytes := b;
                   mappings := mappings (memory_ s) |} |}.

(** The dispatch of [Allocate]: through the cache to the primary, or to
    the secondary.  On the way through the cache the memory takes the
    stores of the free lists. *)
Definition AllocateFrom (s : State) (size alignment : uptr) (map_beg : uptr)
  : option (State * uptr) :=
  if CanAllocate (primary_ s) size alignment then
    match SizeClassAllocatorLocalCache.Allocate (cache_ s) (primary_ s)
            (ClassID (primary_ s) size) with
    | Some (cache', primary', res) =>
        Some ({| primary_ := primary'; secondary_ := secondary_ s;
                 cache_ := cache';
                 memory_ :=
                   with_bytes (memory_ s)
                     (SizeClassAllocatorLocalCache.Allocate_stores (cache_ s)
                        (primary_ s) (ClassID (primary_ s) size)
                        (bytes (memory_ s))) |}, res)
    | None => None
    end
  else
    match LargeMmapAllocator.Allocate (secondary_ s) (memory_ s) size alignment
            map_beg with
    | Some (secondary', memory', res) =>
        Some ({| primary_ := primary_ s; secondary_ := secondary';
                 cache_ := cache_ s; memory_ := memory' |}, res)
    | None => None
    end.

(** [Allocate cache size alignment cleared]; [map_beg] is the address
    [MmapOrDie] answers with if the secondary calls it. *)
Definition Allocate (s : State) (size alignment : uptr) (cleared : bool)
    (map_beg : uptr) : option (State * uptr) :=
  let size := if size =? 0 then 1 else size in
  if size +% alignment <? size then Some (s, 0) else
  let size := if 8 <? alignment then RoundUpTo size alignment else size in
  match AllocateFrom s size alignment map_beg with
  | None => None
  | Some (s, res) =>
      if (8 <? alignment) && negb ((res &% (alignment -% 1)) =? 0) then None
      else if cleared && negb (res =? 0)
      then Some (set_bytes s (internal_memset (bytes (memory_ s)) res Byte.x00 size), res)
      else Some (s, res)
  end.

Definition Deallocate (s : State) (p : uptr) : option State :=
  if p =? 0 then Some s else
  if Primary_PointerIsMine (primary_ s) p then
    match SizeClassAllocatorLocalCache.Deallocate (cache_ s) (primary_ s)
            (GetSizeClass (primary_ s) p) p with
    | Some (cache', primary') =>
        Some {| primary_ := primary'; secondary_ := secondary_ s;
                cache_ := cache';
                memory_ :=
                  with_bytes (memory_ s)
                    (SizeClassAllocatorLocalCache.Deallocate_stores (cache_ s)
                       (primary_ s) (GetSizeClass (primary_ s) p) p
                       (bytes (memory_ s))) |}
    | None => None
    end
  else
    match LargeMmapAllocator.Deallocate (secondary_ s) (memory_ s) p with
    | Some (secondary', memory') =>
        Some {| primary_ := primary_ s; secondary_ := secondary';
                cache_ := cache_ s; memory_ := memory' |}
    | None => None
    end.

Definition PointerIsMine (s : State) (p : uptr) : option bool :=
  if Primary_PointerIsMine (primary_ s) p then Some true
  else LargeMmapAllocator.PointerIsMine (secondary_ s) (memory_ s) p.

Definition GetMetaData (s : State) (p : uptr) : option uptr :=
  if Primary_PointerIsMine (primary_ s) p
  then Some (Primary_GetMetaData (primary_ s) p)
  else LargeMmapAllocator.GetMetaData (secondary_ s) p.

Definition GetBlockBegin (s : State) (p : uptr) : option uptr :=
  if Primary_PointerIsMine (primary_ s) p
  then Some (Primary_GetBlockBegin (primary_ s) p)
  else LargeMmapAllocator.GetBlockBegin (secondary_ s) (memory_ s) p.

Definition GetActuallyAllocatedSize (s : State) (p : uptr) : option uptr :=
  if Primary_PointerIsMine (primary_ s) p
  then Some (Primary_GetActuallyAllocatedSize (primary_ s) p)
  else LargeMmapAllocator.GetActuallyAllocatedSize (secondary_ s) (memory_ s) p.

Definition TotalMemoryUsed (s : State) : option uptr :=
  match LargeMmapAllocator.TotalMemoryUsed (secondary_ s) (memory_ s) with
  | Some large => Some (Primary_TotalMemoryUsed (primary_ s) +% large)
  | None => None
  end.

Definition SwallowCache (s : State) : option State :=
  match SizeClassAllocatorLocalCache.Drain (cache_ s) (primary_ s) with
  | Some (cache', primary') =>
      Some {| primary_ := primary'; secondary_ := secondary_ s;
              cache_ := cache';
              memory_ :=
                with_bytes (memory_ s)
                  (SizeClassAllocatorLocalCache.Drain_stores (cache_ s)
                     (primary_ s) (bytes (memory_ s))) |}
  | None => None
  end.

Definition Reallocate (s : State) (p : uptr) (new_size alignment : uptr)
    (map_beg : uptr) : option (State * uptr) :=
  if p =? 0 then Allocate s new_size alignment false map_beg else
  if new_size =? 0 then
    match Deallocate s p with
    | Some s => Some (s, 0)
    | None => None
    end
  else
  match PointerIsMine s p with
  | Some true =>
      match GetActuallyAllocatedSize s p with
      | None => None
      | Some old_size =>
          let memcpy_size := Min new_size old_size in
          match Allocate s new_size alignment false map_beg with
          | None => None
          | Some (s, new_p) =>
              let s :=
                if new_p =? 0 then s
                else set_bytes s (internal_memcpy (bytes (memory_ s)) new_p p
                                    memcpy_size) in
              match Deallocate s p with
              | Some s => Some (s, new_p)
              | None => None
              end
          end
      end
  | _ => None
  end.

End WithPrimary.
End CombinedAllocator.

(** A combined allocator over [ToyPrimary] with 4096-byte pages, an empty
    cache and nothing mapped. *)
Definition ToyState : CombinedAllocator.State (A := ToyPrimary.t) := {|
  CombinedAllocator.primary_ := ToyPrimary.init;
  CombinedAllocator.secondary_ := LargeMmapAllocator.Init 4096;
  CombinedAllocator.cache_ := @SizeClassAllocatorLocalCache.Init _ ModestPrimary;
  CombinedAllocator.memory_ := empty_memory
|}.


(** A secondary with 4096-byte pages and two live blocks: 5000 bytes in a
    mapping at [0x10000], then 100 bytes in a mapping at [0x20000]. *)
Definition TwoBlocksChain : list (uptr * Header.t) :=
  [(0x20000, {| Header.map_beg := 0x20000; Header.map_size := 8192;
                Header.size := 100; Header.next := 0x10000; Header.prev := 0 |});
   (0x10000, {| Header.map_beg := 0x10000; Header.map_size := 12288;
                Header.size := 5000; Header.next := 0; Header.prev := 0x20000 |})].

Definition TwoBlocks : LargeMmapAllocator.t :=
  {| LargeMmapAllocator.page_size_ := 4096; LargeMmapAllocator.list_ := 0x20000 |}.

Definition TwoBlocksMemory : Memory :=
  {| headers := list_to_map TwoBlocksChain; bytes := ∅;
     mappings := [(0x20000, 8192); (0x10000, 12288)] |}.

(** A combined allocator over [ToyPrimary] whose cache holds two chunks of
    class 3. *)
Definition WarmState : CombinedAllocator.State (A := ToyPrimary.t) := {|
  CombinedAllocator.primary_ := ToyPrimary.init;
  CombinedAllocator.secondary_ := LargeMmapAllocator.Init 4096;
  CombinedAllocator.cache_ :=
    <[3%nat := [4096; 8192]]> (@SizeClassAllocatorLocalCache.Init _ GreedyPrimary);
  CombinedAllocator.memory_ := empty_memory
|}.

(** States to run [Reallocate] on, over the primary that refills with four
    chunks.  [FilledChunk]: a chunk of 64 bytes has been allocated from
    [ToyState], at [0x700000000000], and filled with the byte [0xA5];
    [GrownChunk]: 200 bytes more have then been allocated, at
    [0x700000000100]. *)
Definition FilledChunk : CombinedAllocator.State (A := ToyPrimary.t) :=
  match @CombinedAllocator.Allocate _ GreedyPrimary ToyState 64 8 false 0x10000 with
  | Some (s, p) =>
      CombinedAllocator.set_bytes s
        (internal_memset (bytes (CombinedAllocator.memory_ s)) p Byte.xa5 64)
  | None => ToyState
  end.

Definition GrownChunk : CombinedAllocator.State (A := ToyPrimary.t) :=
  match @CombinedAllocator.Allocate _ GreedyPrimary FilledChunk 200 8 false 0x10000 with
  | Some (s, _) => s
  | None => ToyState
  end.

(** [FilledBlock]: a block of 5000000 bytes has been allocated from
    [ToyState], by the secondary in a mapping at [0x10000], and its first 64
    bytes, at [0x11000], filled with the byte [0xA5]; [ShrunkBlock]: 64
    bytes have then been allocated, at [0x700000000000]. *)
Definition FilledBlock : CombinedAllocator.State (A := ToyPrimary.t) :=
  match @CombinedAllocator.Allocate _ GreedyPrimary ToyState 5000000 8 false 0x10000 with
  | Some (s, p) =>
      CombinedAllocator.set_bytes s
        (internal_memset (bytes (CombinedAllocator.memory_ s)) p Byte.xa5 64)
  | None => ToyState
  end.

Definition ShrunkBlock : CombinedAllocator.State (A := ToyPrimary.t) :=
  match @CombinedAllocator.Allocate _ GreedyPrimary FilledBlock 64 8 false 0x20000 with
  | Some (s, _) => s
  | None => ToyState
  end.

(** [WarmState] with the 128 bytes from [4096] set to [0xFF]. *)
Definition DirtyState : CombinedAllocator.State (A := ToyPrimary.t) :=
  CombinedAllocator.set_bytes WarmState (internal_memset ∅ 4096 Byte.xff 128).
(* ===================================================================== *)
(** * Properties *)

(** ** Word arithmetic *)

Lemma kWordMod_val : kWordMod = 18446744073709551616.
Proof. reflexivity. Qed.

Lemma wrap_small x : is_uptr x -> wrap x = x.
Proof. intros H. apply Z.mod_small. exact H. Qed.

Lemma wrap_is_uptr x : is_uptr (wrap x).
Proof. apply Z.mod_pos_bound. reflexivity. Qed.

Lemma wrap_sub_l a b : wrap (wrap a - b) = wrap (a - b).
Proof. unfold wrap. apply Zminus_mod_idemp_l. Qed.

Lemma wrap_add_l a b : wrap (wrap a + b) = wrap (a + b).
Proof. unfold wrap. apply Zplus_mod_idemp_l. Qed.

Lemma pow2_pos x : pow2 x -> 0 < x.
Proof. intros (k & Hk & ->). apply Z.pow_pos_nonneg; lia. Qed.

Lemma pow2_is_uptr x : pow2 x -> is_uptr x.
Proof.
  intros (k & Hk & ->). split.
  - apply Z.pow_nonneg; lia.
  - unfold kWordMod. apply Z.pow_lt_mono_r; lia.
Qed.

Lemma pow2_divides_word x : pow2 x -> (x | kWordMod).
Proof.
  intros (k & Hk & ->). exists (2 ^ (kWordBits - k)).
  unfold kWordMod. rewrite <- Z.pow_add_r by lia. f_equal. lia.
Qed.

Ltac unwrap :=
  repeat match goal with
  | |- context [wrap ?x] => rewrite (wrap_small x) by (unfold is_uptr, kWordMod, kWordBits in *; simpl; lia)
  end.

(** ** SplineSizeClassMap: the round-trip laws *)

(** One segment [l, l + s*d] with step [s]. *)
Section Segment.
Variables l s d : Z.
Hypothesis Hl : 0 <= l.
Hypothesis Hs : 0 < s.
Hypothesis Hd : 1 <= d.
Hypothesis Htop : l + s * d < kWordMod.
Hypothesis Hsw : (s | kWordMod).

Lemma seg_room : s * d + s <= kWordMod.
Proof using All.
  destruct Hsw as [m Hm]. pose proof Htop as T.
  rewrite Hm in T |- *. assert (d < m) by nia. nia.
Qed.

Lemma seg_d_le : d <= s * d.
Proof using All. nia. Qed.

Lemma seg_s_le : s <= s * d.
Proof using All. nia. Qed.

(** The rounded-up quotient of [ClassID], without wrap-around. *)
Lemma seg_ceil_unwrap S :
  l <= S <= l + s * d ->
  (S -% l +% s -% 1) /% s = (S - l + s - 1) / s.
Proof using All.
  intros HS. pose proof seg_s_le. pose proof seg_room.
  unfold udiv, uadd, usub.
  rewrite (wrap_small (S - l)) by (unfold is_uptr; lia).
  rewrite wrap_sub_l.
  rewrite (wrap_small (S - l + s - 1)) by (unfold is_uptr; lia).
  reflexivity.
Qed.

Lemma seg_ceil_bounds S :
  l <= S <= l + s * d ->
  let q := (S - l + s - 1) / s in
  0 <= q <= d /\ S - l <= s * q < S - l + s.
Proof using All.
  intros HS q.
  pose proof (Z.div_mod (S - l + s - 1) s ltac:(lia)) as E.
  pose proof (Z.mod_pos_bound (S - l + s - 1) s Hs) as B.
  fold q in E.
  assert (0 <= q) by (apply Z.div_pos; lia).
  assert (q <= d) by nia.
  lia.
Qed.

Lemma seg_ceil_pos S :
  l < S <= l + s * d -> 1 <= (S - l + s - 1) / s.
Proof using All.
  intros HS.
  pose proof (Z.div_mod (S - l + s - 1) s ltac:(lia)) as E.
  pose proof (Z.mod_pos_bound (S - l + s - 1) s Hs) as B.
  nia.
Qed.

(** One branch of [Size], without wrap-around. *)
Lemma seg_size_unwrap ub c :
  0 <= ub -> ub <= c <= ub + d -> c < kWordMod ->
  l +% s *% (c -% ub) = l + s * (c - ub).
Proof using All.
  intros Hub Hc Hc'. unfold uadd, umul, usub.
  assert (0 <= s * (c - ub) <= s * d) by nia.
  rewrite (wrap_small (c - ub)) by (unfold is_uptr; lia).
  rewrite (wrap_small (s * (c - ub))) by (unfold is_uptr; lia).
  rewrite (wrap_small (l + s * (c - ub))) by (unfold is_uptr; lia).
  reflexivity.
Qed.

(** A class boundary, without wrap-around. *)
Lemma seg_u_unwrap ub :
  0 <= ub -> ub + d < kWordMod ->
  ub +% ((l + s * d) -% l) /% s = ub + d.
Proof using All.
  intros Hub Hub'. unfold uadd, usub, udiv.
  replace (l + s * d - l) with (d * s) by lia.
  pose proof seg_s_le.
  rewrite (wrap_small (d * s)) by (unfold is_uptr; lia).
  rewrite Z.div_mul by lia.
  apply wrap_small. unfold is_uptr; lia.
Qed.

Lemma seg_ceil_exact k :
  0 <= k -> (s * k + s - 1) / s = k.
Proof using All.
  intros Hk. symmetry. apply (Z.div_unique _ _ _ (s - 1)); lia.
Qed.
End Segment.

(** The class boundaries of a well-formed map are the running sums of the
    segment lengths counted in steps. *)
Lemma spline_layout p :
  spline_ok p ->
  exists d0 d1 d2 d3 d4,
    (1 <= d0 /\ 1 <= d1 /\ 1 <= d2 /\ 1 <= d3 /\ 1 <= d4) /\
    (l1 p = l0 p + s0 p * d0 /\ l2 p = l1 p + s1 p * d1 /\
     l3 p = l2 p + s2 p * d2 /\ l4 p = l3 p + s3 p * d3 /\
     l5 p = l4 p + s4 p * d4) /\
    (SplineSizeClassMap.u0 p = d0 /\
     SplineSizeClassMap.u1 p = d0 + d1 /\
     SplineSizeClassMap.u2 p = d0 + d1 + d2 /\
     SplineSizeClassMap.u3 p = d0 + d1 + d2 + d3 /\
     SplineSizeClassMap.u4 p = d0 + d1 + d2 + d3 + d4) /\
    d0 + d1 + d2 + d3 + d4 <= l5 p.
Proof.
  intros [].
  pose proof (pow2_pos _ ok_s5) as P0. pose proof (pow2_pos _ ok_s6) as P1.
  pose proof (pow2_pos _ ok_s7) as P2. pose proof (pow2_pos _ ok_s8) as P3.
  pose proof (pow2_pos _ ok_s9) as P4.
  pose proof (pow2_divides_word _ ok_s5) as W0.
  pose proof (pow2_divides_word _ ok_s6) as W1.
  pose proof (pow2_divides_word _ ok_s7) as W2.
  pose proof (pow2_divides_word _ ok_s8) as W3.
  pose proof (pow2_divides_word _ ok_s9) as W4.
  destruct ok_d5 as [d0 E0], ok_d6 as [d1 E1], ok_d7 as [d2 E2],
           ok_d8 as [d3 E3], ok_d9 as [d4 E4].
  assert (1 <= d0) by nia. assert (1 <= d1) by nia. assert (1 <= d2) by nia.
  assert (1 <= d3) by nia. assert (1 <= d4) by nia.
  assert (d0 <= s0 p * d0) by nia. assert (d1 <= s1 p * d1) by nia.
  assert (d2 <= s2 p * d2) by nia. assert (d3 <= s3 p * d3) by nia.
  assert (d4 <= s4 p * d4) by nia.
  assert (L1 : l1 p = l0 p + s0 p * d0) by lia.
  assert (L2 : l2 p = l1 p + s1 p * d1) by lia.
  assert (L3 : l3 p = l2 p + s2 p * d2) by lia.
  assert (L4 : l4 p = l3 p + s3 p * d3) by lia.
  assert (L5 : l5 p = l4 p + s4 p * d4) by lia.
  exists d0, d1, d2, d3, d4.
  assert (U0 : SplineSizeClassMap.u0 p = d0).
  { unfold SplineSizeClassMap.u0. rewrite L1 at 1.
    rewrite seg_u_unwrap; auto with zarith; lia. }
  assert (U1 : SplineSizeClassMap.u1 p = d0 + d1).
  { unfold SplineSizeClassMap.u1. rewrite U0, L2 at 1.
    rewrite seg_u_unwrap; auto with zarith; lia. }
  assert (U2 : SplineSizeClassMap.u2 p = d0 + d1 + d2).
  { unfold SplineSizeClassMap.u2. rewrite U1, L3 at 1.
    rewrite seg_u_unwrap; auto with zarith; lia. }
  assert (U3 : SplineSizeClassMap.u3 p = d0 + d1 + d2 + d3).
  { unfold SplineSizeClassMap.u3. rewrite U2, L4 at 1.
    rewrite seg_u_unwrap; auto with zarith; lia. }
  assert (U4 : SplineSizeClassMap.u4 p = d0 + d1 + d2 + d3 + d4).
  { unfold SplineSizeClassMap.u4. rewrite U3, L5 at 1.
    rewrite seg_u_unwrap; auto with zarith; lia. }
  repeat split; try assumption; lia.
Qed.

Lemma kNumClasses_unfold p :
  SplineSizeClassMap.kNumClasses p = wrap (SplineSizeClassMap.u4 p + 1).
Proof. reflexivity. Qed.

Lemma u4_is_uptr p : is_uptr (SplineSizeClassMap.u4 p).
Proof. apply wrap_is_uptr. Qed.

Lemma class_below_kNumClasses p c :
  0 <= c < SplineSizeClassMap.kNumClasses p -> c <= SplineSizeClassMap.u4 p.
Proof.
  rewrite kNumClasses_unfold. intros Hc.
  pose proof (u4_is_uptr p) as Hu.
  destruct (Z.eq_dec (SplineSizeClassMap.u4 p + 1) kWordMod) as [E|E].
  - rewrite E in Hc. unfold wrap in Hc.
    rewrite Z.mod_same in Hc by (rewrite kWordMod_val; lia). lia.
  - rewrite wrap_small in Hc by (unfold is_uptr in *; lia). lia.
Qed.

(** What one branch of [ClassID] followed by the matching branch of [Size]
    computes on a segment. *)
Lemma segment_round_up l s d ub S :
  0 <= l -> pow2 s -> 1 <= d -> l + s * d < kWordMod ->
  0 <= ub -> ub + d < kWordMod ->
  l <= S <= l + s * d ->
  let c := ub +% (S -% l +% s -% 1) /% s in
  ub <= c <= ub + d /\ (l < S -> ub < c) /\
  S <= l +% s *% (c -% ub) < S + s.
Proof.
  intros Hl Hs Hd Htop Hub Hubd HS c.
  pose proof (pow2_pos _ Hs) as Hs0. pose proof (pow2_divides_word _ Hs) as Hsw.
  pose proof (seg_ceil_bounds l s d Hl Hs0 Hd Htop Hsw S HS) as [Hq Hsq].
  assert (Ec : c = ub + (S - l + s - 1) / s).
  { unfold c. rewrite (seg_ceil_unwrap l s d) by assumption.
    apply wrap_small. unfold is_uptr. lia. }
  rewrite (seg_size_unwrap l s d) by (assumption || lia).
  rewrite Ec. split; [lia|]. split.
  - intros HlS. pose proof (seg_ceil_pos l s d Hl Hs0 Hd Htop Hsw S). lia.
  - replace (ub + (S - l + s - 1) / s - ub) with ((S - l + s - 1) / s) by lia.
    lia.
Qed.

(** What one branch of [Size] followed by the matching branch of [ClassID]
    computes on a segment. *)
Lemma segment_class_back l s d ub c :
  0 <= l -> pow2 s -> 1 <= d -> l + s * d < kWordMod ->
  0 <= ub -> ub + d < kWordMod ->
  ub <= c <= ub + d ->
  let S := l +% s *% (c -% ub) in
  l <= S <= l + s * d /\ (ub < c -> l < S) /\
  ub +% (S -% l +% s -% 1) /% s = c.
Proof.
  intros Hl Hs Hd Htop Hub Hubd Hc S.
  pose proof (pow2_pos _ Hs) as Hs0. pose proof (pow2_divides_word _ Hs) as Hsw.
  assert (ES : S = l + s * (c - ub)).
  { unfold S. apply (seg_size_unwrap l s d); assumption || lia. }
  assert (0 <= s * (c - ub) <= s * d) by nia.
  assert (ub < c -> 0 < s * (c - ub)) by nia.
  split; [lia|]. split; [lia|].
  rewrite (seg_ceil_unwrap l s d) by (assumption || lia).
  rewrite ES. replace (l + s * (c - ub) - l + s - 1) with (s * (c - ub) + s - 1) by lia.
  rewrite (seg_ceil_exact l s d) by (assumption || lia).
  unfold uadd. rewrite wrap_small by (unfold is_uptr; lia). lia.
Qed.

Ltac spline_facts p Hok :=
  let d0 := fresh "d0" in let d1 := fresh "d1" in let d2 := fresh "d2" in
  let d3 := fresh "d3" in let d4 := fresh "d4" in
  destruct (spline_layout p Hok)
    as (d0 & d1 & d2 & d3 & d4 & (?&?&?&?&?) & (?&?&?&?&?) & (?&?&?&?&?) & ?);
  pose proof (ok_l0 p Hok); pose proof (ok_l01 p Hok); pose proof (ok_l12 p Hok);
  pose proof (ok_l23 p Hok); pose proof (ok_l34 p Hok); pose proof (ok_l45 p Hok);
  pose proof (ok_l5 p Hok);
  pose proof (ok_s0 p Hok); pose proof (ok_s1 p Hok); pose proof (ok_s2 p Hok);
  pose proof (ok_s3 p Hok); pose proof (ok_s4 p Hok).

Ltac decide_leb :=
  repeat match goal with
  | |- context [?a <=? ?b] =>
      first [ rewrite (Zle_imp_le_bool a b) by lia
            | rewrite (proj2 (Z.leb_gt a b)) by lia ]
  end.

(** C2. For a spline size-class map whose template arguments obey the
    invariants of the instantiations, every request size [S] between
    [kMinSize] and [kMaxSize] is mapped to a class that is large enough,
    [Size (ClassID S) >= S], and wastes less than one step of the segment
    that class lies in. *)
Theorem Size_ClassID_round_up p S :
  spline_ok p ->
  SplineSizeClassMap.kMinSize p <= S <= SplineSizeClassMap.kMaxSize p ->
  SplineSizeClassMap.Size p (SplineSizeClassMap.ClassID p S) >= S /\
  SplineSizeClassMap.Size p (SplineSizeClassMap.ClassID p S) - S
    < SplineSizeClassMap.SegmentStep p (SplineSizeClassMap.ClassID p S).
Proof.
  intros Hok HS. unfold SplineSizeClassMap.kMinSize, SplineSizeClassMap.kMaxSize in HS.
  spline_facts p Hok.
  unfold SplineSizeClassMap.ClassID.
  destruct (Z.leb_spec S (l1 p)); [|destruct (Z.leb_spec S (l2 p));
    [|destruct (Z.leb_spec S (l3 p)); [|destruct (Z.leb_spec S (l4 p));
    [|destruct (Z.leb_spec S (l5 p)); [|lia]]]]].
  - destruct (segment_round_up (l0 p) (s0 p) d0 0 S) as (Hc & Hlt & Hsz);
      try assumption; try lia.
    unfold SplineSizeClassMap.Size, SplineSizeClassMap.SegmentStep.
    decide_leb. lia.
  - destruct (segment_round_up (l1 p) (s1 p) d1 (SplineSizeClassMap.u0 p) S)
      as (Hc & Hlt & Hsz); try assumption; try lia.
    unfold SplineSizeClassMap.Size, SplineSizeClassMap.SegmentStep.
    decide_leb. lia.
  - destruct (segment_round_up (l2 p) (s2 p) d2 (SplineSizeClassMap.u1 p) S)
      as (Hc & Hlt & Hsz); try assumption; try lia.
    unfold SplineSizeClassMap.Size, SplineSizeClassMap.SegmentStep.
    decide_leb. lia.
  - destruct (segment_round_up (l3 p) (s3 p) d3 (SplineSizeClassMap.u2 p) S)
      as (Hc & Hlt & Hsz); try assumption; try lia.
    unfold SplineSizeClassMap.Size, SplineSizeClassMap.SegmentStep.
    decide_leb. lia.
  - destruct (segment_round_up (l4 p) (s4 p) d4 (SplineSizeClassMap.u3 p) S)
      as (Hc & Hlt & Hsz); try assumption; try lia.
    unfold SplineSizeClassMap.Size, SplineSizeClassMap.SegmentStep.
    decide_leb. lia.
Qed.

(** C3. For a spline size-class map whose template arguments obey the
    invariants of the instantiations, [ClassID] inverts [Size] on every
    class id below [kNumClasses]. *)
Theorem ClassID_Size_id p c :
  spline_ok p ->
  0 <= c < SplineSizeClassMap.kNumClasses p ->
  SplineSizeClassMap.ClassID p (SplineSizeClassMap.Size p c) = c.
Proof.
  intros Hok Hc. pose proof (class_below_kNumClasses p c Hc) as Hc4.
  spline_facts p Hok.
  unfold SplineSizeClassMap.Size.
  destruct (Z.leb_spec c (SplineSizeClassMap.u0 p));
    [|destruct (Z.leb_spec c (SplineSizeClassMap.u1 p));
    [|destruct (Z.leb_spec c (SplineSizeClassMap.u2 p));
    [|destruct (Z.leb_spec c (SplineSizeClassMap.u3 p));
    [|destruct (Z.leb_spec c (SplineSizeClassMap.u4 p)); [|lia]]]]].
  - destruct (segment_class_back (l0 p) (s0 p) d0 0 c) as (HS & Hlt & Hback);
      try assumption; try lia.
    unfold SplineSizeClassMap.ClassID. decide_leb. exact Hback.
  - destruct (segment_class_back (l1 p) (s1 p) d1 (SplineSizeClassMap.u0 p) c)
      as (HS & Hlt & Hback); try assumption; try lia.
    unfold SplineSizeClassMap.ClassID. decide_leb. exact Hback.
  - destruct (segment_class_back (l2 p) (s2 p) d2 (SplineSizeClassMap.u1 p) c)
      as (HS & Hlt & Hback); try assumption; try lia.
    unfold SplineSizeClassMap.ClassID. decide_leb. exact Hback.
  - destruct (segment_class_back (l3 p) (s3 p) d3 (SplineSizeClassMap.u2 p) c)
      as (HS & Hlt & Hback); try assumption; try lia.
    unfold SplineSizeClassMap.ClassID. decide_leb. exact Hback.
  - destruct (segment_class_back (l4 p) (s4 p) d4 (SplineSizeClassMap.u3 p) c)
      as (HS & Hlt & Hback); try assumption; try lia.
    unfold SplineSizeClassMap.ClassID. decide_leb. exact Hback.
Qed.

(** The two instantiations obey the invariants and pass the static checks. *)
Lemma pow2_ushl k : 0 <= k < kWordBits -> pow2 (ushl 1 k).
Proof.
  intros Hk. exists k. split; [exact Hk|].
  unfold ushl. rewrite Z.shiftl_1_l. apply wrap_small.
  split; [apply Z.pow_nonneg; lia | unfold kWordMod; apply Z.pow_lt_mono_r; lia].
Qed.

Lemma DefaultSizeClassMap_ok : spline_ok DefaultSizeClassMap.
Proof.
  constructor; simpl;
    try (apply pow2_ushl; unfold kWordBits; lia);
    try (vm_compute; intuition congruence).
  - exists 31. reflexivity.
  - exists 56. reflexivity.
  - exists 56. reflexivity.
  - exists 56. reflexivity.
  - exists 56. reflexivity.
Qed.

Lemma CompactSizeClassMap_ok : spline_ok CompactSizeClassMap.
Proof.
  constructor; simpl;
    try (apply pow2_ushl; unfold kWordBits; lia);
    try (vm_compute; intuition congruence).
  - exists 1. reflexivity.
  - exists 7. reflexivity.
  - exists 1. reflexivity.
  - exists 15. reflexivity.
  - exists 7. reflexivity.
Qed.

Lemma DefaultSizeClassMap_checks :
  SplineSizeClassMap.compiler_checks DefaultSizeClassMap = true /\
  SplineSizeClassMap.kNumClasses DefaultSizeClassMap = 256.
Proof. split; reflexivity. Qed.

Lemma CompactSizeClassMap_checks :
  SplineSizeClassMap.compiler_checks CompactSizeClassMap = true /\
  SplineSizeClassMap.kNumClasses CompactSizeClassMap <= 32.
Proof. split; [reflexivity | vm_compute; discriminate]. Qed.

Lemma Size_ClassID_round_up_witness :
  SplineSizeClassMap.Size DefaultSizeClassMap
    (SplineSizeClassMap.ClassID DefaultSizeClassMap 1000) >= 1000 /\
  SplineSizeClassMap.Size DefaultSizeClassMap
    (SplineSizeClassMap.ClassID DefaultSizeClassMap 1000) - 1000
    < SplineSizeClassMap.SegmentStep DefaultSizeClassMap
        (SplineSizeClassMap.ClassID DefaultSizeClassMap 1000).
Proof.
  apply (Size_ClassID_round_up DefaultSizeClassMap 1000 DefaultSizeClassMap_ok).
  vm_compute. split; discriminate.
Defined.

Lemma ClassID_Size_id_witness :
  SplineSizeClassMap.ClassID CompactSizeClassMap
    (SplineSizeClassMap.Size CompactSizeClassMap 17) = 17.
Proof.
  apply (ClassID_Size_id CompactSizeClassMap 17 CompactSizeClassMap_ok).
  vm_compute. split; [discriminate | reflexivity].
Defined.

(** ** SizeClassAllocatorLocalCache: bounded free lists *)


Lemma MaxCached_usable p c :
  caps_ok p -> 0 <= c < SplineSizeClassMap.kNumClasses p ->
  0 < SplineSizeClassMap.MaxCached p c /\
  2 *% SplineSizeClassMap.MaxCached p c = 2 * SplineSizeClassMap.MaxCached p c.
Proof.
  intros [(?&?&?&?&?) (?&?&?&?&?)] Hc.
  pose proof (class_below_kNumClasses p c Hc).
  unfold SplineSizeClassMap.MaxCached, umul.
  repeat match goal with
  | |- context [?a <=? ?b] => destruct (Z.leb_spec a b)
  end; try lia; (split; [lia | apply wrap_small; unfold is_uptr; lia]).
Qed.

Section LocalCacheFacts.
Context {A : Type} `{SizeClassAllocator A}.
Import SizeClassAllocatorLocalCache.

Lemma valid_class c :
  0 <= c -> c < kNumClasses ->
  0 <= c < SplineSizeClassMap.kNumClasses SizeClassMapT.
Proof. unfold kNumClasses. intros. split; assumption. Qed.

Lemma class_cap_usable c :
  caps_ok SizeClassMapT -> 0 <= c < kNumClasses ->
  0 < MaxCached c /\ 2 *% MaxCached c = 2 * MaxCached c.
Proof. unfold kNumClasses, MaxCached. apply MaxCached_usable. Qed.

Lemma DrainHalf_loop_spec (n : nat) (fl half : AllocatorFreeList) :
  (n <= length fl)%nat ->
  DrainHalf_loop n fl half = Some (drop n fl, reverse (take n fl) ++ half).
Proof.
  revert fl half. induction n as [|n IH]; intros fl half Hn.
  - reflexivity.
  - destruct fl as [|x fl]; simpl in Hn; [lia|].
    simpl. rewrite IH by lia. unfold push_front.
    rewrite reverse_cons, <- app_assoc. reflexivity.
Qed.

Lemma lists_bounded_insert (cache : LocalCache) (c : nat) (fl : AllocatorFreeList) :
  lists_bounded cache ->
  list_size fl < 2 * MaxCached (Z.of_nat c) ->
  lists_bounded (<[c := fl]> cache).
Proof.
  intros [Hlen Hb] Hfl. split.
  - rewrite length_insert. exact Hlen.
  - intros c' fl' Hc'. destruct (decide (c = c')) as [->|Hne].
    + destruct (decide (c' < length cache)%nat) as [Hlt|Hge].
      * rewrite list_lookup_insert_eq in Hc' by exact Hlt.
        injection Hc' as <-. exact Hfl.
      * rewrite list_insert_ge in Hc' by lia. eauto.
    + rewrite list_lookup_insert_ne in Hc' by exact Hne. eauto.
Qed.

Lemma lookup_class (cache : LocalCache) (c : nat) (fl : AllocatorFreeList) :
  lists_bounded cache -> cache !! c = Some fl ->
  0 <= Z.of_nat c < kNumClasses.
Proof.
  intros [Hlen _] Hc. apply lookup_lt_Some in Hc. rewrite Hlen in Hc. lia.
Qed.

Lemma lists_bounded_Init :
  caps_ok SizeClassMapT -> lists_bounded Init.
Proof.
  intros Hcaps. split.
  - unfold Init. apply length_replicate.
  - intros c fl. unfold Init. intros Hc.
    apply lookup_replicate in Hc as [-> Hlt].
    destruct (class_cap_usable (Z.of_nat c) Hcaps) as [Hpos _]; [lia|].
    unfold list_size. simpl. lia.
Qed.

Lemma Allocate_bounded (cache : LocalCache) allocator class_id cache' allocator' res :
  caps_ok SizeClassMapT -> refill_bounded A -> is_uptr class_id ->
  lists_bounded cache ->
  Allocate cache allocator class_id = Some (cache', allocator', res) ->
  lists_bounded cache'.
Proof.
  intros Hcaps Hrefill Hid Hb. unfold Allocate.
  destruct (Z.ltb_spec class_id kNumClasses) as [Hlt|]; [cbn [negb]|discriminate].
  destruct (cache !! Z.to_nat class_id) as [fl|] eqn:Hfl; [|discriminate].
  assert (Hfl' := proj2 Hb _ _ Hfl). rewrite Z2Nat.id in Hfl' by apply Hid.
  destruct fl as [|x fl]; simpl.
  - pose proof (Hrefill allocator class_id (valid_class _ (proj1 Hid) Hlt)) as Hr.
    destruct (BulkAllocate allocator class_id []) as [a' fl']. simpl in Hr.
    destruct fl' as [|res' rest]; [discriminate|].
    intros [= <- <- <-]. apply lists_bounded_insert; [exact Hb|].
    rewrite Z2Nat.id by apply Hid. unfold MaxCached.
    unfold list_size in *. simpl length in Hr. lia.
  - intros [= <- <- <-]. apply lists_bounded_insert; [exact Hb|].
    rewrite Z2Nat.id by apply Hid.
    unfold list_size in *. simpl length in Hfl'. lia.
Qed.

Lemma half_length_le (l : AllocatorFreeList) :
  (Z.to_nat (list_size l / 2) <= length l)%nat.
Proof.
  unfold list_size.
  pose proof (Z.div_le_upper_bound (Z.of_nat (length l)) 2
                (Z.of_nat (length l)) ltac:(lia) ltac:(lia)). lia.
Qed.

(** [DrainHalf] moves the front half of the list, by count, to the
    primary; the nodes arrive in the order they were popped and pushed. *)
Lemma DrainHalf_front (cache : LocalCache) allocator class_id (fl : AllocatorFreeList) :
  cache !! Z.to_nat class_id = Some fl ->
  DrainHalf cache allocator class_id =
    Some (<[Z.to_nat class_id := drop (Z.to_nat (list_size fl / 2)) fl]> cache,
          (BulkDeallocate allocator class_id
             (reverse (take (Z.to_nat (list_size fl / 2)) fl))).1).
Proof.
  intros Hfl. unfold DrainHalf. rewrite Hfl. unfold udiv.
  rewrite DrainHalf_loop_spec by apply half_length_le.
  rewrite app_nil_r.
  destruct (BulkDeallocate allocator class_id _) as [a' l']. reflexivity.
Qed.

(** What [Deallocate] does when the list, with [p] pushed, is full. *)
Lemma Deallocate_full (cache : LocalCache) allocator class_id p (fl : AllocatorFreeList) :
  caps_ok SizeClassMapT -> is_uptr class_id -> class_id < kNumClasses ->
  cache !! Z.to_nat class_id = Some fl ->
  2 * MaxCached class_id <= list_size (p :: fl) ->
  Deallocate cache allocator class_id p =
    Some (<[Z.to_nat class_id := drop (Z.to_nat (list_size (p :: fl) / 2)) (p :: fl)]> cache,
          (BulkDeallocate allocator class_id
             (reverse (take (Z.to_nat (list_size (p :: fl) / 2)) (p :: fl)))).1).
Proof.
  intros Hcaps Hid Hlt Hfl Hfull. unfold Deallocate.
  rewrite (proj2 (Z.ltb_lt _ _) Hlt). cbn [negb].
  rewrite Hfl.
  destruct (class_cap_usable class_id Hcaps) as [Hpos Hmul];
    [unfold is_uptr in Hid; lia|].
  rewrite Hmul. unfold push_front.
  rewrite (Zle_imp_le_bool _ _ Hfull).
  assert (Hin : (Z.to_nat class_id < length cache)%nat)
    by (eapply lookup_lt_Some; exact Hfl).
  rewrite (DrainHalf_front _ allocator class_id (p :: fl))
    by (apply list_lookup_insert_eq; exact Hin).
  rewrite list_insert_insert_eq. reflexivity.
Qed.

Lemma Deallocate_bounded (cache : LocalCache) allocator class_id p cache' allocator' :
  caps_ok SizeClassMapT -> is_uptr class_id ->
  lists_bounded cache ->
  Deallocate cache allocator class_id p = Some (cache', allocator') ->
  lists_bounded cache'.
Proof.
  intros Hcaps Hid Hb HD.
  destruct (Z.ltb_spec class_id kNumClasses) as [Hlt|Hge].
  2:{ revert HD. unfold Deallocate.
      rewrite (proj2 (Z.ltb_ge _ _) Hge). discriminate. }
  destruct (cache !! Z.to_nat class_id) as [fl|] eqn:Hfl.
  2:{ revert HD. unfold Deallocate. rewrite Hfl.
      destruct (negb _); discriminate. }
  assert (Hfl' := proj2 Hb _ _ Hfl). rewrite Z2Nat.id in Hfl' by apply Hid.
  destruct (class_cap_usable class_id Hcaps) as [Hpos Hmul];
    [unfold is_uptr in Hid; lia|].
  assert (Hsz : list_size (p :: fl) = list_size fl + 1)
    by (unfold list_size; simpl length; lia).
  destruct (Z.le_gt_cases (2 * MaxCached class_id) (list_size (p :: fl))) as [Hfull|Hroom].
  - rewrite (Deallocate_full cache allocator class_id p fl) in HD by assumption.
    injection HD as <- <-. apply lists_bounded_insert; [exact Hb|].
    rewrite Z2Nat.id by apply Hid.
    assert (E : list_size (p :: fl) = 2 * MaxCached class_id) by lia.
    rewrite E. rewrite (Z.mul_comm 2), Z.div_mul by lia.
    unfold list_size in *. rewrite length_drop. lia.
  - revert HD. unfold Deallocate.
    rewrite (proj2 (Z.ltb_lt _ _) Hlt). cbn [negb].
    rewrite Hfl, Hmul. unfold push_front.
    rewrite (proj2 (Z.leb_gt _ _) Hroom).
    intros [= <- <-]. apply lists_bounded_insert; [exact Hb|].
    rewrite Z2Nat.id by apply Hid. lia.
Qed.

Lemma Drain_loop_bounded n i (cache : LocalCache) allocator cache' allocator' :
  caps_ok SizeClassMapT ->
  lists_bounded cache ->
  Drain_loop n i cache allocator = Some (cache', allocator') ->
  lists_bounded cache'.
Proof.
  intros Hcaps. revert i cache allocator.
  induction n as [|n IH]; intros i cache allocator Hb HD; simpl in HD.
  - injection HD as <- <-. exact Hb.
  - destruct (cache !! Z.to_nat i) as [fl|] eqn:Hfl; [|discriminate].
    destruct (BulkDeallocate allocator i fl) as [a' fl'].
    destruct fl' as [|]; [simpl in HD|discriminate].
    eapply IH; [|exact HD]. apply lists_bounded_insert; [exact Hb|].
    pose proof (lookup_class _ _ _ Hb Hfl) as Hc.
    destruct (class_cap_usable _ Hcaps Hc) as [Hpos _].
    unfold list_size. simpl. lia.
Qed.

Lemma Drain_bounded (cache : LocalCache) allocator cache' allocator' :
  caps_ok SizeClassMapT ->
  lists_bounded cache ->
  Drain cache allocator = Some (cache', allocator') ->
  lists_bounded cache'.
Proof. unfold Drain. apply Drain_loop_bounded. Qed.

Lemma reachable_bounded st :
  caps_ok SizeClassMapT -> refill_bounded A ->
  reachable st -> lists_bounded st.1.
Proof.
  intros Hcaps Hrefill Hst. induction Hst as [a|o st st' Hst IH Hok Hrun].
  - apply lists_bounded_Init, Hcaps.
  - revert Hok Hrun. destruct o as [c|c p|]; cbn [run operation_ok].
    + intros Hok.
      destruct (Allocate st.1 st.2 c) as [[[cache' a'] res]|] eqn:E; [|discriminate].
      intros [= <-].
      exact (Allocate_bounded _ _ _ _ _ _ Hcaps Hrefill Hok IH E).
    + intros [Hc _] Hrun. destruct st' as [cache' a'].
      eapply Deallocate_bounded; [exact Hcaps|exact Hc|exact IH|exact Hrun].
    + intros _ Hrun. destruct st' as [cache' a'].
      exact (Drain_bounded _ _ _ _ Hcaps IH Hrun).
Qed.

End LocalCacheFacts.

(** The operations complete when their checks pass: a class below
    [kNumClasses] and a primary that keeps its side of the bulk
    transfers. *)
Section LocalCacheProgress.
Context {A : Type} `{SizeClassAllocator A}.
Import SizeClassAllocatorLocalCache.

Lemma Allocate_completes (cache : LocalCache) (allocator : A) class_id :
  refill_delivers A -> is_uptr class_id -> class_id < kNumClasses ->
  length cache = Z.to_nat kNumClasses ->
  exists cache' allocator' res,
    Allocate cache allocator class_id = Some (cache', allocator', res).
Proof.
  intros Hbulk Hid Hlt Hlen. unfold Allocate.
  destruct (Z.ltb_spec class_id kNumClasses) as [_|]; [cbn [negb]|lia].
  destruct (lookup_lt_is_Some_2 cache (Z.to_nat class_id)) as [fl ->].
  { unfold is_uptr in Hid. lia. }
  destruct fl as [|x fl]; simpl; [|eauto].
  pose proof (Hbulk allocator class_id [] (valid_class _ (proj1 Hid) Hlt)) as Hne.
  destruct (BulkAllocate allocator class_id []) as [a' [|res rest]]; simpl in Hne.
  - congruence.
  - eauto.
Qed.

Lemma Deallocate_completes (cache : LocalCache) (allocator : A) class_id p :
  is_uptr class_id -> class_id < kNumClasses ->
  length cache = Z.to_nat kNumClasses ->
  exists cache' allocator',
    Deallocate cache allocator class_id p = Some (cache', allocator').
Proof.
  intros Hid Hlt Hlen. unfold Deallocate.
  destruct (Z.ltb_spec class_id kNumClasses) as [_|]; [cbn [negb]|lia].
  assert (Hin : (Z.to_nat class_id < length cache)%nat)
    by (unfold is_uptr in Hid; lia).
  destruct (lookup_lt_is_Some_2 cache (Z.to_nat class_id) Hin) as [fl ->].
  destruct (_ <=? _); [|eauto].
  unfold DrainHalf. rewrite list_lookup_insert_eq by exact Hin.
  rewrite DrainHalf_loop_spec.
  - destruct (BulkDeallocate _ _ _). eauto.
  - unfold udiv, list_size.
    pose proof (Z.div_le_upper_bound (Z.of_nat (length (push_front p fl))) 2
                  (Z.of_nat (length (push_front p fl))) ltac:(lia) ltac:(lia)). lia.
Qed.

Lemma Drain_loop_completes n i (cache : LocalCache) (allocator : A) :
  drain_takes_all A -> 0 <= i -> i + Z.of_nat n <= kNumClasses ->
  length cache = Z.to_nat kNumClasses ->
  exists cache' allocator', Drain_loop n i cache allocator = Some (cache', allocator').
Proof.
  intros Hbulk. revert i cache allocator.
  induction n as [|n IH]; intros i cache allocator Hi Hin Hlen; simpl.
  - eauto.
  - assert (Hk : is_uptr kNumClasses) by apply wrap_is_uptr.
    destruct (lookup_lt_is_Some_2 cache (Z.to_nat i)) as [fl ->]; [lia|].
    assert (Hik : i < kNumClasses) by lia.
    pose proof (Hbulk allocator i fl (valid_class _ Hi Hik)) as Hd.
    destruct (BulkDeallocate allocator i fl) as [a' fl']. simpl in Hd. subst fl'.
    simpl. unfold uadd. rewrite wrap_small by (unfold is_uptr in *; lia).
    apply IH; [lia|lia|]. rewrite length_insert. exact Hlen.
Qed.

Lemma Drain_completes (cache : LocalCache) (allocator : A) :
  drain_takes_all A -> length cache = Z.to_nat kNumClasses ->
  exists cache' allocator', Drain cache allocator = Some (cache', allocator').
Proof.
  intros Hbulk Hlen. apply Drain_loop_completes; try assumption; try lia.
  assert (Hk : is_uptr kNumClasses) by apply wrap_is_uptr.
  unfold is_uptr in Hk. lia.
Qed.

End LocalCacheProgress.

(** C4. Starting from the zero-initialised cache, after every completed
    [Allocate], [Deallocate] and [Drain] every free list is shorter than
    twice the cap of its class, provided the caps are positive and the
    primary refills an empty list with at most twice the cap; and a
    [Deallocate] whose push brings a list to twice the cap hands the front
    half of that list (half its length, by count) to [BulkDeallocate] and
    keeps the rest. *)
Theorem LocalCache_lists_stay_bounded (A : Type) (H : SizeClassAllocator A) :
  caps_ok SizeClassMapT -> refill_bounded A ->
  (forall st : LocalCache * A,
     SizeClassAllocatorLocalCache.reachable st ->
     SizeClassAllocatorLocalCache.lists_bounded st.1) /\
  (forall (cache : LocalCache) (allocator : A) class_id p (fl : AllocatorFreeList),
     is_uptr class_id ->
     class_id < SizeClassAllocatorLocalCache.kNumClasses ->
     cache !! Z.to_nat class_id = Some fl ->
     2 * SizeClassAllocatorLocalCache.MaxCached class_id <= list_size (p :: fl) ->
     SizeClassAllocatorLocalCache.Deallocate cache allocator class_id p =
       Some (<[Z.to_nat class_id :=
                 drop (Z.to_nat (list_size (p :: fl) / 2)) (p :: fl)]> cache,
             (BulkDeallocate allocator class_id
                (reverse (take (Z.to_nat (list_size (p :: fl) / 2)) (p :: fl)))).1)).
Proof.
  intros Hcaps Hrefill. split.
  - intros st Hst. apply reachable_bounded; assumption.
  - intros cache allocator class_id p fl Hid Hlt Hfl Hfull.
    apply Deallocate_full; assumption.
Qed.

Lemma DefaultSizeClassMap_caps : caps_ok DefaultSizeClassMap.
Proof. unfold caps_ok. simpl. rewrite kWordMod_val. lia. Qed.

Lemma MaxCached_nonneg p c :
  caps_ok p -> 0 <= SplineSizeClassMap.MaxCached p c.
Proof.
  intros [(?&?&?&?&?) _]. unfold SplineSizeClassMap.MaxCached.
  repeat match goal with
  | |- context [?a <=? ?b] => destruct (Z.leb_spec a b)
  end; lia.
Qed.

Lemma length_carve n from size : length (ToyPrimary.carve n from size) = n.
Proof. revert from. induction n as [|n IH]; intros from; simpl; [|rewrite IH]; reflexivity. Qed.

Lemma ToyPrimary_drain_takes_all map batch :
  @drain_takes_all ToyPrimary.t (ToyPrimary.allocator map batch).
Proof. intros a c fl _. reflexivity. Qed.

Lemma ToyPrimary_refill_delivers map batch :
  (forall c, 0 <= c < SplineSizeClassMap.kNumClasses map -> batch c <> O) ->
  @refill_delivers ToyPrimary.t (ToyPrimary.allocator map batch).
Proof.
  intros Hbatch a c fl Hc. simpl. intros E. apply (f_equal length) in E.
  rewrite length_app, length_carve in E. simpl in E.
  specialize (Hbatch c Hc). lia.
Qed.

Lemma ToyPrimary_bulk_contract map batch :
  (forall c, 0 <= c < SplineSizeClassMap.kNumClasses map -> batch c <> O) ->
  @bulk_contract ToyPrimary.t (ToyPrimary.allocator map batch).
Proof.
  intros Hbatch. split; [|split].
  - intros a c fl _. simpl. eauto.
  - apply ToyPrimary_refill_delivers. exact Hbatch.
  - apply ToyPrimary_drain_takes_all.
Qed.

Lemma ToyPrimary_refill_bounded map :
  caps_ok map ->
  @refill_bounded ToyPrimary.t
    (ToyPrimary.allocator map
       (fun c => Z.to_nat (SplineSizeClassMap.MaxCached map c))).
Proof.
  intros Hcaps a c _. simpl. unfold list_size. rewrite length_carve.
  pose proof (MaxCached_nonneg map c Hcaps). lia.
Qed.

Lemma ModestPrimary_refill_delivers : @refill_delivers ToyPrimary.t ModestPrimary.
Proof.
  apply ToyPrimary_refill_delivers. intros c Hc.
  destruct (MaxCached_usable DefaultSizeClassMap c DefaultSizeClassMap_caps Hc)
    as [Hpos _].
  lia.
Qed.

Lemma ModestPrimary_bulk_contract : @bulk_contract ToyPrimary.t ModestPrimary.
Proof.
  split; [|split].
  - intros a c fl _. simpl. eauto.
  - exact ModestPrimary_refill_delivers.
  - apply ToyPrimary_drain_takes_all.
Qed.

Lemma run_all_reachable (A : Type) (H : SizeClassAllocator A) ops :
  forall st st' : LocalCache * A,
  SizeClassAllocatorLocalCache.reachable st ->
  Forall SizeClassAllocatorLocalCache.operation_ok ops ->
  SizeClassAllocatorLocalCache.run_all ops st = Some st' ->
  SizeClassAllocatorLocalCache.reachable st'.
Proof.
  induction ops as [|o ops IH]; intros st st' Hst Hok Hrun; simpl in Hrun.
  - injection Hrun as <-. exact Hst.
  - inversion Hok as [|? ? Ho Hops]; subst.
    destruct (SizeClassAllocatorLocalCache.run o st) as [st1|] eqn:E; [|discriminate].
    eapply IH; [|exact Hops|exact Hrun].
    eapply SizeClassAllocatorLocalCache.reachable_run; eauto.
Qed.

Lemma is_uptr_255 : is_uptr 255.
Proof. unfold is_uptr. rewrite kWordMod_val. lia. Qed.

Lemma LocalCache_lists_stay_bounded_witness :
  caps_ok DefaultSizeClassMap /\
  @refill_bounded ToyPrimary.t ModestPrimary /\
  @bulk_contract ToyPrimary.t ModestPrimary /\
  (exists st,
     @SizeClassAllocatorLocalCache.run_all _ ModestPrimary
       [SizeClassAllocatorLocalCache.OpAllocate 255;
        SizeClassAllocatorLocalCache.OpDeallocate 255 0x700000000000;
        SizeClassAllocatorLocalCache.OpDeallocate 255 0x700000200000;
        SizeClassAllocatorLocalCache.OpDrain]
       (@SizeClassAllocatorLocalCache.Init _ ModestPrimary, ToyPrimary.init)
     = Some st /\
     @SizeClassAllocatorLocalCache.lists_bounded _ ModestPrimary st.1) /\
  @SizeClassAllocatorLocalCache.Deallocate _ ModestPrimary
    (<[255%nat := [0x700000000000]]> (@SizeClassAllocatorLocalCache.Init _ ModestPrimary))
    ToyPrimary.init 255 0x700000200000
  = Some (<[255%nat := [0x700000000000]]> (@SizeClassAllocatorLocalCache.Init _ ModestPrimary),
          (@BulkDeallocate _ ModestPrimary ToyPrimary.init 255 [0x700000200000]).1).
Proof.
  pose proof DefaultSizeClassMap_caps as Hcaps.
  pose proof (ToyPrimary_refill_bounded DefaultSizeClassMap Hcaps) as Hrefill.
  pose proof (LocalCache_lists_stay_bounded ToyPrimary.t ModestPrimary Hcaps Hrefill)
    as [Hinv Hfull].
  split; [exact Hcaps|]. split; [exact Hrefill|].
  split; [exact ModestPrimary_bulk_contract|]. split.
  - eexists. split; [vm_compute; reflexivity|].
    apply Hinv.
    apply (run_all_reachable _ ModestPrimary
             [SizeClassAllocatorLocalCache.OpAllocate 255;
              SizeClassAllocatorLocalCache.OpDeallocate 255 0x700000000000;
              SizeClassAllocatorLocalCache.OpDeallocate 255 0x700000200000;
              SizeClassAllocatorLocalCache.OpDrain]
             (@SizeClassAllocatorLocalCache.Init _ ModestPrimary, ToyPrimary.init));
      [apply SizeClassAllocatorLocalCache.reachable_init|
       |vm_compute; reflexivity].
    pose proof is_uptr_255 as H255.
    assert (Hq : forall x, 0 <= x < 0x800000000000 -> is_uptr x)
      by (intros x Hx; unfold is_uptr; rewrite kWordMod_val; lia).
    apply Forall_cons; split; [exact H255|].
    apply Forall_cons; split; [split; [exact H255|apply Hq; lia]|].
    apply Forall_cons; split; [split; [exact H255|apply Hq; lia]|].
    apply Forall_cons; split; [exact I|]. apply Forall_nil; exact I.
  - rewrite (Hfull _ ToyPrimary.init 255 0x700000200000 [0x700000000000]).
    + vm_compute. reflexivity.
    + apply is_uptr_255.
    + vm_compute. reflexivity.
    + vm_compute. reflexivity.
    + vm_compute. discriminate.
Defined.

(** C4 as stated fails: the primary's contract lets [BulkAllocate] hand
    over any number of chunks.  With a primary that refills with four
    chunks, one [Allocate] of the last class (cap 1) leaves three chunks on
    a list that should stay shorter than two. *)
Lemma LocalCache_refill_overfills :
  caps_ok DefaultSizeClassMap /\
  @bulk_contract ToyPrimary.t GreedyPrimary /\
  exists st : LocalCache * ToyPrimary.t,
    @SizeClassAllocatorLocalCache.reachable _ GreedyPrimary st /\
    (exists fl : AllocatorFreeList, st.1 !! 255%nat = Some fl /\ length fl = 3%nat) /\
    @SizeClassAllocatorLocalCache.MaxCached _ GreedyPrimary 255 = 1 /\
    ~ @SizeClassAllocatorLocalCache.lists_bounded _ GreedyPrimary st.1.
Proof.
  split; [exact DefaultSizeClassMap_caps|].
  split; [apply ToyPrimary_bulk_contract; discriminate|].
  destruct (@SizeClassAllocatorLocalCache.run _ GreedyPrimary
              (SizeClassAllocatorLocalCache.OpAllocate 255)
              (@SizeClassAllocatorLocalCache.Init _ GreedyPrimary, ToyPrimary.init))
    as [st|] eqn:E; [|vm_compute in E; discriminate].
  exists st. split.
  - apply (@SizeClassAllocatorLocalCache.reachable_run _ GreedyPrimary
             (SizeClassAllocatorLocalCache.OpAllocate 255)
             (@SizeClassAllocatorLocalCache.Init _ GreedyPrimary, ToyPrimary.init));
      [apply SizeClassAllocatorLocalCache.reachable_init|apply is_uptr_255|exact E].
  - vm_compute in E. injection E as <-. split; [|split].
    + eexists. split; reflexivity.
    + reflexivity.
    + intros [_ Hb]. specialize (Hb 255%nat _ eq_refl). vm_compute in Hb. discriminate.
Qed.

(** ** Powers of two and masks *)

Lemma pow2_double_le x : pow2 x -> 2 * x <= kWordMod.
Proof.
  intros (k & Hk & ->). unfold kWordMod, kWordBits in *.
  replace (2 * 2 ^ k) with (2 ^ (k + 1)) by (rewrite Z.pow_add_r by lia; lia).
  apply Z.pow_le_mono_r; lia.
Qed.

Lemma pow2_lt_double a b : pow2 a -> pow2 b -> a < b -> 2 * a <= b.
Proof.
  intros (j & Hj & ->) (k & Hk & ->) Hlt.
  assert (j < k) by (apply (Z.pow_lt_mono_r_iff 2); lia).
  replace (2 * 2 ^ j) with (2 ^ (j + 1)) by (rewrite Z.pow_add_r by lia; lia).
  apply Z.pow_le_mono_r; lia.
Qed.

Lemma pow2_le_divide a b : pow2 a -> pow2 b -> a <= b -> (a | b).
Proof.
  intros (j & Hj & ->) (k & Hk & ->) Hle.
  assert (j <= k) by (apply (Z.pow_le_mono_r_iff 2); lia).
  exists (2 ^ (k - j)). rewrite <- Z.pow_add_r by lia. f_equal. lia.
Qed.

Lemma land_le_l a b : 0 <= a -> 0 <= b -> 0 <= Z.land a b <= a.
Proof.
  intros Ha Hb. rewrite <- (Z2N.id a), <- (Z2N.id b) by assumption.
  rewrite <- N2Z.inj_land. split.
  - apply N2Z.is_nonneg.
  - apply N2Z.inj_le, N.land_le_l.
Qed.

Lemma usub_one b : 0 < b -> is_uptr b -> b -% 1 = b - 1.
Proof. intros Hb Hu. apply wrap_small. unfold is_uptr in *. lia. Qed.

(** [x & (b - 1)] is the remainder of [x] by the power of two [b]. *)
Lemma land_mask x b : pow2 b -> x &% (b -% 1) = x mod b.
Proof.
  intros Hb. rewrite usub_one by (auto using pow2_pos, pow2_is_uptr).
  destruct Hb as (k & Hk & ->). unfold uand.
  rewrite <- Z.land_ones by lia. rewrite Z.ones_equiv. reflexivity.
Qed.

Lemma IsPowerOfTwo_pow2 x : pow2 x -> IsPowerOfTwo x = true.
Proof.
  intros Hx. unfold IsPowerOfTwo. rewrite land_mask by exact Hx.
  rewrite Z.mod_same by (pose proof (pow2_pos x Hx); lia). reflexivity.
Qed.

(** [x & ~(b - 1)] clears the remainder of [x] by the power of two [b]. *)
Lemma land_unot_mask x b :
  pow2 b -> is_uptr x -> x &% unot (b -% 1) = x - x mod b.
Proof.
  intros Hb Hx. rewrite usub_one by (auto using pow2_pos, pow2_is_uptr).
  destruct Hb as (k & Hk & ->). unfold uand, unot, wrap, kWordMod.
  rewrite <- (Z.land_ones (Z.lnot (2 ^ k - 1)) kWordBits) by (unfold kWordBits; lia).
  rewrite (Z.land_comm (Z.lnot (2 ^ k - 1))), Z.land_assoc.
  assert (Ex : Z.land x (Z.ones kWordBits) = x).
  { rewrite Z.land_ones by (unfold kWordBits; lia). apply Z.mod_small. exact Hx. }
  rewrite Ex, <- Z.ldiff_land, Z.sub_1_r, <- Z.ones_equiv.
  rewrite Z.ldiff_ones_r by lia.
  rewrite Z.shiftl_mul_pow2, Z.shiftr_div_pow2 by lia.
  pose proof (Z.div_mod x (2 ^ k)) as E.
  assert (0 < 2 ^ k) by (apply Z.pow_pos_nonneg; lia). lia.
Qed.

Lemma RoundUpTo_is_uptr size boundary : is_uptr (RoundUpTo size boundary).
Proof.
  unfold RoundUpTo, uand.
  pose proof (wrap_is_uptr (size +% boundary - 1)) as Hx.
  pose proof (wrap_is_uptr (Z.lnot (boundary -% 1))) as Hy.
  unfold usub at 1. unfold unot. unfold is_uptr in *.
  pose proof (land_le_l _ _ (proj1 Hx) (proj1 Hy)). lia.
Qed.

Lemma RoundUpExact_bounds size b :
  0 < b ->
  size <= LargeMmapAllocator.RoundUpExact size b < size + b /\
  (b | LargeMmapAllocator.RoundUpExact size b).
Proof.
  intros Hb. unfold LargeMmapAllocator.RoundUpExact.
  pose proof (Z.div_mod (size + b - 1) b ltac:(lia)) as E.
  pose proof (Z.mod_pos_bound (size + b - 1) b Hb) as B.
  split; [lia|]. exists ((size + b - 1) / b). reflexivity.
Qed.

(** [RoundUpTo] is the exact rounding, reduced to a word. *)
Lemma RoundUpTo_exact size b :
  pow2 b -> is_uptr size ->
  RoundUpTo size b = wrap (LargeMmapAllocator.RoundUpExact size b).
Proof.
  intros Hb Hs. pose proof (pow2_pos b Hb) as Hb0.
  pose proof (pow2_divides_word b Hb) as Hw.
  assert (HW : 0 < kWordMod) by (rewrite kWordMod_val; lia).
  unfold RoundUpTo. unfold usub at 1, uadd. rewrite wrap_sub_l.
  rewrite land_unot_mask by (exact Hb || apply wrap_is_uptr).
  unfold LargeMmapAllocator.RoundUpExact, wrap.
  set (X := size + b - 1).
  assert (Em : (X mod kWordMod) mod b = X mod b).
  { apply Z.mod_mod_divide. exact Hw. }
  rewrite Em.
  pose proof (Z.div_mod X b ltac:(lia)) as E.
  replace (X / b * b) with (X - X mod b) by lia.
  rewrite <- (Zminus_mod_idemp_l X).
  symmetry. apply Z.mod_small.
  pose proof (Z.mod_pos_bound X kWordMod HW).
  pose proof (Z.mod_pos_bound X b Hb0).
  split; [|lia].
  rewrite <- Em. apply Z.le_0_sub, Z.mod_le; lia.
Qed.

(** ** LargeMmapAllocator *)

Section LargeMmapFacts.
Import LargeMmapAllocator.

Lemma RoundUpMapSize_exact a size :
  pow2 (page_size_ a) -> is_uptr size ->
  RoundUpMapSize a size = wrap (RoundUpExact size (page_size_ a) + page_size_ a).
Proof.
  intros Hp Hs. unfold RoundUpMapSize, uadd.
  rewrite RoundUpTo_exact by assumption. apply wrap_add_l.
Qed.

Lemma MapSize_exact a size alignment :
  pow2 (page_size_ a) -> is_uptr size ->
  MapSize a size alignment = wrap (MapSizeExact a size alignment).
Proof.
  intros Hp Hs. unfold MapSize, MapSizeExact.
  rewrite RoundUpMapSize_exact by assumption.
  destruct (page_size_ a <? alignment).
  - unfold uadd. apply wrap_add_l.
  - rewrite Z.add_0_r. reflexivity.
Qed.

(** The exact mapping size exceeds the request by less than a word, even
    with the header page and the alignment slack. *)
Lemma MapSizeExact_bounds a size alignment :
  pow2 (page_size_ a) -> pow2 alignment -> 0 <= size ->
  size + page_size_ a <= MapSizeExact a size alignment < size + kWordMod.
Proof.
  intros Hp Ha Hs. unfold MapSizeExact.
  pose proof (pow2_pos _ Hp). pose proof (pow2_pos _ Ha).
  destruct (RoundUpExact_bounds size (page_size_ a)) as [HE _]; [lia|].
  pose proof (pow2_double_le _ Hp). pose proof (pow2_double_le _ Ha).
  destruct (Z.ltb_spec (page_size_ a) alignment) as [Hlt|Hge].
  - pose proof (pow2_lt_double _ _ Hp Ha Hlt). lia.
  - lia.
Qed.

Lemma wrap_once x : kWordMod <= x < 2 * kWordMod -> wrap x = x - kWordMod.
Proof.
  intros Hx. unfold wrap.
  replace x with (x - kWordMod + 1 * kWordMod) at 1 by lia.
  rewrite Z_mod_plus_full. apply Z.mod_small. lia.
Qed.

Lemma Allocate_overflow a m size alignment map_beg :
  pow2 (page_size_ a) -> pow2 alignment -> is_uptr size ->
  kWordMod <= MapSizeExact a size alignment ->
  Allocate a m size alignment map_beg = Some (a, m, 0).
Proof.
  intros Hp Ha Hs Hov. unfold Allocate.
  rewrite (IsPowerOfTwo_pow2 _ Ha). cbn [negb].
  rewrite MapSize_exact by assumption.
  pose proof (MapSizeExact_bounds a size alignment Hp Ha (proj1 Hs)) as HB.
  rewrite wrap_once by (unfold is_uptr in Hs; lia).
  destruct (Z.ltb_spec (MapSizeExact a size alignment - kWordMod) size); [reflexivity|lia].
Qed.

(** Aligning a page-aligned address [x] up to [A]. *)
Lemma align_up_facts P A x :
  pow2 P -> pow2 A -> (P | x) ->
  x mod A <> 0 ->
  P < A /\ P <= x mod A < A /\ (A | x + (A - x mod A)) /\ (P | x + (A - x mod A)).
Proof.
  intros HP HA HPx Hr.
  pose proof (pow2_pos _ HP). pose proof (pow2_pos _ HA).
  destruct (Z.le_gt_cases A P) as [Hle|Hlt].
  - exfalso. apply Hr. apply Z.mod_divide; [lia|].
    etransitivity; [apply (pow2_le_divide A P HA HP Hle)|exact HPx].
  - pose proof (pow2_le_divide P A HP HA ltac:(lia)) as HPA.
    pose proof (Z.mod_pos_bound x A ltac:(lia)) as HB.
    pose proof (Z.div_mod x A ltac:(lia)) as E.
    assert (HPr : (P | x mod A)).
    { replace (x mod A) with (x - A * (x / A)) by lia.
      apply Z.divide_sub_r; [exact HPx|]. apply Z.divide_mul_l. exact HPA. }
    assert (HAres : (A | x + (A - x mod A))).
    { exists (x / A + 1). lia. }
    split; [lia|]. split.
    + split; [|lia]. destruct HPr as [q Hq].
      assert (0 < q) by nia. nia.
    + split; [exact HAres|]. etransitivity; [exact HPA|exact HAres].
Qed.

End LargeMmapFacts.

Section LargeMmapAllocate.
Import LargeMmapAllocator.

(** Where the user address lands in a page-aligned mapping of the
    requested length. *)
Lemma AlignedUser_facts a size alignment map_beg :
  pow2 (page_size_ a) -> pow2 alignment -> is_uptr size ->
  0 <= map_beg -> (page_size_ a | map_beg) ->
  map_beg + MapSizeExact a size alignment < kWordMod ->
  let res := AlignedUser a map_beg alignment in
  map_beg + page_size_ a <= res /\
  res + size <= map_beg + MapSizeExact a size alignment /\
  (alignment | res) /\ (page_size_ a | res).
Proof.
  intros Hp Ha Hs Hb Hpb Htop.
  pose proof (pow2_pos _ Hp) as Hp0. pose proof (pow2_pos _ Ha) as Ha0.
  pose proof (MapSizeExact_bounds a size alignment Hp Ha (proj1 Hs)) as HB.
  unfold AlignedUser.
  assert (E0 : map_beg +% page_size_ a = map_beg + page_size_ a).
  { apply wrap_small. unfold is_uptr in *. lia. }
  rewrite E0, land_mask by exact Ha.
  assert (Hp0' : (page_size_ a | map_beg + page_size_ a)).
  { apply Z.divide_add_r; [exact Hpb|apply Z.divide_refl]. }
  destruct (Z.eqb_spec ((map_beg + page_size_ a) mod alignment) 0) as [Hr|Hr].
  - cbv zeta. split; [lia|]. split; [lia|]. split; [|exact Hp0'].
    apply Z.mod_divide; [lia|exact Hr].
  - destruct (align_up_facts _ _ _ Hp Ha Hp0' Hr) as (Hlt & Hrb & HA & HP).
    assert (E1 : alignment -% (map_beg + page_size_ a) mod alignment
                 = alignment - (map_beg + page_size_ a) mod alignment).
    { apply wrap_small. pose proof (pow2_is_uptr _ Ha). unfold is_uptr in *. lia. }
    assert (HT : MapSizeExact a size alignment
                 = RoundUpExact size (page_size_ a) + page_size_ a + alignment).
    { unfold MapSizeExact. rewrite (proj2 (Z.ltb_lt _ _) Hlt). reflexivity. }
    destruct (RoundUpExact_bounds size (page_size_ a) Hp0) as [HE _].
    rewrite E1.
    assert (E2 : (map_beg + page_size_ a)
                   +% (alignment - (map_beg + page_size_ a) mod alignment)
                 = map_beg + page_size_ a
                   + (alignment - (map_beg + page_size_ a) mod alignment)).
    { apply wrap_small. unfold is_uptr in *. lia. }
    rewrite E2. cbv zeta. split; [lia|]. split; [lia|]. split; assumption.
Qed.

(** Splicing a header at the head of the live list. *)
Lemma link_head (hs : gmap Z Header.t) (h : uptr) hdr (l : uptr) :
  (l = 0 \/ is_Some (hs !! l)) ->
  exists hs',
    (if l =? 0 then Some (<[h:=hdr]> hs)
     else match <[h:=hdr]> hs !! l with
          | Some first => Some (<[l := Header.set_prev first h]> (<[h:=hdr]> hs))
          | None => None
          end) = Some hs' /\
    exists hdr', hs' !! h = Some hdr' /\
      Header.size hdr' = Header.size hdr /\
      Header.map_beg hdr' = Header.map_beg hdr /\
      Header.map_size hdr' = Header.map_size hdr /\
      Header.next hdr' = Header.next hdr.
Proof.
  intros Hl. destruct (Z.eqb_spec l 0) as [E0|N0].
  - eexists. split; [reflexivity|]. exists hdr.
    split; [apply lookup_insert_eq|]. auto.
  - destruct (decide (h = l)) as [Eh|Nh].
    + rewrite <- Eh. rewrite lookup_insert_eq.
      eexists. split; [reflexivity|]. eexists.
      split; [apply lookup_insert_eq|]. auto.
    + rewrite lookup_insert_ne by exact Nh.
      destruct Hl as [?|[first Hfirst]]; [contradiction|]. rewrite Hfirst.
      eexists. split; [reflexivity|]. exists hdr.
      split; [|auto]. rewrite lookup_insert_ne by congruence.
      apply lookup_insert_eq.
Qed.

(** [Allocate] on a request whose mapping size does not overflow, in a
    page-aligned mapping of that size. *)
Lemma Allocate_succeeds a m size alignment map_beg :
  pow2 (page_size_ a) -> pow2 alignment -> is_uptr size ->
  MapSizeExact a size alignment < kWordMod ->
  0 <= map_beg -> (page_size_ a | map_beg) ->
  map_beg + MapSizeExact a size alignment < kWordMod ->
  (list_ a = 0 \/ is_Some (headers m !! list_ a)) ->
  let res := AlignedUser a map_beg alignment in
  MapSize a size alignment = MapSizeExact a size alignment /\
  (0 =? res &% (alignment -% 1)) = true /\
  (res +% size <=? map_beg +% MapSize a size alignment) = true /\
  GetHeader a res = Some (res - page_size_ a) /\
  exists m',
    Allocate a m size alignment map_beg
      = Some ({| page_size_ := page_size_ a; list_ := res - page_size_ a |}, m', res) /\
    mappings m' = (map_beg, MapSizeExact a size alignment) :: mappings m /\
    bytes m' = bytes m /\
    exists hdr, headers m' !! (res - page_size_ a) = Some hdr /\
      Header.size hdr = size /\ Header.map_beg hdr = map_beg /\
      Header.map_size hdr = MapSizeExact a size alignment.
Proof.
  intros Hp Ha Hs Hno Hb Hpb Htop Hlist res.
  pose proof (pow2_pos _ Hp) as Hp0. pose proof (pow2_pos _ Ha) as Ha0.
  pose proof (MapSizeExact_bounds a size alignment Hp Ha (proj1 Hs)) as HB.
  destruct (AlignedUser_facts a size alignment map_beg Hp Ha Hs Hb Hpb Htop)
    as (Hlo & Hhi & HA & HP). fold res in Hlo, Hhi, HA, HP.
  assert (EM : MapSize a size alignment = MapSizeExact a size alignment).
  { rewrite MapSize_exact by assumption. apply wrap_small. unfold is_uptr in *. lia. }
  assert (C1 : (0 =? res &% (alignment -% 1)) = true).
  { rewrite land_mask by exact Ha.
    rewrite (proj2 (Z.mod_divide res alignment ltac:(lia)) HA). reflexivity. }
  assert (C2 : (res +% size <=? map_beg +% MapSize a size alignment) = true).
  { rewrite EM. unfold uadd.
    rewrite !wrap_small by (unfold is_uptr in *; lia). apply Z.leb_le. lia. }
  assert (C3 : GetHeader a res = Some (res - page_size_ a)).
  { unfold GetHeader, urem.
    rewrite (proj2 (Z.mod_divide res (page_size_ a) ltac:(lia)) HP).
    simpl. f_equal. apply wrap_small. unfold is_uptr in *. lia. }
  split; [exact EM|]. split; [exact C1|]. split; [exact C2|]. split; [exact C3|].
  unfold Allocate. rewrite (IsPowerOfTwo_pow2 _ Ha). cbn [negb].
  destruct (Z.ltb_spec (MapSize a size alignment) size) as [Hlt|_]; [lia|].
  fold res. rewrite C1, C2, C3. cbn [negb]. rewrite EM.
  match goal with
  | |- context [is_mapped ?l ?h] => assert (C4 : is_mapped l h = true)
  end.
  { unfold is_mapped. cbn [existsb fst snd].
    rewrite (proj2 (Z.leb_le map_beg (res - page_size_ a))) by lia.
    rewrite (proj2 (Z.ltb_lt (res - page_size_ a) (map_beg + MapSizeExact a size alignment)))
      by (unfold is_uptr in Hs; lia).
    reflexivity. }
  rewrite C4. cbn [negb].
  match goal with
  | |- context [<[?h := ?hdr]> (headers m)] =>
      destruct (link_head (headers m) h hdr (list_ a) Hlist)
        as (hs & E & hdr' & Hl & Hsz & Hmb & Hms & _)
  end.
  rewrite E.
  eexists. split; [reflexivity|]. cbn [mappings bytes headers].
  split; [reflexivity|]. split; [reflexivity|]. exists hdr'. auto.
Qed.

End LargeMmapAllocate.

(** C6. When the size of the mapping, the page-rounded request plus the
    header page plus the alignment if it exceeds the page size, does not
    fit a machine word, [Allocate] returns null and leaves the allocator,
    the headers, the bytes and the set of mappings as they were. *)
Theorem LargeMmap_Allocate_overflow_null a m size alignment map_beg :
  pow2 (LargeMmapAllocator.page_size_ a) -> pow2 alignment -> is_uptr size ->
  kWordMod <= LargeMmapAllocator.MapSizeExact a size alignment ->
  LargeMmapAllocator.Allocate a m size alignment map_beg = Some (a, m, 0).
Proof. apply Allocate_overflow. Qed.

Lemma pow2_4096 : pow2 4096.
Proof. exists 12. split; [unfold kWordBits; lia|reflexivity]. Qed.

Lemma pow2_8 : pow2 8.
Proof. exists 3. split; [unfold kWordBits; lia|reflexivity]. Qed.

Lemma pow2_8192 : pow2 8192.
Proof. exists 13. split; [unfold kWordBits; lia|reflexivity]. Qed.

Lemma LargeMmap_Allocate_overflow_null_witness :
  LargeMmapAllocator.Allocate (LargeMmapAllocator.Init 4096) empty_memory
    (kWordMod - 4096) 8 0x10000
  = Some (LargeMmapAllocator.Init 4096, empty_memory, 0).
Proof.
  apply (LargeMmap_Allocate_overflow_null (LargeMmapAllocator.Init 4096)
           empty_memory (kWordMod - 4096) 8 0x10000).
  - exact pow2_4096.
  - exact pow2_8.
  - unfold is_uptr. rewrite kWordMod_val. lia.
  - vm_compute. discriminate.
Defined.

Lemma uadd_usub_cancel x y : is_uptr x -> (x +% y) -% y = x.
Proof.
  intros Hx. unfold usub, uadd. rewrite wrap_sub_l.
  replace (x + y - y) with x by lia. apply wrap_small, Hx.
Qed.

(** C7. A pointer returned by a successful [Allocate] of [size] bytes has
    the actually allocated size [RoundUpTo size page_size_], whatever the
    alignment was. *)
Theorem LargeMmap_GetActuallyAllocatedSize_rounds a m size alignment map_beg a' m' p :
  LargeMmapAllocator.Allocate a m size alignment map_beg = Some (a', m', p) ->
  p <> 0 ->
  LargeMmapAllocator.GetActuallyAllocatedSize a' m' p
    = Some (RoundUpTo size (LargeMmapAllocator.page_size_ a)).
Proof.
  unfold LargeMmapAllocator.Allocate. intros HA Hp.
  destruct (negb (IsPowerOfTwo alignment)); [discriminate|].
  destruct (_ <? size).
  { injection HA as _ _ <-. contradiction. }
  destruct (negb (0 =? _)); [discriminate|].
  destruct (negb (_ <=? _)); [discriminate|].
  destruct (LargeMmapAllocator.GetHeader a _) as [h|] eqn:Hh; [|discriminate].
  destruct (negb (is_mapped _ h)); [discriminate|].
  set (hdr := {| Header.map_beg := map_beg |}) in HA.
  assert (Hfin : forall hs, (exists hdr', hs !! h = Some hdr' /\ Header.size hdr' = size) ->
    Some ({| LargeMmapAllocator.page_size_ := LargeMmapAllocator.page_size_ a;
             LargeMmapAllocator.list_ := h |},
          {| headers := hs; bytes := bytes m;
             mappings := (map_beg, LargeMmapAllocator.MapSize a size alignment) :: mappings m |},
          LargeMmapAllocator.AlignedUser a map_beg alignment) = Some (a', m', p) ->
    LargeMmapAllocator.GetActuallyAllocatedSize a' m' p
      = Some (RoundUpTo size (LargeMmapAllocator.page_size_ a))).
  { intros hs (hdr' & Hl & Hsz) [= <- <- <-].
    unfold LargeMmapAllocator.GetActuallyAllocatedSize.
    unfold LargeMmapAllocator.GetHeader in *. simpl.
    destruct (_ =? 0); [|discriminate]. injection Hh as <-.
    rewrite Hl, Hsz. unfold LargeMmapAllocator.RoundUpMapSize. simpl.
    rewrite uadd_usub_cancel by apply RoundUpTo_is_uptr. reflexivity. }
  destruct (LargeMmapAllocator.list_ a =? 0).
  - apply Hfin in HA; [exact HA|]. exists hdr. split; [apply lookup_insert_eq|reflexivity].
  - destruct (<[h:=hdr]> (headers m) !! LargeMmapAllocator.list_ a) as [first|] eqn:Hf;
      [|discriminate].
    apply Hfin in HA; [exact HA|].
    destruct (decide (LargeMmapAllocator.list_ a = h)) as [E|N].
    + rewrite E in *. rewrite lookup_insert_eq in Hf. injection Hf as <-.
      eexists. split; [apply lookup_insert_eq|reflexivity].
    + exists hdr. split; [|reflexivity].
      rewrite lookup_insert_ne by exact N. apply lookup_insert_eq.
Qed.

Lemma LargeMmap_GetActuallyAllocatedSize_rounds_witness :
  exists a' m' p,
    LargeMmapAllocator.Allocate (LargeMmapAllocator.Init 4096) empty_memory
      5000 16384 0x10000 = Some (a', m', p) /\
    p <> 0 /\
    LargeMmapAllocator.GetActuallyAllocatedSize a' m' p = Some 8192.
Proof.
  destruct (LargeMmapAllocator.Allocate (LargeMmapAllocator.Init 4096) empty_memory
              5000 16384 0x10000) as [[[a' m'] p]|] eqn:E;
    [|vm_compute in E; discriminate].
  exists a', m', p. split; [reflexivity|].
  assert (Hp : p <> 0) by (vm_compute in E; injection E as _ _ <-; discriminate).
  split; [exact Hp|].
  exact (LargeMmap_GetActuallyAllocatedSize_rounds _ _ _ _ _ _ _ _ E Hp).
Defined.

(** C8. For a power-of-two alignment and a size whose mapping size does
    not overflow, in a page-aligned mapping of the requested length that
    the operating system placed inside the address space, [Allocate]
    passes its checks and returns: the user address is a multiple of the
    alignment and of the page size, the user region ends within the
    mapping, and the header page, one page below the user address, starts
    at or after [map_beg]. *)
Theorem LargeMmap_Allocate_checks_hold a m size alignment map_beg :
  pow2 (LargeMmapAllocator.page_size_ a) -> pow2 alignment -> is_uptr size ->
  LargeMmapAllocator.MapSizeExact a size alignment < kWordMod ->
  0 <= map_beg -> map_beg mod LargeMmapAllocator.page_size_ a = 0 ->
  map_beg + LargeMmapAllocator.MapSize a size alignment < kWordMod ->
  (LargeMmapAllocator.list_ a = 0
   \/ is_Some (headers m !! LargeMmapAllocator.list_ a)) ->
  exists a' m' res,
    LargeMmapAllocator.Allocate a m size alignment map_beg = Some (a', m', res) /\
    (0 =? res &% (alignment -% 1)) = true /\
    (res +% size <=? map_beg +% LargeMmapAllocator.MapSize a size alignment) = true /\
    LargeMmapAllocator.GetHeader a res = Some (res - LargeMmapAllocator.page_size_ a) /\
    LargeMmapAllocator.list_ a' = res - LargeMmapAllocator.page_size_ a /\
    res mod alignment = 0 /\
    res mod LargeMmapAllocator.page_size_ a = 0 /\
    res + size <= map_beg + LargeMmapAllocator.MapSize a size alignment /\
    map_beg <= res - LargeMmapAllocator.page_size_ a /\
    res <= map_beg + LargeMmapAllocator.MapSize a size alignment.
Proof.
  intros Hp Ha Hs Hno Hb Hpb Htop Hlist.
  pose proof (pow2_pos _ Hp) as Hp0. pose proof (pow2_pos _ Ha) as Ha0.
  assert (EM : LargeMmapAllocator.MapSize a size alignment
               = LargeMmapAllocator.MapSizeExact a size alignment).
  { rewrite MapSize_exact by assumption. apply wrap_small.
    pose proof (MapSizeExact_bounds a size alignment Hp Ha (proj1 Hs)).
    unfold is_uptr in *. lia. }
  rewrite EM in *.
  assert (Hpb' : (LargeMmapAllocator.page_size_ a | map_beg))
    by (apply Z.mod_divide; [lia|exact Hpb]).
  destruct (Allocate_succeeds a m size alignment map_beg Hp Ha Hs Hno Hb Hpb' Htop Hlist)
    as (_ & C1 & C2 & C3 & m' & HA & _).
  destruct (AlignedUser_facts a size alignment map_beg Hp Ha Hs Hb Hpb' Htop)
    as (Hlo & Hhi & HdA & HdP).
  rewrite EM in C2.
  eexists _, m', _. split; [exact HA|].
  split; [exact C1|]. split; [exact C2|]. split; [exact C3|].
  split; [reflexivity|].
  split; [apply Z.mod_divide; [lia|exact HdA]|].
  split; [apply Z.mod_divide; [lia|exact HdP]|].
  unfold is_uptr in Hs. lia.
Qed.

Lemma LargeMmap_Allocate_checks_hold_witness :
  exists a' m' res,
    LargeMmapAllocator.Allocate (LargeMmapAllocator.Init 4096) empty_memory
      5000 16384 0x11000 = Some (a', m', res) /\
    (0 =? res &% (16384 -% 1)) = true /\
    (res +% 5000 <=? 0x11000 +% LargeMmapAllocator.MapSize
                                  (LargeMmapAllocator.Init 4096) 5000 16384) = true /\
    LargeMmapAllocator.GetHeader (LargeMmapAllocator.Init 4096) res = Some (res - 4096) /\
    LargeMmapAllocator.list_ a' = res - 4096 /\
    res mod 16384 = 0 /\
    res mod 4096 = 0 /\
    res + 5000 <= 0x11000 + LargeMmapAllocator.MapSize
                              (LargeMmapAllocator.Init 4096) 5000 16384 /\
    0x11000 <= res - 4096 /\
    res <= 0x11000 + LargeMmapAllocator.MapSize (LargeMmapAllocator.Init 4096) 5000 16384.
Proof.
  apply (LargeMmap_Allocate_checks_hold (LargeMmapAllocator.Init 4096) empty_memory
           5000 16384 0x11000).
  - exact pow2_4096.
  - exists 14. split; [unfold kWordBits; lia|reflexivity].
  - unfold is_uptr. rewrite kWordMod_val. lia.
  - vm_compute. reflexivity.
  - lia.
  - reflexivity.
  - vm_compute. reflexivity.
  - left. reflexivity.
Defined.

(** ** LargeMmapAllocator: walks of the live list *)

Section LiveList.
Import LargeMmapAllocator.

Lemma live_list_unique (hs : gmap Z Header.t) chain1 :
  forall l chain2,
  live_list hs l chain1 -> live_list hs l chain2 -> chain1 = chain2.
Proof.
  induction chain1 as [|[h1 hdr1] rest1 IH]; intros l [|[h2 hdr2] rest2]; simpl.
  - reflexivity.
  - intros -> (E & N & _). congruence.
  - intros (E & N & _) ->. congruence.
  - intros (-> & _ & L1 & R1) (E & _ & L2 & R2). subst h2.
    rewrite L1 in L2. injection L2 as <-.
    f_equal. eapply IH; eassumption.
Qed.

Lemma live_list_suffix (hs : gmap Z Header.t) front :
  forall l h hdr back,
  live_list hs l (front ++ (h, hdr) :: back) ->
  live_list hs h ((h, hdr) :: back).
Proof.
  induction front as [|[h1 hdr1] front IH]; intros l h hdr back; simpl.
  - intros (-> & N & L & R). auto.
  - intros (_ & _ & _ & R). eapply IH. exact R.
Qed.

(** No header is met twice on the way to null. *)
Lemma live_list_NoDup (hs : gmap Z Header.t) chain :
  forall l, live_list hs l chain -> NoDup chain.*1.
Proof.
  induction chain as [|[h hdr] rest IH]; intros l Hl; simpl.
  - constructor.
  - pose proof Hl as (-> & N & L & R). constructor; [|eapply IH; exact R].
    intros Hin. apply list_elem_of_fmap in Hin as ([h' hdr'] & E & Hin).
    simpl in E. subst h'.
    apply list_elem_of_split in Hin as (front & back & Erest).
    assert (Hs : live_list hs h ((h, hdr') :: back)).
    { eapply (live_list_suffix hs front). rewrite <- Erest. exact R. }
    pose proof (live_list_unique hs _ _ _ Hl Hs) as Eq.
    apply (f_equal length) in Eq. rewrite Erest in Eq.
    simpl in Eq. rewrite length_app in Eq. simpl in Eq. lia.
Qed.

Lemma live_list_dom (hs : gmap Z Header.t) chain :
  forall l, live_list hs l chain -> forall h, h ∈ chain.*1 -> h ∈ dom hs.
Proof.
  induction chain as [|[h hdr] rest IH]; intros l Hl h' Hin; simpl in *.
  - apply elem_of_nil in Hin. contradiction.
  - destruct Hl as (-> & N & L & R).
    apply elem_of_cons in Hin as [->|Hin].
    + apply elem_of_dom. eauto.
    + eapply IH; eassumption.
Qed.

(** A live list is no longer than the number of headers, so the walks have
    fuel to reach its end. *)
Lemma live_list_length (hs : gmap Z Header.t) l chain :
  live_list hs l chain -> (length chain <= size hs)%nat.
Proof.
  intros Hl.
  rewrite <- (length_fmap fst chain).
  rewrite <- (size_list_to_set (C := gset Z) chain.*1)
    by (eapply live_list_NoDup; exact Hl).
  rewrite <- (size_dom hs).
  apply subseteq_size. intros h Hin.
  apply elem_of_list_to_set in Hin. eapply live_list_dom; eassumption.
Qed.

Lemma TotalMemoryUsed_loop_spec a m chain :
  forall fuel l res,
  live_list (headers m) l chain -> (length chain <= fuel)%nat ->
  TotalMemoryUsed_loop fuel a m l res
    = Some (fold_left (fun res e => res +% RoundUpMapSize a (Header.size e.2))
              chain res).
Proof.
  induction chain as [|[h hdr] rest IH]; intros fuel l res Hl Hfuel.
  - simpl in Hl. subst l. destruct fuel; reflexivity.
  - destruct Hl as (-> & N & L & R). simpl in Hfuel.
    destruct fuel as [|fuel]; [lia|]. simpl.
    rewrite (proj2 (Z.eqb_neq h 0) N), L.
    apply IH; [exact R|lia].
Qed.

Lemma fold_map_sizes_wrap a (chain : list (uptr * Header.t)) :
  forall res,
  fold_left (fun res e => res +% RoundUpMapSize a (Header.size e.2)) chain (wrap res)
  = wrap (res + foldr (fun e acc => RoundUpTo (Header.size e.2) (page_size_ a)
                                    + page_size_ a + acc) 0 chain).
Proof.
  induction chain as [|[h hdr] rest IH]; intros res; simpl.
  - rewrite Z.add_0_r. reflexivity.
  - assert (E : wrap res +% RoundUpMapSize a (Header.size hdr)
                 = wrap (res + (RoundUpTo (Header.size hdr) (page_size_ a)
                                + page_size_ a))).
    { unfold RoundUpMapSize, uadd. rewrite wrap_add_l. unfold wrap.
      apply Zplus_mod_idemp_r. }
    rewrite E, IH. f_equal. lia.
Qed.

End LiveList.

(** C1 (as amended). [TotalMemoryUsed] returns, for the live list, the
    sum over its headers of [RoundUpMapSize] of the user size, that is of
    the page-rounded user size plus the header page, in machine
    arithmetic; the alignment slack of a mapping is not counted. *)
Theorem LargeMmap_TotalMemoryUsed_sum a m chain :
  LargeMmapAllocator.live_list (headers m) (LargeMmapAllocator.list_ a) chain ->
  LargeMmapAllocator.TotalMemoryUsed a m
    = Some (LargeMmapAllocator.SumMapSizes a chain) /\
  LargeMmapAllocator.SumMapSizes a chain
    = wrap (foldr (fun e acc =>
                     RoundUpTo (Header.size e.2) (LargeMmapAllocator.page_size_ a)
                     + LargeMmapAllocator.page_size_ a + acc) 0 chain).
Proof.
  intros Hl. split.
  - unfold LargeMmapAllocator.TotalMemoryUsed, LargeMmapAllocator.SumMapSizes.
    apply TotalMemoryUsed_loop_spec; [exact Hl|].
    unfold LargeMmapAllocator.walk_fuel.
    pose proof (live_list_length _ _ _ Hl). lia.
  - unfold LargeMmapAllocator.SumMapSizes.
    change 0 with (wrap 0) at 1. rewrite fold_map_sizes_wrap. reflexivity.
Qed.

Lemma LargeMmap_TotalMemoryUsed_sum_witness :
  exists a m p chain,
    LargeMmapAllocator.Allocate (LargeMmapAllocator.Init 4096) empty_memory
      1 8 0x10000 = Some (a, m, p) /\
    LargeMmapAllocator.live_list (headers m) (LargeMmapAllocator.list_ a) chain /\
    LargeMmapAllocator.TotalMemoryUsed a m = Some 8192.
Proof.
  destruct (LargeMmapAllocator.Allocate (LargeMmapAllocator.Init 4096) empty_memory
              1 8 0x10000) as [[[a m] p]|] eqn:E;
    [|vm_compute in E; discriminate].
  exists a, m, p, [(0x10000, Header.Build_t 0x10000 8192 1 0 0)].
  split; [reflexivity|].
  assert (Hl : LargeMmapAllocator.live_list (headers m) (LargeMmapAllocator.list_ a)
                 [(0x10000, Header.Build_t 0x10000 8192 1 0 0)]).
  { vm_compute in E. injection E as <- <- <-.
    simpl. split; [reflexivity|]. split; [discriminate|].
    split; [vm_compute; reflexivity|reflexivity]. }
  split; [exact Hl|].
  destruct (LargeMmap_TotalMemoryUsed_sum a m _ Hl) as [HT HS].
  rewrite HT, HS. vm_compute in E. injection E as <- <- <-. reflexivity.
Defined.

(** C1 as stated fails: the walk adds [RoundUpMapSize], which counts the
    header page of every mapping.  After one allocation of one byte with
    4096-byte pages, [TotalMemoryUsed] is 8192, not the 4096 of the rounded
    user size. *)
Lemma LargeMmap_TotalMemoryUsed_counts_header_page :
  exists a m p chain,
    LargeMmapAllocator.Allocate (LargeMmapAllocator.Init 4096) empty_memory
      1 8 0x10000 = Some (a, m, p) /\
    LargeMmapAllocator.live_list (headers m) (LargeMmapAllocator.list_ a) chain /\
    LargeMmapAllocator.TotalMemoryUsed a m = Some 8192 /\
    LargeMmapAllocator.SumRoundedUserSizes a chain = 4096 /\
    LargeMmapAllocator.TotalMemoryUsed a m
      <> Some (LargeMmapAllocator.SumRoundedUserSizes a chain).
Proof.
  destruct (LargeMmapAllocator.Allocate (LargeMmapAllocator.Init 4096) empty_memory
              1 8 0x10000) as [[[a m] p]|] eqn:E;
    [|vm_compute in E; discriminate].
  exists a, m, p, [(0x10000, Header.Build_t 0x10000 8192 1 0 0)].
  split; [reflexivity|].
  vm_compute in E. injection E as <- <- <-.
  split.
  { simpl. split; [reflexivity|]. split; [discriminate|].
    split; [vm_compute; reflexivity|reflexivity]. }
  split; [vm_compute; reflexivity|].
  split; [vm_compute; reflexivity|].
  vm_compute. discriminate.
Qed.

(** ** Copying and clearing bytes *)

Lemma load_insert_eq (m : gmap Z Byte.byte) a c : load_byte (<[a := c]> m) a = c.
Proof. unfold load_byte. rewrite lookup_insert_eq. reflexivity. Qed.

Lemma load_insert_ne (m : gmap Z Byte.byte) a b c :
  a <> b -> load_byte (<[a := c]> m) b = load_byte m b.
Proof. intros N. unfold load_byte. rewrite lookup_insert_ne by exact N. reflexivity. Qed.

(** The copy loop between two regions of [N] bytes that do not overlap. *)
Lemma internal_memcpy_loop_spec dst src N n :
  forall i m,
  0 <= dst -> 0 <= src -> N < kWordMod ->
  dst + N <= kWordMod -> src + N <= kWordMod ->
  (dst + N <= src \/ src + N <= dst) ->
  0 <= i -> i + Z.of_nat n = N ->
  (forall j, i <= j < N ->
     load_byte (internal_memcpy_loop n i dst src m) (dst + j) = load_byte m (src + j)) /\
  (forall q, ~ (dst + i <= q < dst + N) ->
     load_byte (internal_memcpy_loop n i dst src m) q = load_byte m q).
Proof.
  induction n as [|n IH]; intros i m Hd Hs HN HdN HsN Hdis Hi HiN.
  - simpl. split; [intros j Hj; lia|reflexivity].
  - cbn [internal_memcpy_loop].
    assert (Ei : i +% 1 = i + 1) by (apply wrap_small; unfold is_uptr; lia).
    assert (Ed : dst +% i = dst + i) by (apply wrap_small; unfold is_uptr; lia).
    assert (Es : src +% i = src + i) by (apply wrap_small; unfold is_uptr; lia).
    rewrite Ei, Ed, Es.
    destruct (IH (i + 1) (<[dst + i := load_byte m (src + i)]> m))
      as [Hin Hout]; try assumption; try lia.
    split.
    + intros j Hj. destruct (Z.eq_dec j i) as [->|Nj].
      * rewrite Hout by lia. apply load_insert_eq.
      * rewrite Hin by lia. apply load_insert_ne. lia.
    + intros q Hq. rewrite Hout by lia. apply load_insert_ne. lia.
Qed.

Lemma internal_memcpy_spec m dst src n :
  0 <= dst -> 0 <= src -> is_uptr n ->
  dst + n <= kWordMod -> src + n <= kWordMod ->
  (dst + n <= src \/ src + n <= dst) ->
  (forall j, 0 <= j < n ->
     load_byte (internal_memcpy m dst src n) (dst + j) = load_byte m (src + j)) /\
  (forall q, ~ (dst <= q < dst + n) ->
     load_byte (internal_memcpy m dst src n) q = load_byte m q).
Proof.
  intros Hd Hs [Hn0 Hn] HdN HsN Hdis. unfold internal_memcpy.
  destruct (internal_memcpy_loop_spec dst src n (Z.to_nat n) 0 m) as [Hin Hout];
    try assumption; try lia.
  split; [exact Hin|]. intros q Hq. apply Hout. lia.
Qed.

Lemma Min_min a b : Min a b = Z.min b a.
Proof. unfold Min. destruct (Z.ltb_spec a b); lia. Qed.

(** ** CombinedAllocator *)

Lemma LargeMmap_Deallocate_bytes a m p a' m' :
  LargeMmapAllocator.Deallocate a m p = Some (a', m') -> bytes m' = bytes m.
Proof.
  unfold LargeMmapAllocator.Deallocate.
  repeat match goal with
  | |- context [match ?x with _ => _ end] => destruct x; try discriminate
  end; intros [= <- <-]; reflexivity.
Qed.

Section CombinedFacts.
Context {A : Type} `{SizeClassAllocator A}.

Lemma Allocate_zero (s : CombinedAllocator.State) alignment cleared map_beg :
  CombinedAllocator.Allocate s 0 alignment cleared map_beg = CombinedAllocator.Allocate s 1 alignment cleared map_beg.
Proof. reflexivity. Qed.

Lemma Allocate_wraps (s : CombinedAllocator.State) size alignment cleared map_beg :
  size +% alignment < size ->
  CombinedAllocator.Allocate s size alignment cleared map_beg = Some (s, 0).
Proof.
  intros Hw. unfold CombinedAllocator.Allocate.
  destruct (Z.eqb_spec size 0) as [->|N].
  - pose proof (wrap_is_uptr (0 + alignment)) as [H0 _].
    unfold uadd in Hw. lia.
  - rewrite (proj2 (Z.ltb_lt _ _) Hw). reflexivity.
Qed.

Lemma Reallocate_null (s : CombinedAllocator.State) new_size alignment map_beg :
  CombinedAllocator.Reallocate s 0 new_size alignment map_beg
    = CombinedAllocator.Allocate s new_size alignment false map_beg.
Proof. reflexivity. Qed.

Lemma Reallocate_zero_size (s : CombinedAllocator.State) p alignment map_beg :
  p <> 0 ->
  CombinedAllocator.Reallocate s p 0 alignment map_beg
    = match CombinedAllocator.Deallocate s p with Some s' => Some (s', 0) | None => None end.
Proof.
  intros Hp. unfold CombinedAllocator.Reallocate. rewrite (proj2 (Z.eqb_neq p 0) Hp). reflexivity.
Qed.

Lemma Reallocate_moves (s s1 : CombinedAllocator.State) p new_size alignment map_beg old_size new_p :
  p <> 0 -> new_size <> 0 ->
  CombinedAllocator.PointerIsMine s p = Some true ->
  CombinedAllocator.GetActuallyAllocatedSize s p = Some old_size ->
  CombinedAllocator.Allocate s new_size alignment false map_beg = Some (s1, new_p) ->
  CombinedAllocator.Reallocate s p new_size alignment map_beg
    = match CombinedAllocator.Deallocate
              (if new_p =? 0 then s1
               else CombinedAllocator.set_bytes s1
                      (internal_memcpy (bytes (CombinedAllocator.memory_ s1)) new_p p
                         (Z.min old_size new_size))) p with
      | Some s' => Some (s', new_p)
      | None => None
      end.
Proof.
  intros Hp Hn Hmine Hold Halloc. unfold CombinedAllocator.Reallocate.
  rewrite (proj2 (Z.eqb_neq p 0) Hp), (proj2 (Z.eqb_neq new_size 0) Hn).
  rewrite Hmine, Hold, Halloc, Min_min. reflexivity.
Qed.

End CombinedFacts.

(** C5. [Allocate] treats a request of zero bytes as a request of one
    byte, and when [size + alignment] wraps around the machine word it
    returns null with the allocator, the cache and the memory unchanged:
    neither backend has been called. *)
Theorem Combined_Allocate_zero_and_wrap (A : Type) (H : SizeClassAllocator A) :
  (forall (s : CombinedAllocator.State) alignment cleared map_beg,
     CombinedAllocator.Allocate s 0 alignment cleared map_beg
       = CombinedAllocator.Allocate s 1 alignment cleared map_beg) /\
  (forall (s : CombinedAllocator.State) size alignment cleared map_beg,
     size +% alignment < size ->
     CombinedAllocator.Allocate s size alignment cleared map_beg = Some (s, 0)).
Proof.
  split.
  - intros. apply Allocate_zero.
  - intros. apply Allocate_wraps. assumption.
Qed.

Lemma Combined_Allocate_zero_and_wrap_witness :
  (kWordMod - 8) +% 16 < kWordMod - 8 /\
  @CombinedAllocator.Allocate _ ModestPrimary ToyState (kWordMod - 8) 16 true 0x10000
    = Some (ToyState, 0).
Proof.
  assert (Hw : (kWordMod - 8) +% 16 < kWordMod - 8) by (vm_compute; reflexivity).
  split; [exact Hw|].
  exact (proj2 (Combined_Allocate_zero_and_wrap ToyPrimary.t ModestPrimary)
           ToyState (kWordMod - 8) 16 true 0x10000 Hw).
Defined.


(** ** SplineSizeClassMap: the schedule of sizes *)

(** [Size] on a class of a well-formed map, without wrap-around. *)
Lemma Size_unwrapped p c :
  spline_ok p -> 0 <= c <= SplineSizeClassMap.u4 p ->
  SplineSizeClassMap.Size p c =
    if c <=? SplineSizeClassMap.u0 p then l0 p + s0 p * c else
    if c <=? SplineSizeClassMap.u1 p then l1 p + s1 p * (c - SplineSizeClassMap.u0 p) else
    if c <=? SplineSizeClassMap.u2 p then l2 p + s2 p * (c - SplineSizeClassMap.u1 p) else
    if c <=? SplineSizeClassMap.u3 p then l3 p + s3 p * (c - SplineSizeClassMap.u2 p) else
    l4 p + s4 p * (c - SplineSizeClassMap.u3 p).
Proof.
  intros Hok Hc. spline_facts p Hok.
  unfold SplineSizeClassMap.Size.
  destruct (Z.leb_spec c (SplineSizeClassMap.u0 p));
    [|destruct (Z.leb_spec c (SplineSizeClassMap.u1 p));
    [|destruct (Z.leb_spec c (SplineSizeClassMap.u2 p));
    [|destruct (Z.leb_spec c (SplineSizeClassMap.u3 p));
    [|destruct (Z.leb_spec c (SplineSizeClassMap.u4 p)); [|lia]]]]].
  - rewrite (seg_size_unwrap (l0 p) (s0 p) d0) by
      (auto using pow2_pos, pow2_divides_word; lia).
    f_equal. f_equal. lia.
  - apply (seg_size_unwrap (l1 p) (s1 p) d1);
      auto using pow2_pos, pow2_divides_word; lia.
  - apply (seg_size_unwrap (l2 p) (s2 p) d2);
      auto using pow2_pos, pow2_divides_word; lia.
  - apply (seg_size_unwrap (l3 p) (s3 p) d3);
      auto using pow2_pos, pow2_divides_word; lia.
  - apply (seg_size_unwrap (l4 p) (s4 p) d4);
      auto using pow2_pos, pow2_divides_word; lia.
Qed.

(** From one class to the next the size grows by the step of the segment
    the next class lies in. *)
Lemma Size_succ p c :
  spline_ok p -> 0 <= c < SplineSizeClassMap.u4 p ->
  SplineSizeClassMap.Size p (c + 1)
    = SplineSizeClassMap.Size p c + SplineSizeClassMap.SegmentStep p (c + 1)
  /\ 0 < SplineSizeClassMap.SegmentStep p (c + 1).
Proof.
  intros Hok Hc. rewrite !Size_unwrapped by (assumption || lia).
  spline_facts p Hok.
  repeat match goal with
         | Hs : pow2 _ |- _ => apply pow2_pos in Hs
         end.
  unfold SplineSizeClassMap.SegmentStep.
  repeat match goal with
         | |- context [?a <=? ?b] => destruct (Z.leb_spec a b)
         end; try lia; split; try lia; nia.
Qed.

Lemma Size_grows p (n : nat) :
  forall c, spline_ok p -> 0 <= c -> c + Z.of_nat n <= SplineSizeClassMap.u4 p ->
  SplineSizeClassMap.Size p c + Z.of_nat n
    <= SplineSizeClassMap.Size p (c + Z.of_nat n).
Proof.
  induction n as [|n IH]; intros c Hok Hc Hn.
  - change (Z.of_nat 0) with 0. rewrite !Z.add_0_r. lia.
  - specialize (IH c Hok Hc ltac:(lia)).
    destruct (Size_succ p (c + Z.of_nat n) Hok ltac:(lia)) as [E Hpos].
    rewrite Nat2Z.inj_succ in *.
    replace (c + Z.succ (Z.of_nat n)) with (c + Z.of_nat n + 1) by lia.
    rewrite E. lia.
Qed.

Lemma Size_increasing p c c' :
  spline_ok p -> 0 <= c -> c < c' -> c' <= SplineSizeClassMap.u4 p ->
  SplineSizeClassMap.Size p c < SplineSizeClassMap.Size p c'.
Proof.
  intros Hok Hc Hlt Hc'.
  pose proof (Size_grows p (Z.to_nat (c' - c)) c Hok Hc ltac:(lia)) as Hg.
  rewrite Z2Nat.id in Hg by lia.
  replace (c + (c' - c)) with c' in Hg by lia. lia.
Qed.

Lemma Size_ends p :
  spline_ok p ->
  SplineSizeClassMap.Size p 0 = SplineSizeClassMap.kMinSize p /\
  SplineSizeClassMap.Size p (SplineSizeClassMap.u4 p) = SplineSizeClassMap.kMaxSize p.
Proof.
  intros Hok. spline_facts p Hok.
  rewrite !Size_unwrapped by (assumption || lia).
  unfold SplineSizeClassMap.kMinSize, SplineSizeClassMap.kMaxSize.
  split.
  - rewrite (Zle_imp_le_bool 0 (SplineSizeClassMap.u0 p)) by lia. lia.
  - repeat match goal with
           | |- context [?a <=? ?b] => destruct (Z.leb_spec a b)
           end; lia.
Qed.

(** The class [ClassID] picks: in range, large enough, and less than one
    step too large. *)
Lemma ClassID_fits p S :
  spline_ok p ->
  SplineSizeClassMap.kMinSize p <= S <= SplineSizeClassMap.kMaxSize p ->
  0 <= SplineSizeClassMap.ClassID p S <= SplineSizeClassMap.u4 p /\
  (SplineSizeClassMap.kMinSize p < S -> 0 < SplineSizeClassMap.ClassID p S) /\
  S <= SplineSizeClassMap.Size p (SplineSizeClassMap.ClassID p S)
    < S + SplineSizeClassMap.SegmentStep p (SplineSizeClassMap.ClassID p S).
Proof.
  intros Hok HS. unfold SplineSizeClassMap.kMinSize, SplineSizeClassMap.kMaxSize in HS.
  spline_facts p Hok.
  unfold SplineSizeClassMap.ClassID.
  destruct (Z.leb_spec S (l1 p)); [|destruct (Z.leb_spec S (l2 p));
    [|destruct (Z.leb_spec S (l3 p)); [|destruct (Z.leb_spec S (l4 p));
    [|destruct (Z.leb_spec S (l5 p)); [|lia]]]]].
  - destruct (segment_round_up (l0 p) (s0 p) d0 0 S) as (Hc & Hlt & Hsz);
      try assumption; try lia.
    unfold SplineSizeClassMap.Size, SplineSizeClassMap.SegmentStep, SplineSizeClassMap.kMinSize.
    decide_leb. lia.
  - destruct (segment_round_up (l1 p) (s1 p) d1 (SplineSizeClassMap.u0 p) S)
      as (Hc & Hlt & Hsz); try assumption; try lia.
    unfold SplineSizeClassMap.Size, SplineSizeClassMap.SegmentStep.
    decide_leb. lia.
  - destruct (segment_round_up (l2 p) (s2 p) d2 (SplineSizeClassMap.u1 p) S)
      as (Hc & Hlt & Hsz); try assumption; try lia.
    unfold SplineSizeClassMap.Size, SplineSizeClassMap.SegmentStep.
    decide_leb. lia.
  - destruct (segment_round_up (l3 p) (s3 p) d3 (SplineSizeClassMap.u2 p) S)
      as (Hc & Hlt & Hsz); try assumption; try lia.
    unfold SplineSizeClassMap.Size, SplineSizeClassMap.SegmentStep.
    decide_leb. lia.
  - destruct (segment_round_up (l4 p) (s4 p) d4 (SplineSizeClassMap.u3 p) S)
      as (Hc & Hlt & Hsz); try assumption; try lia.
    unfold SplineSizeClassMap.Size, SplineSizeClassMap.SegmentStep.
    decide_leb. lia.
Qed.

Lemma kNumClasses_exact p :
  spline_ok p -> 0 < l0 p ->
  SplineSizeClassMap.kNumClasses p = SplineSizeClassMap.u4 p + 1.
Proof.
  intros Hok Hl0. spline_facts p Hok.
  rewrite kNumClasses_unfold. apply wrap_small.
  assert (d0 <= s0 p * d0 /\ d1 <= s1 p * d1 /\ d2 <= s2 p * d2 /\
          d3 <= s3 p * d3 /\ d4 <= s4 p * d4).
  { repeat match goal with
           | Hs : pow2 _ |- _ => apply pow2_pos in Hs
           end. repeat split; nia. }
  unfold is_uptr. lia.
Qed.

Lemma ClassID_least_fit p S c :
  spline_ok p ->
  SplineSizeClassMap.kMinSize p <= S <= SplineSizeClassMap.kMaxSize p ->
  0 <= c <= SplineSizeClassMap.u4 p ->
  S <= SplineSizeClassMap.Size p c ->
  SplineSizeClassMap.ClassID p S <= c.
Proof.
  intros Hok HS Hc Hfit.
  destruct (ClassID_fits p S Hok HS) as (Hr & _ & Hlo & Hhi).
  destruct (Z.le_gt_cases (SplineSizeClassMap.ClassID p S) c) as [|Hgt]; [assumption|].
  exfalso.
  destruct (Size_succ p (SplineSizeClassMap.ClassID p S - 1) Hok ltac:(lia)) as [E _].
  replace (SplineSizeClassMap.ClassID p S - 1 + 1)
    with (SplineSizeClassMap.ClassID p S) in E by lia.
  destruct (Z.eq_dec c (SplineSizeClassMap.ClassID p S - 1)) as [->|Hne].
  - lia.
  - pose proof (Size_increasing p c (SplineSizeClassMap.ClassID p S - 1) Hok
                  ltac:(lia) ltac:(lia) ltac:(lia)). lia.
Qed.

Lemma ClassID_small p S :
  spline_ok p -> l0 p <= s0 p -> 0 < S <= l0 p ->
  SplineSizeClassMap.ClassID p S = 0.
Proof.
  intros Hok Hls HS. spline_facts p Hok.
  pose proof (pow2_is_uptr _ (ok_s0 p Hok)) as Hs0.
  unfold SplineSizeClassMap.ClassID. decide_leb.
  unfold uadd at 1 2, usub, udiv.
  rewrite wrap_add_l, wrap_sub_l.
  rewrite (wrap_small (S - l0 p + s0 p - 1)) by (unfold is_uptr in *; lia).
  rewrite Z.div_small by lia. reflexivity.
Qed.

Lemma ClassID_zero p :
  spline_ok p -> l0 p = s0 p ->
  SplineSizeClassMap.ClassID p 0 = kWordMod / s0 p - 1.
Proof.
  intros Hok Hls. spline_facts p Hok.
  pose proof (pow2_is_uptr _ (ok_s0 p Hok)) as Hs0.
  pose proof (pow2_pos _ (ok_s0 p Hok)) as Hs0p.
  destruct (pow2_divides_word _ (ok_s0 p Hok)) as [w Hw].
  unfold SplineSizeClassMap.ClassID. decide_leb.
  unfold uadd at 1 2, usub, udiv.
  rewrite wrap_add_l, wrap_sub_l.
  replace (0 - l0 p + s0 p - 1) with (-1) by lia.
  assert (E : wrap (-1) = kWordMod - 1).
  { unfold wrap. symmetry. apply (Z.mod_unique_pos _ _ (-1)); rewrite ?kWordMod_val; lia. }
  rewrite E.
  assert (1 <= w) by (rewrite kWordMod_val in Hw; nia).
  assert (Q : (kWordMod - 1) / s0 p = w - 1).
  { symmetry. apply (Z.div_unique_pos _ _ _ (s0 p - 1)); lia. }
  rewrite Q, Hw, Z.div_mul by lia.
  apply wrap_small. unfold is_uptr in *. nia.
Qed.

Lemma out_of_range_zero p :
  spline_ok p ->
  (forall S, SplineSizeClassMap.kMaxSize p < S -> SplineSizeClassMap.ClassID p S = 0) /\
  (forall c, SplineSizeClassMap.u4 p < c ->
     SplineSizeClassMap.Size p c = 0 /\ SplineSizeClassMap.MaxCached p c = 0).
Proof.
  intros Hok. spline_facts p Hok. split.
  - unfold SplineSizeClassMap.kMaxSize. intros S HS.
    unfold SplineSizeClassMap.ClassID. decide_leb. reflexivity.
  - intros c Hc.
    unfold SplineSizeClassMap.Size, SplineSizeClassMap.MaxCached.
    decide_leb. split; reflexivity.
Qed.

Lemma MaxCached_antitone p c c' :
  spline_ok p ->
  c4 p <= c3 p -> c3 p <= c2 p -> c2 p <= c1 p -> c1 p <= c0 p ->
  c <= c' -> c' <= SplineSizeClassMap.u4 p ->
  SplineSizeClassMap.MaxCached p c' <= SplineSizeClassMap.MaxCached p c.
Proof.
  intros Hok H43 H32 H21 H10 Hc Hc'. spline_facts p Hok.
  unfold SplineSizeClassMap.MaxCached.
  repeat match goal with
         | |- context [?a <=? ?b] => destruct (Z.leb_spec a b)
         end; lia.
Qed.

(** X1. On a well-formed map with a positive minimal size, [ClassID] of a
    size between [kMinSize] and [kMaxSize] is a class id below
    [kNumClasses]. *)
Theorem ClassID_below_kNumClasses p S :
  spline_ok p -> 0 < l0 p ->
  SplineSizeClassMap.kMinSize p <= S <= SplineSizeClassMap.kMaxSize p ->
  0 <= SplineSizeClassMap.ClassID p S < SplineSizeClassMap.kNumClasses p.
Proof.
  intros Hok Hl0 HS. rewrite kNumClasses_exact by assumption.
  destruct (ClassID_fits p S Hok HS) as (Hr & _). lia.
Qed.

Lemma ClassID_below_kNumClasses_witness :
  0 <= SplineSizeClassMap.ClassID DefaultSizeClassMap 2097152
    < SplineSizeClassMap.kNumClasses DefaultSizeClassMap.
Proof.
  apply (ClassID_below_kNumClasses DefaultSizeClassMap 2097152 DefaultSizeClassMap_ok).
  - vm_compute. reflexivity.
  - vm_compute. split; discriminate.
Defined.

(** X2. On a well-formed map, [Size] is strictly increasing over the class
    ids below [kNumClasses]. *)
Theorem Size_strictly_increasing p c c' :
  spline_ok p -> 0 <= c -> c < c' -> c' < SplineSizeClassMap.kNumClasses p ->
  SplineSizeClassMap.Size p c < SplineSizeClassMap.Size p c'.
Proof.
  intros Hok Hc Hlt Hc'. apply Size_increasing; try assumption.
  apply class_below_kNumClasses. lia.
Qed.

Lemma Size_strictly_increasing_witness :
  SplineSizeClassMap.Size CompactSizeClassMap 1
    < SplineSizeClassMap.Size CompactSizeClassMap 2.
Proof.
  apply (Size_strictly_increasing CompactSizeClassMap 1 2 CompactSizeClassMap_ok).
  - lia.
  - lia.
  - vm_compute. reflexivity.
Defined.

(** X3. On a well-formed map the first class has size [kMinSize], the last
    class, [kNumClasses - 1], has size [kMaxSize], and every class in
    between has a size between the two. *)
Theorem Size_range p :
  spline_ok p -> 0 < l0 p ->
  SplineSizeClassMap.Size p 0 = SplineSizeClassMap.kMinSize p /\
  SplineSizeClassMap.Size p (SplineSizeClassMap.kNumClasses p - 1)
    = SplineSizeClassMap.kMaxSize p /\
  forall c, 0 <= c < SplineSizeClassMap.kNumClasses p ->
    SplineSizeClassMap.kMinSize p <= SplineSizeClassMap.Size p c
      <= SplineSizeClassMap.kMaxSize p.
Proof.
  intros Hok Hl0. destruct (Size_ends p Hok) as [E0 E4].
  rewrite kNumClasses_exact by assumption.
  replace (SplineSizeClassMap.u4 p + 1 - 1) with (SplineSizeClassMap.u4 p) by lia.
  split; [exact E0|]. split; [exact E4|].
  intros c Hc. rewrite <- E0, <- E4.
  pose proof (u4_is_uptr p) as [Hu _].
  assert (Hlo : SplineSizeClassMap.Size p 0 <= SplineSizeClassMap.Size p c).
  { destruct (Z.eq_dec c 0) as [E|N0]; [rewrite E; lia|].
    pose proof (Size_increasing p 0 c Hok ltac:(lia) ltac:(lia) ltac:(lia)). lia. }
  assert (Hhi : SplineSizeClassMap.Size p c
                <= SplineSizeClassMap.Size p (SplineSizeClassMap.u4 p)).
  { destruct (Z.eq_dec c (SplineSizeClassMap.u4 p)) as [E|N4]; [rewrite E; lia|].
    pose proof (Size_increasing p c (SplineSizeClassMap.u4 p) Hok
                  ltac:(lia) ltac:(lia) ltac:(lia)). lia. }
  lia.
Qed.

Lemma Size_range_witness :
  SplineSizeClassMap.Size DefaultSizeClassMap 0
    = SplineSizeClassMap.kMinSize DefaultSizeClassMap /\
  SplineSizeClassMap.Size DefaultSizeClassMap
      (SplineSizeClassMap.kNumClasses DefaultSizeClassMap - 1)
    = SplineSizeClassMap.kMaxSize DefaultSizeClassMap /\
  SplineSizeClassMap.kMinSize DefaultSizeClassMap
    <= SplineSizeClassMap.Size DefaultSizeClassMap 100
    <= SplineSizeClassMap.kMaxSize DefaultSizeClassMap.
Proof.
  destruct (Size_range DefaultSizeClassMap DefaultSizeClassMap_ok)
    as (E0 & E1 & Hall).
  - vm_compute. reflexivity.
  - split; [exact E0|]. split; [exact E1|].
    apply Hall. vm_compute. split; [discriminate|reflexivity].
Defined.

(** X4. [ClassID] picks the smallest class that is large enough: no class
    below [ClassID S] has a size of at least [S]. *)
Theorem ClassID_smallest_sufficient p S c :
  spline_ok p ->
  SplineSizeClassMap.kMinSize p <= S <= SplineSizeClassMap.kMaxSize p ->
  0 <= c < SplineSizeClassMap.kNumClasses p ->
  S <= SplineSizeClassMap.Size p c ->
  SplineSizeClassMap.ClassID p S <= c.
Proof.
  intros Hok HS Hc Hfit. apply ClassID_least_fit; try assumption.
  pose proof (class_below_kNumClasses p c Hc). lia.
Qed.

Lemma ClassID_smallest_sufficient_witness :
  SplineSizeClassMap.ClassID DefaultSizeClassMap 1000 <= 40.
Proof.
  apply (ClassID_smallest_sufficient DefaultSizeClassMap 1000 40 DefaultSizeClassMap_ok).
  - vm_compute. split; discriminate.
  - vm_compute. split; [discriminate|reflexivity].
  - vm_compute. discriminate.
Defined.

(** X5. When the first step is at least the minimal size, as in both
    instantiations, every size from 1 to [kMinSize] falls in class 0, whose
    chunks are large enough for it. *)
Theorem ClassID_below_kMinSize p S :
  spline_ok p -> l0 p <= s0 p ->
  0 < S <= SplineSizeClassMap.kMinSize p ->
  SplineSizeClassMap.ClassID p S = 0 /\
  S <= SplineSizeClassMap.Size p (SplineSizeClassMap.ClassID p S).
Proof.
  intros Hok Hls HS. unfold SplineSizeClassMap.kMinSize in HS.
  rewrite (ClassID_small p S Hok Hls HS). split; [reflexivity|].
  rewrite (proj1 (Size_ends p Hok)). unfold SplineSizeClassMap.kMinSize. lia.
Qed.

Lemma ClassID_below_kMinSize_witness :
  SplineSizeClassMap.ClassID DefaultSizeClassMap 1 = 0 /\
  1 <= SplineSizeClassMap.Size DefaultSizeClassMap
         (SplineSizeClassMap.ClassID DefaultSizeClassMap 1).
Proof.
  apply (ClassID_below_kMinSize DefaultSizeClassMap 1 DefaultSizeClassMap_ok).
  - vm_compute. discriminate.
  - vm_compute. split; [reflexivity|discriminate].
Defined.

(** X6. When the first step equals the minimal size, as in both
    instantiations, [ClassID 0] wraps around: it is [2^64 / s0 - 1], which
    for a map of at most 256 classes and a first step of at most [2^55] is
    not a class id. *)
Theorem ClassID_of_zero_wraps p :
  spline_ok p -> l0 p = s0 p ->
  SplineSizeClassMap.kNumClasses p <= 256 -> s0 p <= 2 ^ 55 ->
  SplineSizeClassMap.ClassID p 0 = kWordMod / s0 p - 1 /\
  SplineSizeClassMap.kNumClasses p <= SplineSizeClassMap.ClassID p 0.
Proof.
  intros Hok Hls Hn Hs. rewrite (ClassID_zero p Hok Hls). split; [reflexivity|].
  pose proof (pow2_pos _ (ok_s0 p Hok)) as Hs0p.
  assert (512 <= kWordMod / s0 p).
  { apply Z.div_le_lower_bound; [lia|]. rewrite kWordMod_val.
    change (2 ^ 55) with 36028797018963968 in Hs. lia. }
  lia.
Qed.

Lemma ClassID_of_zero_wraps_witness :
  SplineSizeClassMap.ClassID CompactSizeClassMap 0 = kWordMod / s0 CompactSizeClassMap - 1 /\
  SplineSizeClassMap.kNumClasses CompactSizeClassMap
    <= SplineSizeClassMap.ClassID CompactSizeClassMap 0.
Proof.
  apply (ClassID_of_zero_wraps CompactSizeClassMap CompactSizeClassMap_ok).
  - reflexivity.
  - vm_compute. discriminate.
  - vm_compute. discriminate.
Defined.

(** X7. Beyond their ranges the three functions return 0: [ClassID] of a
    size above [kMaxSize], [Size] and [MaxCached] of a class id of
    [kNumClasses] or more; so for such a size the class [ClassID] names is
    too small. *)
Theorem SplineSizeClassMap_out_of_range p :
  spline_ok p -> 0 < l0 p ->
  (forall S, SplineSizeClassMap.kMaxSize p < S ->
     SplineSizeClassMap.ClassID p S = 0 /\
     SplineSizeClassMap.Size p (SplineSizeClassMap.ClassID p S) < S) /\
  (forall c, SplineSizeClassMap.kNumClasses p <= c ->
     SplineSizeClassMap.Size p c = 0 /\ SplineSizeClassMap.MaxCached p c = 0).
Proof.
  intros Hok Hl0. destruct (out_of_range_zero p Hok) as [HC HS]. split.
  - intros S HSz. rewrite (HC S HSz). split; [reflexivity|].
    rewrite (proj1 (Size_ends p Hok)).
    pose proof (ok_l01 p Hok). pose proof (ok_l12 p Hok). pose proof (ok_l23 p Hok).
    pose proof (ok_l34 p Hok). pose proof (ok_l45 p Hok).
    unfold SplineSizeClassMap.kMinSize, SplineSizeClassMap.kMaxSize in *. lia.
  - intros c Hc. apply HS. rewrite kNumClasses_exact in Hc by assumption. lia.
Qed.

Lemma SplineSizeClassMap_out_of_range_witness :
  SplineSizeClassMap.ClassID DefaultSizeClassMap 2097153 = 0 /\
  SplineSizeClassMap.Size DefaultSizeClassMap 256 = 0 /\
  SplineSizeClassMap.MaxCached DefaultSizeClassMap 256 = 0.
Proof.
  destruct (SplineSizeClassMap_out_of_range DefaultSizeClassMap DefaultSizeClassMap_ok)
    as [HC HS].
  - vm_compute. reflexivity.
  - split.
    + apply (HC 2097153). vm_compute. reflexivity.
    + apply (HS 256). vm_compute. discriminate.
Defined.

(** X8. With caps that do not grow from one segment to the next, as in both
    instantiations, a larger class never has a larger [MaxCached]. *)
Theorem MaxCached_non_increasing p c c' :
  spline_ok p ->
  c4 p <= c3 p -> c3 p <= c2 p -> c2 p <= c1 p -> c1 p <= c0 p ->
  c <= c' -> c' < SplineSizeClassMap.kNumClasses p -> 0 <= c' ->
  SplineSizeClassMap.MaxCached p c' <= SplineSizeClassMap.MaxCached p c.
Proof.
  intros Hok H43 H32 H21 H10 Hc Hc' H0. apply MaxCached_antitone; try assumption.
  apply class_below_kNumClasses. lia.
Qed.

Lemma MaxCached_non_increasing_witness :
  SplineSizeClassMap.MaxCached DefaultSizeClassMap 200
    <= SplineSizeClassMap.MaxCached DefaultSizeClassMap 20.
Proof.
  apply (MaxCached_non_increasing DefaultSizeClassMap 20 200 DefaultSizeClassMap_ok);
    try (vm_compute; discriminate).
  vm_compute. reflexivity.
Defined.

(** ** SizeClassAllocatorLocalCache: the fast path and the drain *)

Section LocalCacheMore.
Context {A : Type} `{SizeClassAllocator A}.
Import SizeClassAllocatorLocalCache.

Lemma Allocate_cached (cache : LocalCache) (allocator : A) class_id res
    (rest : AllocatorFreeList) :
  class_id < kNumClasses ->
  cache !! Z.to_nat class_id = @Some AllocatorFreeList (res :: rest) ->
  Allocate cache allocator class_id
    = Some (<[Z.to_nat class_id := rest]> cache, allocator, res).
Proof.
  intros Hlt Hfl. unfold Allocate.
  rewrite (proj2 (Z.ltb_lt _ _) Hlt). cbn [negb]. rewrite Hfl. reflexivity.
Qed.

Lemma Allocate_refills (cache : LocalCache) (allocator allocator' : A) class_id res
    (rest : AllocatorFreeList) :
  class_id < kNumClasses ->
  cache !! Z.to_nat class_id = @Some AllocatorFreeList [] ->
  BulkAllocate allocator class_id [] = (allocator', res :: rest) ->
  Allocate cache allocator class_id
    = Some (<[Z.to_nat class_id := rest]> cache, allocator', res).
Proof.
  intros Hlt Hfl Hbulk. unfold Allocate.
  rewrite (proj2 (Z.ltb_lt _ _) Hlt). cbn [negb]. rewrite Hfl.
  cbn [list_empty]. rewrite Hbulk. reflexivity.
Qed.

Lemma Deallocate_below_cap (cache : LocalCache) (allocator : A) class_id p
    (fl : AllocatorFreeList) :
  caps_ok SizeClassMapT -> is_uptr class_id -> class_id < kNumClasses ->
  cache !! Z.to_nat class_id = Some fl ->
  list_size (p :: fl) < 2 * MaxCached class_id ->
  Deallocate cache allocator class_id p
    = Some (<[Z.to_nat class_id := p :: fl]> cache, allocator).
Proof.
  intros Hcaps Hid Hlt Hfl Hroom. unfold Deallocate.
  rewrite (proj2 (Z.ltb_lt _ _) Hlt). cbn [negb]. rewrite Hfl.
  destruct (class_cap_usable class_id Hcaps) as [Hpos Hmul];
    [unfold is_uptr in Hid; lia|].
  rewrite Hmul. unfold push_front.
  rewrite (proj2 (Z.leb_gt _ _) Hroom). reflexivity.
Qed.

Lemma Deallocate_Allocate_lifo (cache : LocalCache) (allocator : A) class_id p
    (fl : AllocatorFreeList) :
  caps_ok SizeClassMapT -> is_uptr class_id -> class_id < kNumClasses ->
  cache !! Z.to_nat class_id = Some fl ->
  list_size (p :: fl) < 2 * MaxCached class_id ->
  exists cache1,
    Deallocate cache allocator class_id p = Some (cache1, allocator) /\
    Allocate cache1 allocator class_id = Some (cache, allocator, p).
Proof.
  intros Hcaps Hid Hlt Hfl Hroom.
  exists (<[Z.to_nat class_id := p :: fl]> cache). split.
  - apply Deallocate_below_cap; assumption.
  - assert (Hin : (Z.to_nat class_id < length cache)%nat)
      by (eapply lookup_lt_Some; exact Hfl).
    rewrite (Allocate_cached _ allocator class_id p fl Hlt)
      by (apply list_lookup_insert_eq; exact Hin).
    rewrite list_insert_insert_eq, list_insert_id by exact Hfl. reflexivity.
Qed.

(** The loop of [Drain] leaves the lists it has visited empty and the
    others as they were. *)
Lemma Drain_loop_lists n :
  forall i (cache cache' : LocalCache) (allocator allocator' : A),
  0 <= i -> i + Z.of_nat n < kWordMod ->
  Drain_loop n i cache allocator = Some (cache', allocator') ->
  length cache' = length cache /\
  forall j : nat,
    cache' !! j =
      if bool_decide (Z.to_nat i <= j < Z.to_nat i + n)%nat
      then match cache !! j with Some _ => Some [] | None => None end
      else cache !! j.
Proof.
  induction n as [|n IH]; intros i cache cache' allocator allocator' Hi Hn HD.
  - simpl in HD. injection HD as <- <-. split; [reflexivity|].
    intros j. rewrite bool_decide_eq_false_2 by lia. reflexivity.
  - cbn [Drain_loop] in HD.
    destruct (cache !! Z.to_nat i) as [fl|] eqn:Hfl; [|discriminate].
    destruct (BulkDeallocate allocator i fl) as [a1 fl1].
    destruct fl1 as [|]; [cbn [list_empty] in HD|discriminate].
    assert (Ei : i +% 1 = i + 1).
    { apply wrap_small. unfold is_uptr. lia. }
    rewrite Ei in HD.
    apply IH in HD as [Hlen Hall]; [|lia|lia].
    rewrite length_insert in Hlen. split; [exact Hlen|].
    intros j. rewrite Hall.
    assert (Hin : (Z.to_nat i < length cache)%nat)
      by (eapply lookup_lt_Some; exact Hfl).
    replace (Z.to_nat (i + 1)) with (S (Z.to_nat i)) by lia.
    destruct (decide (j = Z.to_nat i)) as [->|Nj].
    + rewrite bool_decide_eq_false_2 by lia.
      rewrite bool_decide_eq_true_2 by lia.
      rewrite list_lookup_insert_eq by exact Hin. rewrite Hfl. reflexivity.
    + rewrite !list_lookup_insert_ne by congruence.
      destruct (decide (S (Z.to_nat i) <= j < S (Z.to_nat i) + n)%nat).
      * rewrite !bool_decide_eq_true_2 by lia. reflexivity.
      * rewrite !bool_decide_eq_false_2 by lia. reflexivity.
Qed.

Lemma Drain_empties (cache cache' : LocalCache) (allocator allocator' : A) :
  length cache = Z.to_nat kNumClasses ->
  Drain cache allocator = Some (cache', allocator') ->
  cache' = Init.
Proof.
  intros Hlen. unfold Drain. intros HD.
  assert (Hk : is_uptr kNumClasses) by apply wrap_is_uptr.
  apply Drain_loop_lists in HD as [Hlen' Hall];
    [|unfold is_uptr in Hk; lia..].
  unfold Init. apply list_eq. intros j. rewrite Hall.
  change (Z.to_nat 0) with O.
  destruct (decide (j < Z.to_nat kNumClasses)%nat) as [Hj|Hj].
  - rewrite bool_decide_eq_true_2 by lia.
    rewrite lookup_replicate_2 by exact Hj.
    destruct (lookup_lt_is_Some_2 cache j ltac:(lia)) as [fl ->]. reflexivity.
  - rewrite bool_decide_eq_false_2 by lia.
    etransitivity; [apply lookup_ge_None_2; lia|].
    symmetry. apply lookup_replicate_None. lia.
Qed.

Lemma Allocate_bad_class (cache : LocalCache) (allocator : A) class_id :
  kNumClasses <= class_id -> Allocate cache allocator class_id = None.
Proof.
  intros Hge. unfold Allocate. rewrite (proj2 (Z.ltb_ge _ _) Hge). reflexivity.
Qed.

Lemma Deallocate_bad_class (cache : LocalCache) (allocator : A) class_id p :
  kNumClasses <= class_id -> Deallocate cache allocator class_id p = None.
Proof.
  intros Hge. unfold Deallocate. rewrite (proj2 (Z.ltb_ge _ _) Hge). reflexivity.
Qed.

End LocalCacheMore.

(** X10. A [Deallocate] that leaves the list below twice the cap followed
    by an [Allocate] of the same class returns the pointer just freed and
    restores the cache; the primary is not involved. *)
Theorem LocalCache_Deallocate_Allocate_round_trip (A : Type) (H : SizeClassAllocator A)
    (cache : LocalCache) (allocator : A) class_id p (fl : AllocatorFreeList) :
  caps_ok SizeClassMapT -> is_uptr class_id ->
  class_id < SizeClassAllocatorLocalCache.kNumClasses ->
  cache !! Z.to_nat class_id = Some fl ->
  list_size (p :: fl) < 2 * SizeClassAllocatorLocalCache.MaxCached class_id ->
  exists cache1,
    SizeClassAllocatorLocalCache.Deallocate cache allocator class_id p
      = Some (cache1, allocator) /\
    SizeClassAllocatorLocalCache.Allocate cache1 allocator class_id
      = Some (cache, allocator, p).
Proof. apply Deallocate_Allocate_lifo. Qed.

Lemma is_uptr_3 : is_uptr 3.
Proof. unfold is_uptr. rewrite kWordMod_val. lia. Qed.

Lemma LocalCache_Deallocate_Allocate_round_trip_witness :
  exists cache1,
    @SizeClassAllocatorLocalCache.Deallocate _ ModestPrimary
      (@SizeClassAllocatorLocalCache.Init _ ModestPrimary) ToyPrimary.init 3 4096
      = Some (cache1, ToyPrimary.init) /\
    @SizeClassAllocatorLocalCache.Allocate _ ModestPrimary cache1 ToyPrimary.init 3
      = Some (@SizeClassAllocatorLocalCache.Init _ ModestPrimary, ToyPrimary.init, 4096).
Proof.
  apply (LocalCache_Deallocate_Allocate_round_trip ToyPrimary.t ModestPrimary
           (@SizeClassAllocatorLocalCache.Init _ ModestPrimary) ToyPrimary.init
           3 4096 []).
  - exact DefaultSizeClassMap_caps.
  - exact is_uptr_3.
  - vm_compute. reflexivity.
  - vm_compute. reflexivity.
  - vm_compute. reflexivity.
Defined.

(** X11. A [Drain] that completes leaves the cache as [Init] makes it,
    every list empty; and it completes whenever [BulkDeallocate] takes all
    the chunks it is handed, which is all it asks of the primary. *)
Theorem LocalCache_Drain_empties (A : Type) (H : SizeClassAllocator A)
    (cache : LocalCache) (allocator : A) :
  length cache = Z.to_nat SizeClassAllocatorLocalCache.kNumClasses ->
  (forall cache' allocator',
     SizeClassAllocatorLocalCache.Drain cache allocator = Some (cache', allocator') ->
     cache' = SizeClassAllocatorLocalCache.Init) /\
  (drain_takes_all A ->
   exists allocator',
     SizeClassAllocatorLocalCache.Drain cache allocator
       = Some (SizeClassAllocatorLocalCache.Init, allocator')).
Proof.
  intros Hlen. split.
  - intros cache' allocator' HD. eapply Drain_empties; eassumption.
  - intros Hbulk.
    destruct (Drain_completes cache allocator Hbulk Hlen) as (cache' & allocator' & HD).
    exists allocator'. rewrite HD.
    rewrite (Drain_empties _ _ _ _ Hlen HD). reflexivity.
Qed.

Lemma LocalCache_Drain_empties_witness :
  exists allocator',
    @SizeClassAllocatorLocalCache.Drain _ ModestPrimary
      (<[3%nat := [4096; 8192]]> (@SizeClassAllocatorLocalCache.Init _ ModestPrimary))
      ToyPrimary.init
    = Some (@SizeClassAllocatorLocalCache.Init _ ModestPrimary, allocator').
Proof.
  assert (Hlen : length (<[3%nat := [4096; 8192]]>
                           (@SizeClassAllocatorLocalCache.Init _ ModestPrimary))
                 = Z.to_nat (@SizeClassAllocatorLocalCache.kNumClasses _ ModestPrimary))
    by (vm_compute; reflexivity).
  apply (proj2 (LocalCache_Drain_empties ToyPrimary.t ModestPrimary _
                  ToyPrimary.init Hlen)).
  apply ToyPrimary_drain_takes_all.
Defined.

(** X12. On a cache of [kNumClasses] lists and for a class id below
    [kNumClasses], the operations pass their checks and return:
    [Deallocate] with every primary, also when the push fills the list and
    half of it is drained (the loop of [DrainHalf] never pops an empty
    list); [Allocate] as soon as [BulkAllocate] leaves the list it refills
    with a chunk on it, which is all it asks of the primary. *)
Theorem LocalCache_operations_complete (A : Type) (H : SizeClassAllocator A)
    (cache : LocalCache) (allocator : A) class_id :
  is_uptr class_id ->
  class_id < SizeClassAllocatorLocalCache.kNumClasses ->
  length cache = Z.to_nat SizeClassAllocatorLocalCache.kNumClasses ->
  (forall p, exists cache' allocator',
     SizeClassAllocatorLocalCache.Deallocate cache allocator class_id p
       = Some (cache', allocator')) /\
  (refill_delivers A ->
   exists cache' allocator' res,
     SizeClassAllocatorLocalCache.Allocate cache allocator class_id
       = Some (cache', allocator', res)).
Proof.
  intros Hid Hlt Hlen. split.
  - intros p. apply Deallocate_completes; assumption.
  - intros Hbulk. apply Allocate_completes; assumption.
Qed.

Lemma LocalCache_operations_complete_witness :
  (exists cache' allocator',
     @SizeClassAllocatorLocalCache.Deallocate _ ModestPrimary
       (<[255%nat := [0x700000000000]]>
          (@SizeClassAllocatorLocalCache.Init _ ModestPrimary))
       ToyPrimary.init 255 0x700000200000
     = Some (cache', allocator')) /\
  (exists cache' allocator' res,
     @SizeClassAllocatorLocalCache.Allocate _ ModestPrimary
       (<[255%nat := [0x700000000000]]>
          (@SizeClassAllocatorLocalCache.Init _ ModestPrimary))
       ToyPrimary.init 255
     = Some (cache', allocator', res)).
Proof.
  assert (Hlen : length (<[255%nat := [0x700000000000]]>
                           (@SizeClassAllocatorLocalCache.Init _ ModestPrimary))
                 = Z.to_nat (@SizeClassAllocatorLocalCache.kNumClasses _ ModestPrimary))
    by (vm_compute; reflexivity).
  assert (Hlt : 255 < @SizeClassAllocatorLocalCache.kNumClasses _ ModestPrimary)
    by (vm_compute; reflexivity).
  destruct (LocalCache_operations_complete ToyPrimary.t ModestPrimary _
              ToyPrimary.init 255 is_uptr_255 Hlt Hlen) as [HD HA].
  split; [apply HD|apply HA; exact ModestPrimary_refill_delivers].
Defined.

(** ** LargeMmapAllocator: the walks answer for the live list *)

Section LargeMmapWalks.
Import LargeMmapAllocator.

Lemma GetUser_aligned a h :
  h mod page_size_ a = 0 -> GetUser a h = Some (h +% page_size_ a).
Proof. intros E. unfold GetUser, urem. rewrite E. reflexivity. Qed.

Lemma user_address_aligned a h :
  pow2 (page_size_ a) -> h mod page_size_ a = 0 ->
  (h +% page_size_ a) &% (page_size_ a -% 1) = 0.
Proof.
  intros Hp Hh. pose proof (pow2_pos _ Hp) as Hp0.
  rewrite land_mask by exact Hp. unfold uadd, wrap.
  rewrite Z.mod_mod_divide by (apply pow2_divides_word; exact Hp).
  rewrite <- Zplus_mod_idemp_l, Hh, Z.add_0_l. apply Z.mod_same. lia.
Qed.

Lemma PointerIsMine_loop_spec a m p chain :
  forall fuel l,
  live_list (headers m) l chain -> (length chain <= fuel)%nat ->
  Forall (fun e : uptr * Header.t => e.1 mod page_size_ a = 0) chain ->
  PointerIsMine_loop fuel a m l p
    = Some (existsb (fun e : uptr * Header.t => e.1 +% page_size_ a =? p) chain).
Proof.
  induction chain as [|[h hdr] rest IH]; intros fuel l Hl Hfuel Hal.
  - simpl in Hl. subst l. destruct fuel; reflexivity.
  - destruct Hl as (-> & N & L & R). simpl in Hfuel.
    destruct fuel as [|fuel]; [lia|].
    apply Forall_cons in Hal as [Hh Hal]. simpl in Hh.
    cbn [PointerIsMine_loop existsb fst].
    rewrite (proj2 (Z.eqb_neq h 0) N), L, (GetUser_aligned a h Hh).
    destruct (h +% page_size_ a =? p); [reflexivity|].
    apply IH; [exact R|lia|exact Hal].
Qed.

Lemma PointerIsMine_walk a m p chain :
  pow2 (page_size_ a) ->
  live_list (headers m) (list_ a) chain ->
  Forall (fun e : uptr * Header.t => e.1 mod page_size_ a = 0) chain ->
  PointerIsMine a m p
    = Some (existsb (fun e : uptr * Header.t => e.1 +% page_size_ a =? p) chain).
Proof.
  intros Hp Hl Hal. unfold PointerIsMine.
  rewrite (PointerIsMine_loop_spec a m p chain) by
    (try assumption; unfold walk_fuel; pose proof (live_list_length _ _ _ Hl); lia).
  destruct (Z.eqb_spec (p &% (page_size_ a -% 1)) 0) as [E|N]; [reflexivity|].
  cbn [negb]. f_equal. symmetry. apply not_true_is_false. intros Hex.
  apply existsb_exists in Hex as ([h hdr] & Hin & Heq).
  apply Z.eqb_eq in Heq. simpl in Heq. subst p.
  rewrite Forall_forall in Hal. specialize (Hal _ (proj2 (list_elem_of_In _ _) Hin)).
  simpl in Hal. apply N. apply user_address_aligned; assumption.
Qed.

Lemma GetBlockBegin_loop_spec a m p chain :
  forall fuel l,
  live_list (headers m) l chain -> (length chain <= fuel)%nat ->
  Forall (fun e : uptr * Header.t => e.1 mod page_size_ a = 0) chain ->
  GetBlockBegin_loop fuel a m l p
    = Some (match List.find (fun e : uptr * Header.t =>
                               (e.1 +% page_size_ a <=? p)
                               && (p <? e.1 +% page_size_ a +% Header.size e.2))
                    chain with
            | Some e => e.1 +% page_size_ a
            | None => 0
            end).
Proof.
  induction chain as [|[h hdr] rest IH]; intros fuel l Hl Hfuel Hal.
  - simpl in Hl. subst l. destruct fuel; reflexivity.
  - destruct Hl as (-> & N & L & R). simpl in Hfuel.
    destruct fuel as [|fuel]; [lia|].
    apply Forall_cons in Hal as [Hh Hal]. simpl in Hh.
    cbn [GetBlockBegin_loop List.find fst snd].
    rewrite (proj2 (Z.eqb_neq h 0) N), L, (GetUser_aligned a h Hh).
    destruct ((h +% page_size_ a <=? p) && (p <? h +% page_size_ a +% Header.size hdr));
      [reflexivity|].
    apply IH; [exact R|lia|exact Hal].
Qed.

End LargeMmapWalks.

(** X13. On a live list whose headers are page-aligned, the walk of
    [PointerIsMine] ends, and it answers true exactly for the user
    addresses of the headers on the list. *)
Theorem LargeMmap_PointerIsMine_live a m p chain :
  pow2 (LargeMmapAllocator.page_size_ a) ->
  LargeMmapAllocator.live_list (headers m) (LargeMmapAllocator.list_ a) chain ->
  Forall (fun e : uptr * Header.t => e.1 mod LargeMmapAllocator.page_size_ a = 0) chain ->
  exists b,
    LargeMmapAllocator.PointerIsMine a m p = Some b /\
    (b = true <->
     exists e, e ∈ chain /\ LargeMmapAllocator.GetUser a e.1 = Some p).
Proof.
  intros Hp Hl Hal. eexists. split; [apply PointerIsMine_walk; eassumption|].
  rewrite existsb_exists. rewrite Forall_forall in Hal. split.
  - intros (e & Hin & Heq). exists e. apply list_elem_of_In in Hin.
    split; [exact Hin|]. rewrite GetUser_aligned by (apply Hal; exact Hin).
    apply Z.eqb_eq in Heq. congruence.
  - intros (e & Hin & Hu). exists e. split; [apply list_elem_of_In; exact Hin|].
    rewrite GetUser_aligned in Hu by (apply Hal; exact Hin).
    injection Hu as <-. apply Z.eqb_refl.
Qed.

(** X14. On a live list whose headers are page-aligned, the walk of
    [GetBlockBegin] ends; it returns the user address of a header on the
    list whose user region holds the pointer, or null when no region on
    the list holds it. *)
Theorem LargeMmap_GetBlockBegin_live a m p chain :
  LargeMmapAllocator.live_list (headers m) (LargeMmapAllocator.list_ a) chain ->
  Forall (fun e : uptr * Header.t => e.1 mod LargeMmapAllocator.page_size_ a = 0) chain ->
  exists b,
    LargeMmapAllocator.GetBlockBegin a m p = Some b /\
    ((exists e, e ∈ chain /\ b = e.1 +% LargeMmapAllocator.page_size_ a /\
                b <= p < b +% Header.size e.2) \/
     (b = 0 /\
      forall e, e ∈ chain ->
        ~ (e.1 +% LargeMmapAllocator.page_size_ a <= p
           < e.1 +% LargeMmapAllocator.page_size_ a +% Header.size e.2))).
Proof.
  intros Hl Hal. eexists. split.
  - unfold LargeMmapAllocator.GetBlockBegin. apply GetBlockBegin_loop_spec.
    + exact Hl.
    + unfold LargeMmapAllocator.walk_fuel.
      pose proof (live_list_length _ _ _ Hl). lia.
    + exact Hal.
  - destruct (List.find _ chain) as [e|] eqn:Hf.
    + left. apply List.find_some in Hf as [Hin Hb].
      apply andb_true_iff in Hb as [H1 H2].
      apply Z.leb_le in H1. apply Z.ltb_lt in H2.
      exists e. split; [apply list_elem_of_In; exact Hin|]. split; [reflexivity|lia].
    + right. split; [reflexivity|]. intros e Hin [H1 H2].
      apply list_elem_of_In in Hin.
      pose proof (List.find_none _ _ Hf e Hin) as Hb. simpl in Hb.
      apply andb_false_iff in Hb as [Hb|Hb].
      * apply Z.leb_gt in Hb. lia.
      * apply Z.ltb_ge in Hb. lia.
Qed.

Section LargeMmapAfterAllocate.
Import LargeMmapAllocator.

(** What a successful [Allocate] leaves at the head of the list. *)
Lemma Allocate_header a m size alignment map_beg a' m' p :
  Allocate a m size alignment map_beg = Some (a', m', p) -> p <> 0 ->
  page_size_ a' = page_size_ a /\
  p mod page_size_ a = 0 /\
  list_ a' = p -% page_size_ a /\
  size <= MapSize a size alignment /\
  p +% size <= map_beg +% MapSize a size alignment /\
  bytes m' = bytes m /\
  exists hdr, headers m' !! (p -% page_size_ a) = Some hdr /\ Header.size hdr = size.
Proof.
  unfold Allocate. intros HA Hp.
  destruct (negb (IsPowerOfTwo alignment)); [discriminate|].
  destruct (Z.ltb_spec (MapSize a size alignment) size) as [|Hge].
  { injection HA as _ _ <-. contradiction. }
  destruct (negb (0 =? _)); [discriminate|].
  destruct (Z.leb_spec (AlignedUser a map_beg alignment +% size)
              (map_beg +% MapSize a size alignment)) as [Hend|]; [|discriminate].
  cbn [negb] in HA.
  unfold GetHeader, urem in HA.
  destruct (Z.eqb_spec (AlignedUser a map_beg alignment mod page_size_ a) 0) as [Hal|];
    [|discriminate].
  destruct (negb (is_mapped _ _)); [discriminate|].
  set (h := AlignedUser a map_beg alignment -% page_size_ a) in *.
  set (hdr := {| Header.map_beg := map_beg |}) in HA.
  assert (Hfin : forall hs,
    (exists hdr', hs !! h = Some hdr' /\ Header.size hdr' = size) ->
    Some ({| page_size_ := page_size_ a; list_ := h |},
          {| headers := hs; bytes := bytes m;
             mappings := (map_beg, MapSize a size alignment) :: mappings m |},
          AlignedUser a map_beg alignment) = Some (a', m', p) ->
    page_size_ a' = page_size_ a /\
    p mod page_size_ a = 0 /\
    list_ a' = p -% page_size_ a /\
    size <= MapSize a size alignment /\
    p +% size <= map_beg +% MapSize a size alignment /\
    bytes m' = bytes m /\
    exists hdr, headers m' !! (p -% page_size_ a) = Some hdr /\ Header.size hdr = size).
  { intros hs Hhs [= <- <- <-]. cbn [page_size_ list_ headers bytes].
    repeat (split; [first [reflexivity|assumption]|]). exact Hhs. }
  destruct (list_ a =? 0).
  - apply Hfin in HA; [exact HA|]. exists hdr. split; [apply lookup_insert_eq|reflexivity].
  - destruct (<[h:=hdr]> (headers m) !! list_ a) as [first|] eqn:Hf; [|discriminate].
    apply Hfin in HA; [exact HA|].
    destruct (decide (list_ a = h)) as [E|N].
    + rewrite E in *. rewrite lookup_insert_eq in Hf. injection Hf as <-.
      eexists. split; [apply lookup_insert_eq|reflexivity].
    + exists hdr. split; [|reflexivity].
      rewrite lookup_insert_ne by exact N. apply lookup_insert_eq.
Qed.

Lemma RoundUpTo_ge size b :
  pow2 b -> is_uptr size ->
  LargeMmapAllocator.RoundUpExact size b < kWordMod ->
  size <= RoundUpTo size b.
Proof.
  intros Hb Hs Hno. rewrite RoundUpTo_exact by assumption.
  destruct (RoundUpExact_bounds size b (pow2_pos _ Hb)) as [HE _].
  rewrite wrap_small by (unfold is_uptr in *; lia). lia.
Qed.

(** A request whose rounding to pages wraps is refused. *)
Lemma Allocate_rounding_fits a m size alignment map_beg a' m' p :
  pow2 (page_size_ a) -> pow2 alignment -> is_uptr size ->
  Allocate a m size alignment map_beg = Some (a', m', p) -> p <> 0 ->
  MapSizeExact a size alignment < kWordMod.
Proof.
  intros Hp Ha Hs HA Hnz.
  destruct (Z.lt_ge_cases (MapSizeExact a size alignment) kWordMod) as [|Hov];
    [assumption|].
  rewrite (Allocate_overflow a m size alignment map_beg Hp Ha Hs Hov) in HA.
  injection HA as _ _ <-. contradiction.
Qed.

Lemma GetActuallyAllocatedSize_after a m size alignment map_beg a' m' p :
  Allocate a m size alignment map_beg = Some (a', m', p) -> p <> 0 ->
  GetActuallyAllocatedSize a' m' p = Some (RoundUpTo size (page_size_ a)).
Proof.
  intros HA Hp.
  destruct (Allocate_header _ _ _ _ _ _ _ _ HA Hp)
    as (Epage & Hal & _ & _ & _ & _ & hdr & Hl & Hsz).
  unfold GetActuallyAllocatedSize, GetHeader, urem, RoundUpMapSize.
  rewrite Epage, Hal. cbn [Z.eqb]. rewrite Hl, Hsz.
  rewrite uadd_usub_cancel by apply RoundUpTo_is_uptr. reflexivity.
Qed.

Lemma head_walk_facts a p :
  pow2 (page_size_ a) -> is_uptr p -> page_size_ a < p -> p mod page_size_ a = 0 ->
  p -% page_size_ a = p - page_size_ a /\
  (p - page_size_ a =? 0) = false /\
  GetUser a (p - page_size_ a) = Some p.
Proof.
  intros Hpow Hu Hgt Hal. pose proof (pow2_pos _ Hpow) as Hp0.
  split; [apply wrap_small; unfold is_uptr in *; lia|].
  split; [apply Z.eqb_neq; lia|].
  rewrite GetUser_aligned.
  - f_equal. unfold uadd. rewrite Z.sub_add. apply wrap_small, Hu.
  - rewrite <- Zminus_mod_idemp_r, Z.mod_same, Z.sub_0_r by lia. exact Hal.
Qed.

Lemma PointerIsMine_after a m size alignment map_beg a' m' p :
  pow2 (page_size_ a) ->
  Allocate a m size alignment map_beg = Some (a', m', p) ->
  is_uptr p -> page_size_ a < p ->
  PointerIsMine a' m' p = Some true.
Proof.
  intros Hpow HA Hu Hgt. pose proof (pow2_pos _ Hpow) as Hp0.
  assert (Hp : p <> 0) by lia.
  destruct (Allocate_header _ _ _ _ _ _ _ _ HA Hp)
    as (Epage & Hal & Elist & _ & _ & _ & hdr & Hl & Hsz).
  destruct (head_walk_facts a p Hpow Hu Hgt Hal) as (Eh & Hnz & Huser).
  unfold PointerIsMine. rewrite Epage, land_mask, Hal by exact Hpow.
  cbn [Z.eqb negb]. unfold walk_fuel. cbn [PointerIsMine_loop].
  rewrite Elist, Eh in *. rewrite Hnz, Hl.
  unfold GetUser in *. rewrite Epage.
  destruct (urem (p - page_size_ a) (page_size_ a) =? 0); [|discriminate].
  injection Huser as ->. rewrite Z.eqb_refl. reflexivity.
Qed.

Lemma GetBlockBegin_after a m size alignment map_beg a' m' p q :
  pow2 (page_size_ a) ->
  Allocate a m size alignment map_beg = Some (a', m', p) ->
  is_uptr p -> page_size_ a < p -> p + size < kWordMod ->
  p <= q < p + size ->
  GetBlockBegin a' m' q = Some p.
Proof.
  intros Hpow HA Hu Hgt Hend Hq. pose proof (pow2_pos _ Hpow) as Hp0.
  assert (Hp : p <> 0) by lia.
  destruct (Allocate_header _ _ _ _ _ _ _ _ HA Hp)
    as (Epage & Hal & Elist & _ & _ & _ & hdr & Hl & Hsz).
  destruct (head_walk_facts a p Hpow Hu Hgt Hal) as (Eh & Hnz & Huser).
  unfold GetBlockBegin, walk_fuel. cbn [GetBlockBegin_loop].
  rewrite Elist, Eh in *. rewrite Hnz, Hl.
  unfold GetUser in *. rewrite Epage.
  destruct (urem (p - page_size_ a) (page_size_ a) =? 0); [|discriminate].
  injection Huser as ->. rewrite Hsz.
  assert (Es : p +% size = p + size)
    by (apply wrap_small; unfold is_uptr in *; lia).
  rewrite Es, (Zle_imp_le_bool p q), (proj2 (Z.ltb_lt q (p + size))) by lia.
  reflexivity.
Qed.

End LargeMmapAfterAllocate.

Section LargeMmapRoundTrip.
Import LargeMmapAllocator.

(** The state a successful [Allocate] builds, when the new header is not
    the old head of the list. *)
Lemma Allocate_exact a m size alignment map_beg a' m' p :
  Allocate a m size alignment map_beg = Some (a', m', p) -> p <> 0 ->
  p -% page_size_ a <> list_ a ->
  let h := p -% page_size_ a in
  let hdr := {| Header.map_beg := map_beg;
                Header.map_size := MapSize a size alignment;
                Header.size := size; Header.next := list_ a; Header.prev := 0 |} in
  a' = {| page_size_ := page_size_ a; list_ := h |} /\
  mappings m' = (map_beg, MapSize a size alignment) :: mappings m /\
  bytes m' = bytes m /\
  ((list_ a = 0 /\ headers m' = <[h := hdr]> (headers m)) \/
   (list_ a <> 0 /\ exists first,
      headers m !! list_ a = Some first /\
      headers m' = <[list_ a := Header.set_prev first h]> (<[h := hdr]> (headers m)))).
Proof.
  unfold Allocate. intros HA Hp Hne.
  destruct (negb (IsPowerOfTwo alignment)); [discriminate|].
  destruct (Z.ltb_spec (MapSize a size alignment) size) as [|Hge].
  { injection HA as _ _ <-. contradiction. }
  destruct (negb (0 =? _)); [discriminate|].
  destruct (negb (_ <=? _)); [discriminate|].
  unfold GetHeader, urem in HA.
  destruct (_ =? 0); [|discriminate].
  destruct (negb (is_mapped _ _)); [discriminate|].
  destruct (Z.eqb_spec (list_ a) 0) as [E0|N0].
  - injection HA as <- <- <-. cbn [headers bytes mappings].
    repeat (split; [reflexivity|]). left. split; [exact E0|reflexivity].
  - match type of HA with
    | context [<[?h := ?hdr]> (headers m) !! list_ a] =>
        destruct (<[h := hdr]> (headers m) !! list_ a) as [first|] eqn:Hf;
          [|discriminate]
    end.
    injection HA as <- <- <-. cbn [headers bytes mappings] in *.
    rewrite lookup_insert_ne in Hf by exact Hne.
    repeat (split; [reflexivity|]). right. split; [exact N0|].
    exists first. split; [exact Hf|reflexivity].
Qed.

Lemma set_prev_back (first : Header.t) h :
  Header.prev first = 0 -> Header.set_prev (Header.set_prev first h) 0 = first.
Proof. destruct first as [mb ms sz nx pv]. simpl. intros ->. reflexivity. Qed.

Lemma unmap_fresh beg size (maps : list (uptr * uptr)) :
  (beg, size) ∉ maps -> unmap beg size ((beg, size) :: maps) = maps.
Proof.
  intros Hfresh. unfold unmap. cbn [List.filter fst snd].
  rewrite !Z.eqb_refl. cbn [andb negb].
  induction maps as [|[b s] maps IH]; [reflexivity|].
  cbn [List.filter fst snd].
  apply not_elem_of_cons in Hfresh as [Hne Hrest].
  destruct (Z.eqb_spec b beg) as [->|]; [destruct (Z.eqb_spec s size) as [->|]|];
    cbn [andb negb]; try (f_equal; apply IH; exact Hrest).
  contradiction.
Qed.

Lemma Allocate_Deallocate_restores a m size alignment map_beg a' m' p :
  pow2 (page_size_ a) ->
  Allocate a m size alignment map_beg = Some (a', m', p) ->
  is_uptr p -> page_size_ a < p ->
  headers m !! (p - page_size_ a) = None ->
  (map_beg, MapSize a size alignment) ∉ mappings m ->
  (list_ a = 0 \/
   exists first, headers m !! list_ a = Some first /\ Header.prev first = 0) ->
  Deallocate a' m' p = Some (a, m).
Proof.
  intros Hpow HA Hu Hgt Hfresh Hmap Hhead.
  pose proof (pow2_pos _ Hpow) as Hp0.
  assert (Hp : p <> 0) by lia.
  destruct (Allocate_header _ _ _ _ _ _ _ _ HA Hp) as (_ & Hal & _).
  destruct (head_walk_facts a p Hpow Hu Hgt Hal) as (Eh & Hnz & _).
  apply Z.eqb_neq in Hnz.
  assert (Hne : p -% page_size_ a <> list_ a).
  { rewrite Eh. destruct Hhead as [E|(first & Hf & _)]; [lia|].
    intros E. rewrite E in Hfresh.
    pose proof (eq_trans (eq_sym Hf) Hfresh). discriminate. }
  destruct (Allocate_exact _ _ _ _ _ _ _ _ HA Hp Hne) as (-> & Emaps & Ebytes & Hhs).
  rewrite Eh in Hhs.
  destruct a as [page l]. destruct m as [hs bs maps].
  cbn [page_size_ list_ headers bytes mappings] in *.
  destruct m' as [hs' bs' maps']. cbn [headers bytes mappings] in *. subst bs' maps'.
  unfold Deallocate, GetHeader, urem. cbn [page_size_ list_ headers bytes mappings].
  rewrite Hal, Eh. cbn [Z.eqb].
  destruct Hhs as [[-> ->]|(Nl & first & Hf & ->)].
  - rewrite lookup_insert_eq. cbn [Header.prev Header.next Z.eqb].
    rewrite lookup_insert_eq. cbn [Header.map_beg Header.map_size].
    rewrite Z.eqb_refl, delete_insert_id by exact Hfresh.
    rewrite unmap_fresh by exact Hmap. reflexivity.
  - destruct Hhead as [E|(first' & Hf' & Hprev)]; [contradiction|].
    rewrite Hf in Hf'. injection Hf' as <-.
    rewrite lookup_insert_ne by congruence. rewrite lookup_insert_eq.
    cbn [Header.prev Header.next Z.eqb].
    rewrite (proj2 (Z.eqb_neq l 0) Nl).
    rewrite lookup_insert_eq, insert_insert_eq, (set_prev_back first _ Hprev).
    rewrite lookup_insert_ne by congruence. rewrite lookup_insert_eq.
    cbn [Header.map_beg Header.map_size].
    rewrite Z.eqb_refl, delete_insert_ne by congruence.
    rewrite delete_insert_id by exact Hfresh.
    rewrite insert_id by exact Hf.
    rewrite unmap_fresh by exact Hmap. reflexivity.
Qed.

End LargeMmapRoundTrip.

Section LargeMmapTotals.
Import LargeMmapAllocator.

Lemma live_list_insert_other (hs : gmap Z Header.t) (k : uptr) v chain :
  forall l, live_list hs l chain -> k ∉ chain.*1 ->
  live_list (<[k := v]> hs) l chain.
Proof.
  induction chain as [|[h hdr] rest IH]; intros l Hl Hk; simpl in *.
  - exact Hl.
  - destruct Hl as (-> & N & L & R).
    apply not_elem_of_cons in Hk as [Hne Hk].
    split; [reflexivity|]. split; [exact N|]. split.
    + rewrite lookup_insert_ne by congruence. exact L.
    + apply IH; assumption.
Qed.

Lemma live_list_fresh (hs : gmap Z Header.t) (k : uptr) chain :
  forall l, live_list hs l chain -> hs !! k = None -> k ∉ chain.*1.
Proof.
  intros l Hl Hk Hin.
  pose proof (live_list_dom hs chain l Hl k Hin) as Hd.
  apply elem_of_dom in Hd as [x Hx].
  pose proof (eq_trans (eq_sym Hx) Hk). discriminate.
Qed.

(** The live list after a successful [Allocate]: the new header in front
    of the old list, whose first header has a new [prev]. *)
Lemma live_list_after_Allocate a m size alignment map_beg a' m' p chain :
  Allocate a m size alignment map_beg = Some (a', m', p) -> p <> 0 ->
  p -% page_size_ a <> 0 ->
  headers m !! (p -% page_size_ a) = None ->
  live_list (headers m) (list_ a) chain ->
  exists hdr chain',
    live_list (headers m') (list_ a') ((p -% page_size_ a, hdr) :: chain') /\
    Header.size hdr = size /\
    (fun e : uptr * Header.t => Header.size e.2) <$> chain'
      = (fun e : uptr * Header.t => Header.size e.2) <$> chain.
Proof.
  intros HA Hp Hnz Hfresh Hl.
  assert (Hne : p -% page_size_ a <> list_ a).
  { intros E. destruct chain as [|[l first] rest]; simpl in Hl.
    - congruence.
    - destruct Hl as (El & _ & Hf & _). rewrite <- El, <- E in Hf.
      pose proof (eq_trans (eq_sym Hf) Hfresh). discriminate. }
  destruct (Allocate_exact _ _ _ _ _ _ _ _ HA Hp Hne) as (-> & _ & _ & Hhs).
  cbn [list_]. pose proof (live_list_fresh _ _ _ _ Hl Hfresh) as Hnotin.
  destruct Hhs as [[E0 ->]|(Nl & first & Hf & ->)].
  - destruct chain as [|[l first] rest]; simpl in Hl.
    2:{ destruct Hl as (El & N & _). congruence. }
    exists (Header.Build_t map_beg (MapSize a size alignment) size (list_ a) 0). exists []. split; [|split; reflexivity].
    simpl. split; [reflexivity|]. split; [exact Hnz|].
    split; [apply lookup_insert_eq|exact E0].
  - destruct chain as [|[l first'] rest]; simpl in Hl; [contradiction|].
    destruct Hl as (El & N & Hf' & R). subst l.
    pose proof (eq_trans (eq_sym Hf) Hf') as Efirst. injection Efirst as <-.
    pose proof (live_list_NoDup (headers m) ((list_ a, first) :: rest) (list_ a)
                  ltac:(simpl; auto)) as Hnd.
    simpl in Hnd. apply NoDup_cons in Hnd as [Hl_notin _].
    simpl in Hnotin. apply not_elem_of_cons in Hnotin as [_ Hh_notin].
    exists (Header.Build_t map_beg (MapSize a size alignment) size (list_ a) 0). exists ((list_ a, Header.set_prev first (p -% page_size_ a)) :: rest).
    split; [|split; reflexivity].
    simpl. split; [reflexivity|]. split; [exact Hnz|]. split.
    { rewrite lookup_insert_ne by congruence. apply lookup_insert_eq. }
    split; [reflexivity|]. split; [exact Nl|]. split; [apply lookup_insert_eq|].
    destruct first as [mb ms sz nx pv]. simpl in *.
    apply live_list_insert_other; [|exact Hl_notin].
    apply live_list_insert_other; [exact R|exact Hh_notin].
Qed.

Lemma sum_sizes_ext a (c1 c2 : list (uptr * Header.t)) :
  (fun e : uptr * Header.t => Header.size e.2) <$> c1
    = (fun e : uptr * Header.t => Header.size e.2) <$> c2 ->
  forall res,
  fold_left (fun res e => res +% RoundUpMapSize a (Header.size e.2)) c1 res
  = fold_left (fun res e => res +% RoundUpMapSize a (Header.size e.2)) c2 res.
Proof.
  revert c2. induction c1 as [|e1 c1 IH]; intros [|e2 c2] E res;
    try discriminate; [reflexivity|].
  simpl in *. injection E as E1 E. rewrite E1. apply IH. exact E.
Qed.

Lemma fold_sizes_shift a (chain : list (uptr * Header.t)) :
  forall x res,
  fold_left (fun res e => res +% RoundUpMapSize a (Header.size e.2)) chain (res +% x)
  = fold_left (fun res e => res +% RoundUpMapSize a (Header.size e.2)) chain res +% x.
Proof.
  induction chain as [|e chain IH]; intros x res; simpl; [reflexivity|].
  rewrite <- IH. f_equal. unfold uadd. rewrite !wrap_add_l.
  unfold wrap. rewrite <- Z.add_assoc, (Z.add_comm x), Z.add_assoc.
  rewrite <- Zplus_mod_idemp_l. reflexivity.
Qed.

Lemma TotalMemoryUsed_after_Allocate a m size alignment map_beg a' m' p chain :
  Allocate a m size alignment map_beg = Some (a', m', p) -> p <> 0 ->
  p -% page_size_ a <> 0 ->
  headers m !! (p -% page_size_ a) = None ->
  live_list (headers m) (list_ a) chain ->
  TotalMemoryUsed a m = Some (SumMapSizes a chain) /\
  TotalMemoryUsed a' m' = Some (SumMapSizes a chain +% RoundUpMapSize a size).
Proof.
  intros HA Hp Hnz Hfresh Hl. split.
  - unfold TotalMemoryUsed, SumMapSizes.
    apply TotalMemoryUsed_loop_spec; [exact Hl|].
    unfold walk_fuel. pose proof (live_list_length _ _ _ Hl). lia.
  - destruct (live_list_after_Allocate _ _ _ _ _ _ _ _ _ HA Hp Hnz Hfresh Hl)
      as (hdr & chain' & Hl' & Hsz & Hsizes).
    destruct (Allocate_header _ _ _ _ _ _ _ _ HA Hp) as (Epage & _).
    unfold TotalMemoryUsed.
    rewrite (TotalMemoryUsed_loop_spec a' m' _ _ _ _ Hl')
      by (unfold walk_fuel; pose proof (live_list_length _ _ _ Hl'); lia).
    f_equal. simpl. rewrite Hsz.
    assert (ER : forall s, RoundUpMapSize a' s = RoundUpMapSize a s)
      by (intros s; unfold RoundUpMapSize; rewrite Epage; reflexivity).
    rewrite ER.
    assert (EF : forall (c : list (uptr * Header.t)) r,
      fold_left (fun res e => res +% RoundUpMapSize a' (Header.size e.2)) c r
      = fold_left (fun res e => res +% RoundUpMapSize a (Header.size e.2)) c r).
    { induction c as [|e c IHc]; intros r; simpl; [reflexivity|].
      rewrite ER. apply IHc. }
    rewrite EF, fold_sizes_shift.
    unfold SumMapSizes. rewrite (sum_sizes_ext a chain' chain Hsizes). reflexivity.
Qed.

Lemma GetMetaData_in_header_page a p :
  pow2 (page_size_ a) -> 80 <= page_size_ a ->
  is_uptr p -> page_size_ a <= p -> p mod page_size_ a = 0 ->
  GetMetaData a p = Some (p - page_size_ a + kHeaderSize) /\
  p - page_size_ a + kHeaderSize + page_size_ a / 2 <= p.
Proof.
  intros Hpow H80 Hu Hge Hal. unfold GetMetaData, GetHeader, urem, kHeaderSize.
  rewrite Hal. cbn [Z.eqb].
  assert (Eh : p -% page_size_ a = p - page_size_ a)
    by (apply wrap_small; unfold is_uptr in *; lia).
  pose proof (Z.div_mod (page_size_ a) 2 ltac:(lia)) as E.
  pose proof (Z.mod_pos_bound (page_size_ a) 2 ltac:(lia)) as B.
  rewrite Eh. split; [|lia].
  f_equal. apply wrap_small. unfold is_uptr in *. lia.
Qed.

Lemma unaligned_pointer a m p :
  pow2 (page_size_ a) -> p mod page_size_ a <> 0 ->
  PointerIsMine a m p = Some false /\
  Deallocate a m p = None /\
  GetActuallyAllocatedSize a m p = None /\
  GetMetaData a p = None.
Proof.
  intros Hpow Hna.
  unfold PointerIsMine, Deallocate, GetActuallyAllocatedSize, GetMetaData, GetHeader, urem.
  rewrite land_mask by exact Hpow.
  rewrite (proj2 (Z.eqb_neq _ 0) Hna). cbn [negb]. repeat split; reflexivity.
Qed.

End LargeMmapTotals.

(** ** Clearing, and what an allocation leaves alone *)

Lemma internal_memset_loop_spec dst c N n :
  forall i (m : gmap Z Byte.byte),
  0 <= dst -> dst + N <= kWordMod -> 0 <= i -> i + Z.of_nat n = N ->
  (forall j, i <= j < N ->
     load_byte (internal_memset_loop n i dst c m) (dst + j) = c) /\
  (forall q, ~ (dst + i <= q < dst + N) ->
     load_byte (internal_memset_loop n i dst c m) q = load_byte m q).
Proof.
  induction n as [|n IH]; intros i m Hd HdN Hi HiN.
  - simpl. split; [intros j Hj; lia|reflexivity].
  - cbn [internal_memset_loop].
    destruct (Z.eq_dec (i + 1) kWordMod) as [Elast|Nlast].
    + assert (n = O) by lia. subst n. cbn [internal_memset_loop].
      assert (Ed : dst +% i = dst + i) by (apply wrap_small; unfold is_uptr; lia).
      rewrite Ed. split.
      * intros j Hj. assert (j = i) by lia. subst j. apply load_insert_eq.
      * intros q Hq. apply load_insert_ne. lia.
    + assert (Ei : i +% 1 = i + 1) by (apply wrap_small; unfold is_uptr; lia).
      assert (Ed : dst +% i = dst + i) by (apply wrap_small; unfold is_uptr; lia).
      rewrite Ei, Ed.
      destruct (IH (i + 1) (<[dst + i := c]> m)) as [Hin Hout]; try assumption; try lia.
      split.
      * intros j Hj. destruct (Z.eq_dec j i) as [->|Nj].
        -- rewrite Hout by lia. apply load_insert_eq.
        -- apply Hin. lia.
      * intros q Hq. rewrite Hout by lia. apply load_insert_ne. lia.
Qed.

Lemma internal_memset_spec (m : gmap Z Byte.byte) dst c n :
  0 <= dst -> 0 <= n -> dst + n <= kWordMod ->
  (forall j, 0 <= j < n -> load_byte (internal_memset m dst c n) (dst + j) = c) /\
  (forall q, ~ (dst <= q < dst + n) ->
     load_byte (internal_memset m dst c n) q = load_byte m q).
Proof.
  intros Hd Hn HdN. unfold internal_memset.
  destruct (internal_memset_loop_spec dst c n (Z.to_nat n) 0 m) as [Hin Hout];
    try assumption; try lia.
  split; [exact Hin|]. intros q Hq. apply Hout. lia.
Qed.

Lemma LargeMmap_Allocate_bytes a m size alignment map_beg a' m' p :
  LargeMmapAllocator.Allocate a m size alignment map_beg = Some (a', m', p) ->
  bytes m' = bytes m.
Proof.
  unfold LargeMmapAllocator.Allocate.
  repeat match goal with
  | |- context [match ?x with _ => _ end] => destruct x; try discriminate
  end; intros E; injection E as <- <- <-; reflexivity.
Qed.

Lemma PointerIsMine_loop_headers a (m1 m2 : Memory) p :
  headers m1 = headers m2 ->
  forall fuel l,
  LargeMmapAllocator.PointerIsMine_loop fuel a m1 l p
  = LargeMmapAllocator.PointerIsMine_loop fuel a m2 l p.
Proof.
  intros E. induction fuel as [|fuel IH]; intros l; [reflexivity|].
  cbn [LargeMmapAllocator.PointerIsMine_loop]. rewrite E.
  destruct (l =? 0); [reflexivity|].
  destruct (headers m2 !! l); [|reflexivity].
  destruct (LargeMmapAllocator.GetUser a l); [|reflexivity].
  destruct (_ =? p); [reflexivity|]. apply IH.
Qed.

Lemma LargeMmap_PointerIsMine_headers a (m1 m2 : Memory) p :
  headers m1 = headers m2 ->
  LargeMmapAllocator.PointerIsMine a m1 p = LargeMmapAllocator.PointerIsMine a m2 p.
Proof.
  intros E. unfold LargeMmapAllocator.PointerIsMine, LargeMmapAllocator.walk_fuel.
  rewrite E. destruct (negb _); [reflexivity|].
  apply PointerIsMine_loop_headers. exact E.
Qed.

Lemma LargeMmap_GetActuallyAllocatedSize_headers a (m1 m2 : Memory) p :
  headers m1 = headers m2 ->
  LargeMmapAllocator.GetActuallyAllocatedSize a m1 p
  = LargeMmapAllocator.GetActuallyAllocatedSize a m2 p.
Proof.
  intros E. unfold LargeMmapAllocator.GetActuallyAllocatedSize. rewrite E. reflexivity.
Qed.

Section CombinedMore.
Context {A : Type} `{SizeClassAllocator A}.

(** The bytes after the dispatch of [Allocate]: through the cache they
    take the stores of a refill, through the secondary none. *)
Lemma AllocateFrom_bytes (s s' : CombinedAllocator.State) size alignment map_beg res :
  CombinedAllocator.AllocateFrom s size alignment map_beg = Some (s', res) ->
  bytes (CombinedAllocator.memory_ s')
  = if CanAllocate (CombinedAllocator.primary_ s) size alignment
    then SizeClassAllocatorLocalCache.Allocate_stores (CombinedAllocator.cache_ s)
           (CombinedAllocator.primary_ s) (ClassID (CombinedAllocator.primary_ s) size)
           (bytes (CombinedAllocator.memory_ s))
    else bytes (CombinedAllocator.memory_ s).
Proof.
  unfold CombinedAllocator.AllocateFrom.
  destruct (CanAllocate _ _ _).
  - destruct (SizeClassAllocatorLocalCache.Allocate _ _ _) as [[[c a] r]|];
      [|discriminate].
    intros E. injection E as <- <-. reflexivity.
  - destruct (LargeMmapAllocator.Allocate _ _ _ _ _) as [[[a m] r]|] eqn:EA;
      [|discriminate].
    intros E. injection E as <- <-. cbn [CombinedAllocator.memory_].
    eapply LargeMmap_Allocate_bytes. exact EA.
Qed.

(** A cache list that is not empty is not refilled: [Allocate] stores
    nothing. *)
Lemma Allocate_stores_cached (cache : LocalCache) (allocator : A) class_id x
    (fl : AllocatorFreeList) (b : gmap Z Byte.byte) :
  cache !! Z.to_nat class_id = @Some AllocatorFreeList (x :: fl) ->
  SizeClassAllocatorLocalCache.Allocate_stores cache allocator class_id b = b.
Proof.
  intros Hfl. unfold SizeClassAllocatorLocalCache.Allocate_stores.
  rewrite Hfl. reflexivity.
Qed.

Lemma Allocate_unfold (s s' : CombinedAllocator.State) size alignment cleared map_beg res :
  CombinedAllocator.Allocate s size alignment cleared map_beg = Some (s', res) ->
  res <> 0 ->
  let size1 := if size =? 0 then 1 else size in
  let size2 := if 8 <? alignment then RoundUpTo size1 alignment else size1 in
  exists s1,
    CombinedAllocator.AllocateFrom s size2 alignment map_beg = Some (s1, res) /\
    (8 < alignment -> res &% (alignment -% 1) = 0) /\
    s' = if cleared
         then CombinedAllocator.set_bytes s1
                (internal_memset (bytes (CombinedAllocator.memory_ s1)) res Byte.x00 size2)
         else s1.
Proof.
  unfold CombinedAllocator.Allocate. intros HA Hres. cbv zeta.
  destruct (_ <? (if size =? 0 then 1 else size)).
  { injection HA as _ <-. contradiction. }
  destruct (CombinedAllocator.AllocateFrom _ _ _ _) as [[s1 r]|]; [|discriminate].
  destruct (Z.ltb_spec 8 alignment) as [Hal|Hal]; cbn [andb] in HA.
  - destruct (Z.eqb_spec (r &% (alignment -% 1)) 0) as [Ez|Nz]; cbn [negb] in HA;
      [|discriminate].
    destruct cleared; cbn [andb] in HA.
    + destruct (Z.eqb_spec r 0) as [Er|Nr]; cbn [negb] in HA;
        injection HA as <- <-; [contradiction|].
      exists s1. split; [reflexivity|]. split; [intros _; exact Ez|reflexivity].
    + injection HA as <- <-. exists s1.
      split; [reflexivity|]. split; [intros _; exact Ez|reflexivity].
  - destruct cleared; cbn [andb] in HA.
    + destruct (Z.eqb_spec r 0) as [Er|Nr]; cbn [negb] in HA;
        injection HA as <- <-; [contradiction|].
      exists s1. split; [reflexivity|]. split; [intros; lia|reflexivity].
    + injection HA as <- <-. exists s1.
      split; [reflexivity|]. split; [intros; lia|reflexivity].
Qed.

Lemma Allocate_cleared (s s' : CombinedAllocator.State) size alignment map_beg res :
  CombinedAllocator.Allocate s size alignment true map_beg = Some (s', res) ->
  res <> 0 -> 0 <= res ->
  let size1 := if size =? 0 then 1 else size in
  let size2 := if 8 <? alignment then RoundUpTo size1 alignment else size1 in
  let before :=
    if CanAllocate (CombinedAllocator.primary_ s) size2 alignment
    then SizeClassAllocatorLocalCache.Allocate_stores (CombinedAllocator.cache_ s)
           (CombinedAllocator.primary_ s) (ClassID (CombinedAllocator.primary_ s) size2)
           (bytes (CombinedAllocator.memory_ s))
    else bytes (CombinedAllocator.memory_ s) in
  0 <= size2 -> res + size2 <= kWordMod ->
  (forall j, 0 <= j < size2 ->
     load_byte (bytes (CombinedAllocator.memory_ s')) (res + j) = Byte.x00) /\
  (forall q, ~ (res <= q < res + size2) ->
     load_byte (bytes (CombinedAllocator.memory_ s')) q = load_byte before q).
Proof.
  intros HA Hres Hr0 size1 size2 before Hs0 Hfit.
  destruct (Allocate_unfold _ _ _ _ _ _ _ HA Hres) as (s1 & HF & _ & ->).
  fold size1 size2 in HF |- *.
  cbn [CombinedAllocator.set_bytes CombinedAllocator.memory_ bytes].
  destruct (internal_memset_spec (bytes (CombinedAllocator.memory_ s1)) res Byte.x00
              size2 Hr0 Hs0 Hfit) as [Hin Hout].
  split; [exact Hin|]. intros q Hq. rewrite (Hout q Hq).
  rewrite (AllocateFrom_bytes _ _ _ _ _ _ HF). reflexivity.
Qed.

Lemma Allocate_large (s s' : CombinedAllocator.State) size alignment cleared map_beg res :
  let size1 := if size =? 0 then 1 else size in
  let size2 := if 8 <? alignment then RoundUpTo size1 alignment else size1 in
  CanAllocate (CombinedAllocator.primary_ s) size2 alignment = false ->
  CombinedAllocator.Allocate s size alignment cleared map_beg = Some (s', res) ->
  res <> 0 ->
  exists a' m',
    LargeMmapAllocator.Allocate (CombinedAllocator.secondary_ s)
      (CombinedAllocator.memory_ s) size2 alignment map_beg = Some (a', m', res) /\
    CombinedAllocator.primary_ s' = CombinedAllocator.primary_ s /\
    CombinedAllocator.cache_ s' = CombinedAllocator.cache_ s /\
    CombinedAllocator.secondary_ s' = a' /\
    headers (CombinedAllocator.memory_ s') = headers m'.
Proof.
  intros size1 size2 Hcan HA Hres.
  destruct (Allocate_unfold _ _ _ _ _ _ _ HA Hres) as (s1 & HF & _ & ->).
  fold size1 size2 in HF |- *.
  unfold CombinedAllocator.AllocateFrom in HF. rewrite Hcan in HF.
  destruct (LargeMmapAllocator.Allocate _ _ _ _ _) as [[[a' m'] r]|]; [|discriminate].
  injection HF as <- <-. exists a', m'.
  split; [reflexivity|]. destruct cleared; repeat split; reflexivity.
Qed.

Lemma Allocate_large_queries (s s' : CombinedAllocator.State) size alignment cleared
    map_beg res :
  let size1 := if size =? 0 then 1 else size in
  let size2 := if 8 <? alignment then RoundUpTo size1 alignment else size1 in
  let page := LargeMmapAllocator.page_size_ (CombinedAllocator.secondary_ s) in
  pow2 page ->
  CanAllocate (CombinedAllocator.primary_ s) size2 alignment = false ->
  CombinedAllocator.Allocate s size alignment cleared map_beg = Some (s', res) ->
  is_uptr res -> page < res ->
  CombinedAllocator.PointerIsMine s' res = Some true /\
  (PointerIsMine (CombinedAllocator.primary_ s) res = false ->
   CombinedAllocator.GetActuallyAllocatedSize s' res = Some (RoundUpTo size2 page)).
Proof.
  intros size1 size2 page Hpow Hcan HA Hu Hlt.
  assert (Hres : res <> 0) by (pose proof (pow2_pos _ Hpow); lia).
  destruct (Allocate_large _ _ _ _ _ _ _ Hcan HA Hres)
    as (a' & m' & HL & Ep & _ & Es & Eh).
  fold size1 size2 in HL.
  split.
  - unfold CombinedAllocator.PointerIsMine.
    destruct (PointerIsMine _ res); [reflexivity|].
    rewrite Es, (LargeMmap_PointerIsMine_headers a' _ m' res Eh).
    eapply PointerIsMine_after; eassumption.
  - intros Hnot. unfold CombinedAllocator.GetActuallyAllocatedSize.
    rewrite Ep, Hnot, Es, (LargeMmap_GetActuallyAllocatedSize_headers a' _ m' res Eh).
    eapply GetActuallyAllocatedSize_after; eassumption.
Qed.

Lemma SwallowCache_spec (s : CombinedAllocator.State) :
  length (CombinedAllocator.cache_ s) = Z.to_nat SizeClassAllocatorLocalCache.kNumClasses ->
  (forall s', CombinedAllocator.SwallowCache s = Some s' ->
     CombinedAllocator.cache_ s' = SizeClassAllocatorLocalCache.Init) /\
  (drain_takes_all A -> exists s', CombinedAllocator.SwallowCache s = Some s').
Proof.
  intros Hlen. unfold CombinedAllocator.SwallowCache. split.
  - intros s'.
    destruct (SizeClassAllocatorLocalCache.Drain _ _) as [[c a]|] eqn:HD; [|discriminate].
    intros E. injection E as <-. cbn [CombinedAllocator.cache_].
    eapply Drain_empties; eassumption.
  - intros Hbulk.
    destruct (Drain_completes (CombinedAllocator.cache_ s) (CombinedAllocator.primary_ s)
                Hbulk Hlen) as (c & a & HD).
    rewrite HD. eexists. reflexivity.
Qed.

End CombinedMore.

(** ** The doubly-linked list of the secondary *)

Section LargeMmapLinks.
Import LargeMmapAllocator.

Local Abbreviation sizes c := ((fun e : uptr * Header.t => Header.size e.2) <$> c).

Lemma doubly_linked_live (hs : gmap Z Header.t) chain :
  forall pv l, doubly_linked hs pv l chain -> live_list hs l chain.
Proof.
  induction chain as [|[h hdr] rest IH]; intros pv l HD; simpl in *.
  - exact HD.
  - destruct HD as (E & N & L & _ & R). eauto.
Qed.

Lemma doubly_linked_ext (hs1 hs2 : gmap Z Header.t) chain :
  forall pv l,
  (forall k, k ∈ chain.*1 -> hs2 !! k = hs1 !! k) ->
  doubly_linked hs1 pv l chain -> doubly_linked hs2 pv l chain.
Proof.
  induction chain as [|[h hdr] rest IH]; intros pv l Hext HD; simpl in *.
  - exact HD.
  - destruct HD as (E & N & L & P & R).
    split; [exact E|]. split; [exact N|]. split.
    { rewrite Hext by apply list_elem_of_here. exact L. }
    split; [exact P|]. apply IH; [|exact R].
    intros k Hk. apply Hext. apply list_elem_of_further. exact Hk.
Qed.

Lemma doubly_linked_nonzero (hs : gmap Z Header.t) chain :
  forall pv l, doubly_linked hs pv l chain -> 0 ∉ chain.*1.
Proof.
  induction chain as [|[h hdr] rest IH]; intros pv l HD; simpl in *.
  - apply not_elem_of_nil.
  - destruct HD as (E & N & L & P & R).
    apply not_elem_of_cons. split; [congruence|]. eapply IH. exact R.
Qed.

Lemma doubly_linked_lookup (hs : gmap Z Header.t) chain k v :
  forall pv l, doubly_linked hs pv l chain -> (k, v) ∈ chain -> hs !! k = Some v.
Proof.
  induction chain as [|[h hdr] rest IH]; intros pv l HD Hin; simpl in *.
  - apply elem_of_nil in Hin. contradiction.
  - destruct HD as (E & N & L & P & R).
    apply elem_of_cons in Hin as [Heq|Hin].
    + injection Heq as -> ->. exact L.
    + eapply IH; eassumption.
Qed.

(** The header before [h] is the one [prev] names. *)
Lemma doubly_linked_prev (hs : gmap Z Header.t) h hdr post pre :
  forall pv l,
  doubly_linked hs pv l (pre ++ (h, hdr) :: post) ->
  (pre = [] /\ Header.prev hdr = pv) \/
  (pre <> [] /\ Header.prev hdr ∈ pre.*1).
Proof.
  induction pre as [|[x xh] pre1 IH]; intros pv l HD; simpl in HD.
  - left. destruct HD as (_ & _ & _ & P & _). auto.
  - right. split; [discriminate|].
    destruct HD as (_ & _ & _ & _ & R).
    destruct (IH _ _ R) as [[-> P]|[_ Hin]].
    + rewrite P. apply list_elem_of_here.
    + simpl. apply list_elem_of_further. exact Hin.
Qed.

Lemma doubly_linked_middle (hs : gmap Z Header.t) h hdr post pre :
  forall pv l,
  doubly_linked hs pv l (pre ++ (h, hdr) :: post) ->
  h <> 0 /\ hs !! h = Some hdr /\ doubly_linked hs h (Header.next hdr) post.
Proof.
  induction pre as [|[x xh] pre1 IH]; intros pv l HD; simpl in HD.
  - destruct HD as (_ & N & L & _ & R). auto.
  - destruct HD as (_ & _ & _ & _ & R). eapply IH. exact R.
Qed.

Lemma set_prev_fields (nh : Header.t) v :
  Header.prev (Header.set_prev nh v) = v /\
  Header.next (Header.set_prev nh v) = Header.next nh /\
  Header.size (Header.set_prev nh v) = Header.size nh.
Proof. destruct nh. repeat split. Qed.

Lemma set_next_fields (ph : Header.t) v :
  Header.next (Header.set_next ph v) = v /\
  Header.prev (Header.set_next ph v) = Header.prev ph /\
  Header.size (Header.set_next ph v) = Header.size ph.
Proof. destruct ph. repeat split. Qed.

(** Taking [h] out of the list: in a map [hs2] that differs from [hs] only
    at [h], at its predecessor, whose [next] now skips [h], and at its
    successor, whose [prev] now skips it, the rest of the list is linked
    as before. *)
Lemma unlink_chain (hs hs2 : gmap Z Header.t) h hdr post :
  Header.prev hdr ∉ post.*1 ->
  (forall k, k <> h -> k <> Header.prev hdr -> k <> Header.next hdr ->
     hs2 !! k = hs !! k) ->
  (forall ph, Header.prev hdr <> 0 -> hs !! Header.prev hdr = Some ph ->
     hs2 !! Header.prev hdr = Some (Header.set_next ph (Header.next hdr))) ->
  (forall nh, Header.next hdr <> 0 -> hs !! Header.next hdr = Some nh ->
     hs2 !! Header.next hdr = Some (Header.set_prev nh (Header.prev hdr))) ->
  forall pre pv l,
  doubly_linked hs pv l (pre ++ (h, hdr) :: post) ->
  NoDup (pre ++ (h, hdr) :: post).*1 ->
  Header.next hdr ∉ pre.*1 ->
  exists chain',
    doubly_linked hs2 pv (match pre with [] => Header.next hdr | _ => l end) chain' /\
    chain'.*1 = pre.*1 ++ post.*1 /\
    sizes chain' = sizes pre ++ sizes post.
Proof.
  intros Hpv Hother Hprev Hnext.
  induction pre as [|[x xh] pre1 IH]; intros pv l HD Hnd Hnx.
  - simpl in HD, Hnd. destruct HD as (-> & Nh & Lh & Epv & Hpost).
    apply NoDup_cons in Hnd as [Hh_post Hnd_post].
    destruct post as [|[n nh] rest]; simpl in Hpost.
    + exists []. simpl. auto.
    + destruct Hpost as (En & Nn & Ln & Epn & Hrest).
      simpl in Hnd_post. apply NoDup_cons in Hnd_post as [Hn_rest _].
      simpl in Hh_post, Hpv.
      apply not_elem_of_cons in Hh_post as [Hhn Hh_rest].
      apply not_elem_of_cons in Hpv as [Hpn Hp_rest].
      destruct (set_prev_fields nh (Header.prev hdr)) as (F1 & F2 & F3).
      exists ((n, Header.set_prev nh (Header.prev hdr)) :: rest).
      split; [|split; [reflexivity|rewrite !fmap_cons; cbn [snd]; rewrite F3; reflexivity]].
      cbn [doubly_linked]. split; [exact En|]. split; [exact Nn|]. split.
      { rewrite <- En. apply Hnext; rewrite En; assumption. }
      split; [rewrite F1; exact Epv|]. rewrite F2.
      eapply doubly_linked_ext; [|exact Hrest].
      intros k Hk. apply Hother; intros E; rewrite E in Hk.
      * exact (Hh_rest Hk).
      * exact (Hp_rest Hk).
      * rewrite En in Hk. exact (Hn_rest Hk).
  - simpl in HD, Hnd. destruct HD as (-> & Nx & Lx & Epx & R).
    apply NoDup_cons in Hnd as [Hx_rest Hnd1].
    simpl in Hnx. apply not_elem_of_cons in Hnx as [Hnx_x Hnx1].
    destruct (IH _ _ R Hnd1 Hnx1) as (chain1 & HD1 & Ha1 & Hs1).
    assert (Hxh : x <> h).
    { intros ->. apply Hx_rest. rewrite fmap_app. apply elem_of_app. right.
      apply list_elem_of_here. }
    destruct (doubly_linked_prev _ _ _ _ _ _ _ R) as [[-> Ep]|[Hne Hin]].
    + (* [x] is the predecessor of [h] *)
      simpl in R. destruct R as (Enx & _).
      destruct (set_next_fields xh (Header.next hdr)) as (F1 & F2 & F3).
      exists ((x, Header.set_next xh (Header.next hdr)) :: chain1).
      split; [|split; [rewrite !fmap_cons, Ha1; reflexivity|rewrite !fmap_cons, Hs1; cbn [snd]; rewrite F3; reflexivity]].
      cbn [doubly_linked]. split; [reflexivity|]. split; [exact Nx|]. split.
      { rewrite <- Ep. apply Hprev; rewrite Ep; assumption. }
      split; [rewrite F2; exact Epx|]. rewrite F1. exact HD1.
    + exists ((x, xh) :: chain1).
      split; [|split; [rewrite !fmap_cons, Ha1; reflexivity|rewrite !fmap_cons, Hs1; reflexivity]].
      cbn [doubly_linked]. split; [reflexivity|]. split; [exact Nx|]. split.
      { rewrite Hother; [exact Lx|exact Hxh| |congruence].
        intros ->. apply Hx_rest. rewrite fmap_app. apply elem_of_app. left.
        exact Hin. }
      split; [exact Epx|].
      destruct pre1 as [|e pre2]; [contradiction|]. exact HD1.
Qed.

Lemma Deallocate_unlinks a m p h hdr pre post :
  GetHeader a p = Some h ->
  doubly_linked (headers m) 0 (list_ a) (pre ++ (h, hdr) :: post) ->
  exists a' m' chain',
    Deallocate a m p = Some (a', m') /\
    page_size_ a' = page_size_ a /\
    doubly_linked (headers m') 0 (list_ a') chain' /\
    chain'.*1 = pre.*1 ++ post.*1 /\
    sizes chain' = sizes pre ++ sizes post /\
    headers m' !! h = None /\ bytes m' = bytes m /\
    mappings m' = unmap (Header.map_beg hdr) (Header.map_size hdr) (mappings m).
Proof.
  intros HG HD.
  pose proof (live_list_NoDup _ _ _ (doubly_linked_live _ _ _ _ HD)) as Hnd.
  pose proof (doubly_linked_nonzero _ _ _ _ HD) as Hnz.
  destruct (doubly_linked_middle _ _ _ _ _ _ _ HD) as (Nh & Lh & Hpost).
  rewrite fmap_app in Hnd, Hnz. simpl in Hnd, Hnz.
  apply NoDup_app in Hnd as (Hnd_pre & Hdisj & Hnd_post).
  apply NoDup_cons in Hnd_post as [Hh_post Hnd_post].
  assert (Hh_pre : h ∉ pre.*1).
  { intros Hin. apply (Hdisj _ Hin). apply list_elem_of_here. }
  assert (Hz_pre : 0 ∉ pre.*1).
  { intros Hin. apply Hnz. apply elem_of_app. left. exact Hin. }
  assert (Hz_post : 0 ∉ post.*1).
  { intros Hin. apply Hnz. apply elem_of_app. right.
    apply list_elem_of_further. exact Hin. }
  (* the predecessor *)
  assert (Hprev : (pre = [] /\ Header.prev hdr = 0 /\ list_ a = h) \/
                  (pre <> [] /\ Header.prev hdr ∈ pre.*1 /\ list_ a <> h /\
                   exists ph, headers m !! Header.prev hdr = Some ph)).
  { destruct (doubly_linked_prev _ _ _ _ _ _ _ HD) as [[-> P]|[Hne Hin]].
    - left. simpl in HD. destruct HD as (E & _). auto.
    - right. split; [exact Hne|]. split; [exact Hin|]. split.
      + destruct pre as [|[x xh] pre1]; [contradiction|].
        simpl in HD. destruct HD as (-> & _). intros ->.
        apply Hh_pre. apply list_elem_of_here.
      + apply list_elem_of_fmap in Hin as ([k ph] & Ek & Hin). simpl in Ek.
        exists ph. rewrite Ek. eapply doubly_linked_lookup; [exact HD|].
        apply elem_of_app. left. exact Hin. }
  (* the successor *)
  assert (Hnext : (post = [] /\ Header.next hdr = 0) \/
                  (Header.next hdr ∈ post.*1 /\
                   exists nh, headers m !! Header.next hdr = Some nh)).
  { destruct post as [|[n nh] rest]; simpl in Hpost.
    - left. auto.
    - right. destruct Hpost as (-> & _ & Ln & _). split; [apply list_elem_of_here|].
      exists nh. exact Ln. }
  assert (Hpv_post : Header.prev hdr ∉ post.*1).
  { destruct Hprev as [(_ & -> & _)|(_ & Hin & _)]; [exact Hz_post|].
    intros Hin'. apply (Hdisj _ Hin). apply list_elem_of_further. exact Hin'. }
  assert (Hnx_pre : Header.next hdr ∉ pre.*1).
  { destruct Hnext as [(_ & ->)|(Hin & _)]; [exact Hz_pre|].
    intros Hin'. apply (Hdisj _ Hin'). apply list_elem_of_further. exact Hin. }
  assert (Hpv_h : Header.prev hdr <> h).
  { intros E. destruct Hprev as [(_ & Z0 & _)|(_ & Hin & _)]; [congruence|].
    rewrite E in Hin. exact (Hh_pre Hin). }
  assert (Hnx_h : Header.next hdr <> h).
  { intros E. destruct Hnext as [(_ & Z0)|(Hin & _)]; [congruence|].
    rewrite E in Hin. exact (Hh_post Hin). }
  assert (Hpn : Header.prev hdr <> 0 -> Header.prev hdr <> Header.next hdr).
  { intros Np E. destruct Hprev as [(_ & Z0 & _)|(_ & Hin & _)]; [contradiction|].
    apply Hnx_pre. rewrite <- E. exact Hin. }
  unfold Deallocate. rewrite HG, Lh. cbv zeta.
  set (prev := Header.prev hdr) in *. set (next := Header.next hdr) in *.
  assert (Hshape : exists hs2,
    (match
       (if prev =? 0 then Some (headers m)
        else match headers m !! prev with
             | Some ph => Some (<[prev := Header.set_next ph next]> (headers m))
             | None => None
             end)
     with
     | Some hs =>
         match
           (if next =? 0 then Some hs
            else match hs !! next with
                 | Some nh => Some (<[next := Header.set_prev nh prev]> hs)
                 | None => None
                 end)
         with
         | Some hs => Some hs
         | None => None
         end
     | None => None
     end) = Some hs2 /\
    hs2 !! h = Some hdr /\
    (forall k, k <> h -> k <> prev -> k <> next -> hs2 !! k = headers m !! k) /\
    (forall ph, prev <> 0 -> headers m !! prev = Some ph ->
       hs2 !! prev = Some (Header.set_next ph next)) /\
    (forall nh, next <> 0 -> headers m !! next = Some nh ->
       hs2 !! next = Some (Header.set_prev nh prev))).
  { destruct (Z.eqb_spec prev 0) as [Ep|Np]; destruct (Z.eqb_spec next 0) as [En|Nn].
    - eexists. split; [reflexivity|]. split; [exact Lh|].
      split; [reflexivity|]. split; intros; contradiction.
    - destruct Hnext as [(_ & Z0)|(_ & nh & Ln)]; [contradiction|].
      rewrite Ln. eexists. split; [reflexivity|].
      split; [rewrite lookup_insert_ne by congruence; exact Lh|].
      split; [intros k K1 K2 K3; rewrite lookup_insert_ne by congruence; reflexivity|].
      split; [intros; contradiction|].
      intros nh' _ Ln'. rewrite lookup_insert_eq. congruence.
    - destruct Hprev as [(_ & Z0 & _)|(_ & _ & _ & ph & Lp)]; [contradiction|].
      rewrite Lp. eexists. split; [reflexivity|].
      split; [rewrite lookup_insert_ne by congruence; exact Lh|].
      split; [intros k K1 K2 K3; rewrite lookup_insert_ne by congruence; reflexivity|].
      split; [|intros; contradiction].
      intros ph' _ Lp'. rewrite lookup_insert_eq. congruence.
    - destruct Hnext as [(_ & Z0)|(_ & nh & Ln)]; [contradiction|].
      destruct Hprev as [(_ & Z0 & _)|(_ & _ & _ & ph & Lp)]; [contradiction|].
      specialize (Hpn Np).
      rewrite Lp. rewrite lookup_insert_ne by exact Hpn. rewrite Ln.
      eexists. split; [reflexivity|].
      split; [rewrite !lookup_insert_ne by congruence; exact Lh|].
      split; [intros k K1 K2 K3; rewrite !lookup_insert_ne by congruence; reflexivity|].
      split.
      + intros ph' _ Lp'. rewrite lookup_insert_ne by congruence.
        rewrite lookup_insert_eq. congruence.
      + intros nh' _ Ln'. rewrite lookup_insert_eq. congruence. }
  destruct Hshape as (hs2 & Ehs2 & Lh2 & Hother & Hp2 & Hn2).
  destruct (if prev =? 0 then Some (headers m) else _) as [hs1|]; [|discriminate].
  destruct (if next =? 0 then Some hs1 else _) as [hs1'|]; [|discriminate].
  injection Ehs2 as ->. rewrite Lh2.
  destruct (unlink_chain (headers m) (delete h hs2) h hdr post) with
    (pre := pre) (pv := 0) (l := list_ a) as (chain' & HD' & Ha' & Hs').
  - exact Hpv_post.
  - intros k K1 K2 K3. rewrite lookup_delete_ne by congruence. apply Hother; assumption.
  - intros ph Np Lp. rewrite lookup_delete_ne by (intros E; apply Hpv_h; symmetry; exact E).
    apply Hp2; assumption.
  - intros nh Nn Ln. rewrite lookup_delete_ne by (intros E; apply Hnx_h; symmetry; exact E).
    apply Hn2; assumption.
  - exact HD.
  - rewrite fmap_app. apply NoDup_app. split; [exact Hnd_pre|]. split; [exact Hdisj|].
    simpl. apply NoDup_cons. split; assumption.
  - exact Hnx_pre.
  - eexists _, _, chain'. split; [reflexivity|]. cbn [page_size_ list_ headers bytes mappings].
    split; [reflexivity|]. split.
    { destruct Hprev as [(-> & _ & E)|(Hne & _ & Nl & _)].
      - rewrite E, Z.eqb_refl. exact HD'.
      - rewrite (proj2 (Z.eqb_neq h (list_ a))) by congruence.
        destruct pre; [contradiction|exact HD']. }
    split; [exact Ha'|]. split; [exact Hs'|].
    split; [apply lookup_delete_eq|]. split; reflexivity.
Qed.

End LargeMmapLinks.

Section LargeMmapInvariant.
Import LargeMmapAllocator.

Local Abbreviation sizes c := ((fun e : uptr * Header.t => Header.size e.2) <$> c).

Lemma GetHeader_aligned a p h :
  pow2 (page_size_ a) -> GetHeader a p = Some h ->
  p mod page_size_ a = 0 /\ h = p -% page_size_ a /\
  is_uptr h /\ h mod page_size_ a = 0.
Proof.
  intros Hpow. unfold GetHeader, urem.
  destruct (Z.eqb_spec (p mod page_size_ a) 0) as [Hal|]; [|discriminate].
  intros E. injection E as <-. pose proof (pow2_pos _ Hpow).
  split; [exact Hal|]. split; [reflexivity|]. split; [apply wrap_is_uptr|].
  unfold usub, wrap.
  rewrite Z.mod_mod_divide by (apply pow2_divides_word; exact Hpow).
  rewrite <- Zminus_mod_idemp_r, Z.mod_same, Z.sub_0_r by lia. exact Hal.
Qed.

Lemma aligned_chain (a : t) (chain : list (uptr * Header.t)) :
  Forall (fun h : uptr => is_uptr h /\ h mod page_size_ a = 0) chain.*1 ->
  Forall (fun e : uptr * Header.t => e.1 mod page_size_ a = 0) chain.
Proof.
  rewrite Forall_fmap. intros HF. eapply Forall_impl; [exact HF|].
  intros [h hdr] [_ Hal]. exact Hal.
Qed.

(** [Allocate] puts the new header in front and keeps the list doubly
    linked. *)
Lemma doubly_linked_after_Allocate a m size alignment map_beg a' m' p chain :
  Allocate a m size alignment map_beg = Some (a', m', p) -> p <> 0 ->
  p -% page_size_ a <> 0 ->
  headers m !! (p -% page_size_ a) = None ->
  doubly_linked (headers m) 0 (list_ a) chain ->
  exists hdr chain',
    doubly_linked (headers m') 0 (list_ a') ((p -% page_size_ a, hdr) :: chain') /\
    Header.size hdr = size /\
    chain'.*1 = chain.*1 /\ sizes chain' = sizes chain.
Proof.
  intros HA Hp Hnz Hfresh HD.
  pose proof (doubly_linked_live _ _ _ _ HD) as Hl.
  assert (Hne : p -% page_size_ a <> list_ a).
  { intros E. destruct chain as [|[l first] rest]; simpl in Hl.
    - congruence.
    - destruct Hl as (El & _ & Hf & _). rewrite <- El, <- E in Hf.
      pose proof (eq_trans (eq_sym Hf) Hfresh). discriminate. }
  destruct (Allocate_exact _ _ _ _ _ _ _ _ HA Hp Hne) as (-> & _ & _ & Hhs).
  cbn [list_]. pose proof (live_list_fresh _ _ _ _ Hl Hfresh) as Hnotin.
  exists (Header.Build_t map_beg (MapSize a size alignment) size (list_ a) 0).
  destruct Hhs as [[E0 ->]|(Nl & first & Hf & ->)].
  - destruct chain as [|[l first] rest]; simpl in HD.
    2:{ destruct HD as (El & N & _). congruence. }
    exists []. split; [|repeat split; reflexivity].
    cbn [doubly_linked Header.prev Header.next].
    split; [reflexivity|]. split; [exact Hnz|].
    split; [apply lookup_insert_eq|]. split; [reflexivity|exact E0].
  - destruct chain as [|[l first'] rest]; simpl in HD; [contradiction|].
    destruct HD as (El & N & Hf' & Epv & R). subst l.
    pose proof (eq_trans (eq_sym Hf) Hf') as Efirst. injection Efirst as <-.
    pose proof (live_list_NoDup _ _ _ Hl) as Hnd.
    simpl in Hnd. apply NoDup_cons in Hnd as [Hl_notin _].
    simpl in Hnotin. apply not_elem_of_cons in Hnotin as [_ Hh_notin].
    destruct (set_prev_fields first (p -% page_size_ a)) as (F1 & F2 & F3).
    exists ((list_ a, Header.set_prev first (p -% page_size_ a)) :: rest).
    split; [|split; [reflexivity|split; [reflexivity|]]].
    2:{ rewrite !fmap_cons. cbn [snd]. rewrite F3. reflexivity. }
    cbn [doubly_linked Header.prev Header.next].
    split; [reflexivity|]. split; [exact Hnz|]. split.
    { rewrite lookup_insert_ne by congruence. apply lookup_insert_eq. }
    split; [reflexivity|]. split; [reflexivity|]. split; [exact Nl|].
    split; [apply lookup_insert_eq|]. split; [exact F1|]. rewrite F2.
    eapply doubly_linked_ext; [|exact R].
    intros k Hk. rewrite !lookup_insert_ne; [reflexivity| |].
    + intros E. rewrite <- E in Hk. exact (Hh_notin Hk).
    + intros E. rewrite <- E in Hk. exact (Hl_notin Hk).
Qed.

Lemma Allocate_keeps_invariant a m size alignment map_beg a' m' p chain :
  pow2 (page_size_ a) ->
  list_invariant a m chain ->
  Allocate a m size alignment map_beg = Some (a', m', p) -> p <> 0 ->
  p -% page_size_ a <> 0 ->
  headers m !! (p -% page_size_ a) = None ->
  exists hdr chain',
    list_invariant a' m' ((p -% page_size_ a, hdr) :: chain') /\
    Header.size hdr = size /\
    chain'.*1 = chain.*1 /\ sizes chain' = sizes chain.
Proof.
  intros Hpow [HD Hal] HA Hp Hnz Hfresh.
  destruct (doubly_linked_after_Allocate _ _ _ _ _ _ _ _ _ HA Hp Hnz Hfresh HD)
    as (hdr & chain' & HD' & Hsz & Ha' & Hs').
  destruct (Allocate_header _ _ _ _ _ _ _ _ HA Hp) as (Epage & Halp & _).
  exists hdr, chain'. split; [|auto].
  split; [exact HD'|]. rewrite fmap_cons, Ha', Epage. cbn [fst].
  apply Forall_cons. split; [|exact Hal].
  assert (HG : GetHeader a p = Some (p -% page_size_ a)).
  { unfold GetHeader, urem. rewrite Halp. reflexivity. }
  destruct (GetHeader_aligned _ _ _ Hpow HG) as (_ & _ & Hu & Hh). auto.
Qed.

Lemma Deallocate_keeps_invariant a m p h hdr pre post :
  list_invariant a m (pre ++ (h, hdr) :: post) ->
  GetHeader a p = Some h ->
  exists a' m' chain',
    Deallocate a m p = Some (a', m') /\
    page_size_ a' = page_size_ a /\
    list_invariant a' m' chain' /\
    chain'.*1 = pre.*1 ++ post.*1 /\
    sizes chain' = sizes pre ++ sizes post /\
    headers m' !! h = None /\ bytes m' = bytes m /\
    mappings m' = unmap (Header.map_beg hdr) (Header.map_size hdr) (mappings m).
Proof.
  intros [HD Hal] HG.
  destruct (Deallocate_unlinks _ _ _ _ _ _ _ HG HD)
    as (a' & m' & chain' & HDe & Epage & HD' & Ha' & Hrest).
  exists a', m', chain'. split; [exact HDe|]. split; [exact Epage|].
  split; [|auto]. split; [exact HD'|].
  rewrite Ha', Epage. rewrite fmap_app, fmap_cons in Hal.
  apply Forall_app in Hal as [Hpre Hpost].
  apply Forall_cons in Hpost as [_ Hpost].
  apply Forall_app. auto.
Qed.

(** After [Deallocate] the pointer is no longer in the list, and every
    other block still is. *)
Lemma Deallocate_forgets a m p h hdr pre post a' m' :
  pow2 (page_size_ a) ->
  list_invariant a m (pre ++ (h, hdr) :: post) ->
  GetHeader a p = Some h ->
  Deallocate a m p = Some (a', m') ->
  PointerIsMine a' m' p = Some false /\
  forall k, k ∈ pre.*1 ++ post.*1 ->
    PointerIsMine a' m' (k +% page_size_ a) = Some true.
Proof.
  intros Hpow Hinv HG HDe.
  destruct (Deallocate_keeps_invariant _ _ _ _ _ _ _ Hinv HG)
    as (a2 & m2 & chain' & HDe2 & Epage & [HD' Hal'] & Ha' & _).
  rewrite HDe in HDe2. injection HDe2 as <- <-.
  pose proof Hpow as Hpow'. rewrite <- Epage in Hpow'.
  pose proof (PointerIsMine_walk a' m' p chain' Hpow'
                (doubly_linked_live _ _ _ _ HD') (aligned_chain _ _ Hal')) as Hmine.
  destruct Hinv as [HD Hal].
  pose proof (live_list_NoDup _ _ _ (doubly_linked_live _ _ _ _ HD)) as Hnd.
  rewrite fmap_app, fmap_cons in Hnd. cbn [fst] in Hnd.
  apply NoDup_app in Hnd as (_ & Hdisj & Hnd_post).
  apply NoDup_cons in Hnd_post as [Hh_post _].
  assert (Hh : h ∉ chain'.*1).
  { rewrite Ha'. intros Hin. apply elem_of_app in Hin as [Hin|Hin].
    - apply (Hdisj _ Hin). apply list_elem_of_here.
    - exact (Hh_post Hin). }
  destruct (GetHeader_aligned _ _ _ Hpow HG) as (Hp_al & Eh & Hu_h & Hal_h).
  pose proof (pow2_pos _ Hpow) as Hpos.
  assert (Hback : forall k, is_uptr k -> k +% page_size_ a = p -> k = h).
  { intros k Hk E. rewrite Eh, <- E. unfold usub, uadd.
    rewrite wrap_sub_l. replace (k + page_size_ a - page_size_ a) with k by lia.
    symmetry. apply wrap_small. exact Hk. }
  split.
  - rewrite Hmine. f_equal. apply not_true_is_false. intros Hex.
    apply existsb_exists in Hex as ([k v] & Hin & Heq).
    apply Z.eqb_eq in Heq. cbn [fst] in Heq. rewrite Epage in Heq.
    apply list_elem_of_In in Hin.
    assert (Hk : k ∈ chain'.*1).
    { apply list_elem_of_fmap. exists (k, v). auto. }
    rewrite Forall_forall in Hal'. destruct (Hal' _ Hk) as [Hku _].
    rewrite (Hback k Hku Heq) in Hk. exact (Hh Hk).
  - intros k Hk. rewrite <- Ha' in Hk.
    rewrite (PointerIsMine_walk a' m' _ chain' Hpow'
               (doubly_linked_live _ _ _ _ HD') (aligned_chain _ _ Hal')).
    f_equal. apply existsb_exists.
    apply list_elem_of_fmap in Hk as ([k' v] & Ek & Hin). cbn [fst] in Ek. subst k'.
    exists (k, v). split; [apply list_elem_of_In; exact Hin|].
    cbn [fst]. rewrite Epage. apply Z.eqb_refl.
Qed.

Lemma sum_sizes_app a (c1 c2 : list (uptr * Header.t)) :
  foldr (fun (e : uptr * Header.t) acc =>
           RoundUpTo (Header.size e.2) (page_size_ a) + page_size_ a + acc) 0 (c1 ++ c2)
  = foldr (fun (e : uptr * Header.t) acc =>
             RoundUpTo (Header.size e.2) (page_size_ a) + page_size_ a + acc) 0 c1
    + foldr (fun (e : uptr * Header.t) acc =>
               RoundUpTo (Header.size e.2) (page_size_ a) + page_size_ a + acc) 0 c2.
Proof. induction c1 as [|e c1 IH]; simpl; [reflexivity|]. rewrite IH. lia. Qed.

Lemma sum_sizes_sizes a (c1 c2 : list (uptr * Header.t)) :
  sizes c1 = sizes c2 ->
  foldr (fun (e : uptr * Header.t) acc =>
           RoundUpTo (Header.size e.2) (page_size_ a) + page_size_ a + acc) 0 c1
  = foldr (fun (e : uptr * Header.t) acc =>
             RoundUpTo (Header.size e.2) (page_size_ a) + page_size_ a + acc) 0 c2.
Proof.
  revert c2. induction c1 as [|e1 c1 IH]; intros [|e2 c2] E; try discriminate;
    [reflexivity|].
  rewrite !fmap_cons in E. injection E as E1 E. simpl. rewrite E1, (IH _ E).
  reflexivity.
Qed.

Lemma SumMapSizes_wrap a (chain : list (uptr * Header.t)) :
  SumMapSizes a chain
  = wrap (foldr (fun (e : uptr * Header.t) acc =>
                   RoundUpTo (Header.size e.2) (page_size_ a) + page_size_ a + acc)
            0 chain).
Proof.
  unfold SumMapSizes. change 0 with (wrap 0) at 1.
  rewrite fold_map_sizes_wrap. reflexivity.
Qed.

(** [Deallocate] takes the mapping of the block, header page included, off
    the total. *)
Lemma TotalMemoryUsed_after_Deallocate a m p h hdr pre post a' m' :
  list_invariant a m (pre ++ (h, hdr) :: post) ->
  GetHeader a p = Some h ->
  Deallocate a m p = Some (a', m') ->
  exists before after,
    TotalMemoryUsed a m = Some before /\
    TotalMemoryUsed a' m' = Some after /\
    before = after +% RoundUpMapSize a (Header.size hdr).
Proof.
  intros Hinv HG HDe.
  destruct (Deallocate_keeps_invariant _ _ _ _ _ _ _ Hinv HG)
    as (a2 & m2 & chain' & HDe2 & Epage & [HD' _] & _ & Hs' & _).
  rewrite HDe in HDe2. injection HDe2 as <- <-.
  destruct Hinv as [HD _].
  pose proof (doubly_linked_live _ _ _ _ HD) as Hl.
  pose proof (doubly_linked_live _ _ _ _ HD') as Hl'.
  exists (SumMapSizes a (pre ++ (h, hdr) :: post)), (SumMapSizes a' chain').
  split; [|split].
  - unfold TotalMemoryUsed, SumMapSizes. apply TotalMemoryUsed_loop_spec; [exact Hl|].
    unfold walk_fuel. pose proof (live_list_length _ _ _ Hl). lia.
  - unfold TotalMemoryUsed, SumMapSizes. apply TotalMemoryUsed_loop_spec; [exact Hl'|].
    unfold walk_fuel. pose proof (live_list_length _ _ _ Hl'). lia.
  - rewrite !SumMapSizes_wrap, Epage.
    rewrite <- fmap_app in Hs'. rewrite (sum_sizes_sizes a _ _ Hs').
    rewrite !sum_sizes_app. cbn [foldr snd].
    unfold RoundUpMapSize, uadd. rewrite wrap_add_l.
    unfold wrap. rewrite Zplus_mod_idemp_r. f_equal. lia.
Qed.

End LargeMmapInvariant.

(** ** The secondary: what its users see *)

Ltac word_facts := unfold is_uptr; rewrite ?kWordMod_val; lia.

Lemma TwoBlocks_invariant :
  LargeMmapAllocator.list_invariant TwoBlocks TwoBlocksMemory TwoBlocksChain.
Proof.
  split.
  - cbn [LargeMmapAllocator.doubly_linked TwoBlocksChain TwoBlocks
         LargeMmapAllocator.list_ Header.next Header.prev].
    repeat split; try discriminate.
  - repeat constructor; try discriminate.
Qed.

Lemma TwoBlocks_live :
  LargeMmapAllocator.live_list (headers TwoBlocksMemory)
    (LargeMmapAllocator.list_ TwoBlocks) TwoBlocksChain.
Proof. eapply doubly_linked_live. apply TwoBlocks_invariant. Qed.

Lemma TwoBlocks_aligned :
  Forall (fun e : uptr * Header.t =>
            e.1 mod LargeMmapAllocator.page_size_ TwoBlocks = 0) TwoBlocksChain.
Proof. apply aligned_chain. apply TwoBlocks_invariant. Qed.

(** [TwoBlocks] is the state two calls of [Allocate] lead to from [Init]. *)
Lemma TwoBlocks_reached a m p :
  LargeMmapAllocator.Allocate (LargeMmapAllocator.Init 4096) empty_memory
    5000 8 0x10000 = Some (a, m, p) ->
  exists m2,
    LargeMmapAllocator.Allocate a m 100 8 0x20000 = Some (TwoBlocks, m2, 0x21000) /\
    headers m2 = headers TwoBlocksMemory /\
    mappings m2 = mappings TwoBlocksMemory.
Proof.
  intros E. vm_compute in E. injection E as <- <- <-.
  eexists. split; [vm_compute; reflexivity|]. split; vm_compute; reflexivity.
Qed.

Lemma Allocate_result_is_uptr a m size alignment map_beg a' m' p :
  LargeMmapAllocator.Allocate a m size alignment map_beg = Some (a', m', p) ->
  is_uptr p.
Proof.
  unfold LargeMmapAllocator.Allocate.
  destruct (negb (IsPowerOfTwo alignment)); [discriminate|].
  destruct (_ <? size).
  { intros E. injection E as _ _ <-. word_facts. }
  destruct (negb (0 =? _)); [discriminate|].
  destruct (negb (_ <=? _)); [discriminate|].
  destruct (LargeMmapAllocator.GetHeader _ _); [|discriminate].
  destruct (negb (is_mapped _ _)); [discriminate|].
  destruct (if LargeMmapAllocator.list_ a =? 0 then _ else _); [|discriminate].
  intros E. injection E as _ _ <-.
  unfold LargeMmapAllocator.AlignedUser.
  destruct (_ =? 0); apply wrap_is_uptr.
Qed.

Lemma LargeMmap_PointerIsMine_live_witness :
  exists b,
    LargeMmapAllocator.PointerIsMine TwoBlocks TwoBlocksMemory 0x11000 = Some b /\
    (b = true <->
     exists e, e ∈ TwoBlocksChain /\
               LargeMmapAllocator.GetUser TwoBlocks e.1 = Some 0x11000).
Proof.
  exact (LargeMmap_PointerIsMine_live TwoBlocks TwoBlocksMemory 0x11000 TwoBlocksChain
           pow2_4096 TwoBlocks_live TwoBlocks_aligned).
Defined.

Lemma LargeMmap_GetBlockBegin_live_witness :
  exists b,
    LargeMmapAllocator.GetBlockBegin TwoBlocks TwoBlocksMemory 0x11234 = Some b /\
    ((exists e, e ∈ TwoBlocksChain /\
                b = e.1 +% LargeMmapAllocator.page_size_ TwoBlocks /\
                b <= 0x11234 < b +% Header.size e.2) \/
     (b = 0 /\
      forall e, e ∈ TwoBlocksChain ->
        ~ (e.1 +% LargeMmapAllocator.page_size_ TwoBlocks <= 0x11234
           < e.1 +% LargeMmapAllocator.page_size_ TwoBlocks +% Header.size e.2))).
Proof.
  exact (LargeMmap_GetBlockBegin_live TwoBlocks TwoBlocksMemory 0x11234 TwoBlocksChain
           TwoBlocks_live TwoBlocks_aligned).
Defined.

(** X15. A block [Allocate] has just returned is known to the queries:
    [PointerIsMine] answers true for its address, [GetBlockBegin] maps every
    address of the block to its start, and [GetActuallyAllocatedSize] is at
    least the size asked for.  The block is assumed to lie above the first
    page and to end inside the address space. *)
Theorem LargeMmap_Allocate_then_queries a m size alignment map_beg a' m' p :
  pow2 (LargeMmapAllocator.page_size_ a) -> pow2 alignment -> is_uptr size ->
  LargeMmapAllocator.Allocate a m size alignment map_beg = Some (a', m', p) ->
  LargeMmapAllocator.page_size_ a < p -> p + size < kWordMod ->
  LargeMmapAllocator.PointerIsMine a' m' p = Some true /\
  (forall q, p <= q < p + size ->
     LargeMmapAllocator.GetBlockBegin a' m' q = Some p) /\
  exists n, LargeMmapAllocator.GetActuallyAllocatedSize a' m' p = Some n /\ size <= n.
Proof.
  intros Hpow Hal Hsize HA Hlt Hend.
  pose proof (Allocate_result_is_uptr _ _ _ _ _ _ _ _ HA) as Hu.
  pose proof (pow2_pos _ Hpow) as Hpos.
  assert (Hp : p <> 0) by lia.
  split; [eapply PointerIsMine_after; eassumption|].
  split; [intros q Hq; eapply GetBlockBegin_after; eassumption|].
  eexists. split; [eapply GetActuallyAllocatedSize_after; eassumption|].
  apply RoundUpTo_ge; [exact Hpow|exact Hsize|].
  pose proof (Allocate_rounding_fits _ _ _ _ _ _ _ _ Hpow Hal Hsize HA Hp) as Hfit.
  unfold LargeMmapAllocator.MapSizeExact in Hfit.
  pose proof (pow2_pos _ Hal).
  destruct (_ <? alignment); lia.
Qed.

Lemma LargeMmap_Allocate_then_queries_witness :
  exists a' m' p,
    LargeMmapAllocator.Allocate TwoBlocks TwoBlocksMemory 6000 8 0x30000
      = Some (a', m', p) /\
    LargeMmapAllocator.PointerIsMine a' m' p = Some true /\
    (forall q, p <= q < p + 6000 ->
       LargeMmapAllocator.GetBlockBegin a' m' q = Some p) /\
    exists n, LargeMmapAllocator.GetActuallyAllocatedSize a' m' p = Some n /\ 6000 <= n.
Proof.
  destruct (LargeMmapAllocator.Allocate TwoBlocks TwoBlocksMemory 6000 8 0x30000)
    as [[[a' m'] p]|] eqn:E; [|vm_compute in E; discriminate].
  exists a', m', p. split; [reflexivity|].
  assert (Ep : p = 0x31000) by (vm_compute in E; injection E as _ _ <-; reflexivity).
  apply (LargeMmap_Allocate_then_queries TwoBlocks TwoBlocksMemory 6000 8 0x30000
           a' m' p pow2_4096 pow2_8 ltac:(word_facts) E).
  - rewrite Ep. reflexivity.
  - rewrite Ep. word_facts.
Defined.

(** X16. [Deallocate] undoes [Allocate]: when the operating system hands
    out a mapping it has not handed out before, above the first page, and
    the first header of the list has a null [prev], deallocating the block
    just allocated gives back the allocator and the memory as they were. *)
Theorem LargeMmap_Allocate_Deallocate_round_trip a m size alignment map_beg a' m' p :
  pow2 (LargeMmapAllocator.page_size_ a) ->
  LargeMmapAllocator.Allocate a m size alignment map_beg = Some (a', m', p) ->
  LargeMmapAllocator.page_size_ a < p ->
  headers m !! (p - LargeMmapAllocator.page_size_ a) = None ->
  (map_beg, LargeMmapAllocator.MapSize a size alignment) ∉ mappings m ->
  (LargeMmapAllocator.list_ a = 0 \/
   exists first, headers m !! LargeMmapAllocator.list_ a = Some first /\
                 Header.prev first = 0) ->
  LargeMmapAllocator.Deallocate a' m' p = Some (a, m).
Proof.
  intros Hpow HA Hlt Hfresh Hmap Hhead.
  eapply Allocate_Deallocate_restores; try eassumption.
  eapply Allocate_result_is_uptr. exact HA.
Qed.

Lemma LargeMmap_Allocate_Deallocate_round_trip_witness :
  exists a' m' p,
    LargeMmapAllocator.Allocate TwoBlocks TwoBlocksMemory 6000 8 0x30000
      = Some (a', m', p) /\
    LargeMmapAllocator.Deallocate a' m' p = Some (TwoBlocks, TwoBlocksMemory).
Proof.
  destruct (LargeMmapAllocator.Allocate TwoBlocks TwoBlocksMemory 6000 8 0x30000)
    as [[[a' m'] p]|] eqn:E; [|vm_compute in E; discriminate].
  exists a', m', p. split; [reflexivity|].
  assert (Ep : p = 0x31000) by (vm_compute in E; injection E as _ _ <-; reflexivity).
  apply (LargeMmap_Allocate_Deallocate_round_trip TwoBlocks TwoBlocksMemory 6000 8
           0x30000 a' m' p pow2_4096 E).
  - rewrite Ep. reflexivity.
  - rewrite Ep. reflexivity.
  - intros Hin. repeat (apply elem_of_cons in Hin as [Hin|Hin]; [discriminate|]).
    apply elem_of_nil in Hin. exact Hin.
  - right. eexists. split; reflexivity.
Defined.

(** X17. A successful [Allocate] of a fresh mapping raises
    [TotalMemoryUsed] by [RoundUpMapSize] of the size asked for, modulo
    2^64: the size rounded up to whole pages plus the header page.  An
    alignment above the page size enlarges the mapping but not this
    count. *)
Theorem LargeMmap_TotalMemoryUsed_after_Allocate a m size alignment map_beg a' m' p
    chain :
  LargeMmapAllocator.Allocate a m size alignment map_beg = Some (a', m', p) ->
  p <> 0 -> p -% LargeMmapAllocator.page_size_ a <> 0 ->
  headers m !! (p -% LargeMmapAllocator.page_size_ a) = None ->
  LargeMmapAllocator.live_list (headers m) (LargeMmapAllocator.list_ a) chain ->
  exists before,
    LargeMmapAllocator.TotalMemoryUsed a m = Some before /\
    LargeMmapAllocator.TotalMemoryUsed a' m'
      = Some (before +% LargeMmapAllocator.RoundUpMapSize a size).
Proof.
  intros HA Hp Hnz Hfresh Hl.
  destruct (TotalMemoryUsed_after_Allocate _ _ _ _ _ _ _ _ _ HA Hp Hnz Hfresh Hl)
    as [Hb Ha]. eauto.
Qed.

Lemma LargeMmap_TotalMemoryUsed_after_Allocate_witness :
  exists a' m' p before,
    LargeMmapAllocator.Allocate TwoBlocks TwoBlocksMemory 6000 16384 0x30000
      = Some (a', m', p) /\
    LargeMmapAllocator.TotalMemoryUsed TwoBlocks TwoBlocksMemory = Some before /\
    LargeMmapAllocator.TotalMemoryUsed a' m' = Some (before +% 12288).
Proof.
  destruct (LargeMmapAllocator.Allocate TwoBlocks TwoBlocksMemory 6000 16384 0x30000)
    as [[[a' m'] p]|] eqn:E; [|vm_compute in E; discriminate].
  assert (Ep : p = 0x34000) by (vm_compute in E; injection E as _ _ <-; reflexivity).
  destruct (LargeMmap_TotalMemoryUsed_after_Allocate TwoBlocks TwoBlocksMemory 6000
              16384 0x30000 a' m' p TwoBlocksChain E) as (before & Hb & Ha).
  - rewrite Ep. discriminate.
  - rewrite Ep. discriminate.
  - rewrite Ep. reflexivity.
  - exact TwoBlocks_live.
  - exists a', m', p, before. split; [reflexivity|]. split; [exact Hb|exact Ha].
Defined.

(** X18. For a page-aligned pointer at or above the page size, with pages
    of at least 80 bytes, the header is one page below the pointer and
    [GetMetaData] returns the address 40 bytes above the header, the first
    byte after its five words; the half page that starts there ends at or
    before the pointer. *)
Theorem LargeMmap_GetMetaData_in_header_page a p :
  pow2 (LargeMmapAllocator.page_size_ a) -> 80 <= LargeMmapAllocator.page_size_ a ->
  is_uptr p -> LargeMmapAllocator.page_size_ a <= p ->
  p mod LargeMmapAllocator.page_size_ a = 0 ->
  LargeMmapAllocator.GetHeader a p = Some (p - LargeMmapAllocator.page_size_ a) /\
  LargeMmapAllocator.GetMetaData a p
    = Some (p - LargeMmapAllocator.page_size_ a + 40) /\
  p - LargeMmapAllocator.page_size_ a + 40 + LargeMmapAllocator.page_size_ a / 2 <= p.
Proof.
  intros Hpow H80 Hu Hge Hal.
  destruct (GetMetaData_in_header_page a p Hpow H80 Hu Hge Hal) as [HM Hroom].
  split; [|split; [exact HM|exact Hroom]].
  unfold LargeMmapAllocator.GetHeader, urem. rewrite Hal. cbn [Z.eqb].
  f_equal. apply wrap_small. unfold is_uptr in *. lia.
Qed.

Lemma LargeMmap_GetMetaData_in_header_page_witness :
  LargeMmapAllocator.GetHeader TwoBlocks 0x11000 = Some 0x10000 /\
  LargeMmapAllocator.GetMetaData TwoBlocks 0x11000 = Some 0x10028 /\
  0x10028 + 2048 <= 0x11000.
Proof.
  apply (LargeMmap_GetMetaData_in_header_page TwoBlocks 0x11000 pow2_4096).
  - discriminate.
  - word_facts.
  - discriminate.
  - reflexivity.
Defined.

(** X19. A pointer that is not a multiple of the page size: [PointerIsMine]
    answers false without walking the list, while [Deallocate],
    [GetActuallyAllocatedSize] and [GetMetaData] die on the check of
    [GetHeader]. *)
Theorem LargeMmap_unaligned_pointer a m p :
  pow2 (LargeMmapAllocator.page_size_ a) ->
  p mod LargeMmapAllocator.page_size_ a <> 0 ->
  LargeMmapAllocator.PointerIsMine a m p = Some false /\
  LargeMmapAllocator.Deallocate a m p = None /\
  LargeMmapAllocator.GetActuallyAllocatedSize a m p = None /\
  LargeMmapAllocator.GetMetaData a p = None.
Proof. apply unaligned_pointer. Qed.

Lemma LargeMmap_unaligned_pointer_witness :
  LargeMmapAllocator.PointerIsMine TwoBlocks TwoBlocksMemory 0x11008 = Some false /\
  LargeMmapAllocator.Deallocate TwoBlocks TwoBlocksMemory 0x11008 = None /\
  LargeMmapAllocator.GetActuallyAllocatedSize TwoBlocks TwoBlocksMemory 0x11008 = None /\
  LargeMmapAllocator.GetMetaData TwoBlocks 0x11008 = None.
Proof.
  apply (LargeMmap_unaligned_pointer TwoBlocks TwoBlocksMemory 0x11008 pow2_4096).
  discriminate.
Defined.

(** X20. [Allocate] keeps the list well formed: from a doubly-linked list
    of page-aligned headers, a successful [Allocate] of a fresh mapping
    leaves a doubly-linked list of page-aligned headers that starts with
    the header of the new block, which records the size asked for, followed
    by the headers of the old list, at their addresses and with their
    sizes. *)
Theorem LargeMmap_Allocate_keeps_list a m size alignment map_beg a' m' p chain :
  pow2 (LargeMmapAllocator.page_size_ a) ->
  LargeMmapAllocator.list_invariant a m chain ->
  LargeMmapAllocator.Allocate a m size alignment map_beg = Some (a', m', p) ->
  p <> 0 -> p -% LargeMmapAllocator.page_size_ a <> 0 ->
  headers m !! (p -% LargeMmapAllocator.page_size_ a) = None ->
  exists hdr chain',
    LargeMmapAllocator.list_invariant a' m'
      ((p -% LargeMmapAllocator.page_size_ a, hdr) :: chain') /\
    Header.size hdr = size /\
    chain'.*1 = chain.*1 /\
    (fun e : uptr * Header.t => Header.size e.2) <$> chain'
      = (fun e : uptr * Header.t => Header.size e.2) <$> chain.
Proof. apply Allocate_keeps_invariant. Qed.

Lemma LargeMmap_Allocate_keeps_list_witness :
  exists a' m' p hdr chain',
    LargeMmapAllocator.Allocate TwoBlocks TwoBlocksMemory 6000 8 0x30000
      = Some (a', m', p) /\
    LargeMmapAllocator.list_invariant a' m' ((p -% 4096, hdr) :: chain') /\
    Header.size hdr = 6000 /\
    chain'.*1 = TwoBlocksChain.*1 /\
    (fun e : uptr * Header.t => Header.size e.2) <$> chain'
      = (fun e : uptr * Header.t => Header.size e.2) <$> TwoBlocksChain.
Proof.
  destruct (LargeMmapAllocator.Allocate TwoBlocks TwoBlocksMemory 6000 8 0x30000)
    as [[[a' m'] p]|] eqn:E; [|vm_compute in E; discriminate].
  assert (Ep : p = 0x31000) by (vm_compute in E; injection E as _ _ <-; reflexivity).
  destruct (LargeMmap_Allocate_keeps_list TwoBlocks TwoBlocksMemory 6000 8 0x30000
              a' m' p TwoBlocksChain pow2_4096 TwoBlocks_invariant E)
    as (hdr & chain' & H).
  - rewrite Ep. discriminate.
  - rewrite Ep. discriminate.
  - rewrite Ep. reflexivity.
  - exists a', m', p, hdr, chain'. split; [reflexivity|exact H].
Defined.

(** X21. [Deallocate] of a block on a well-formed list completes and takes
    exactly that block out: the list stays doubly linked, the other headers
    keep their addresses, their order and their sizes, the header of the
    block is gone with its mapping, and no byte of user memory changes. *)
Theorem LargeMmap_Deallocate_unlinks a m p h hdr pre post :
  LargeMmapAllocator.list_invariant a m (pre ++ (h, hdr) :: post) ->
  LargeMmapAllocator.GetHeader a p = Some h ->
  exists a' m' chain',
    LargeMmapAllocator.Deallocate a m p = Some (a', m') /\
    LargeMmapAllocator.page_size_ a' = LargeMmapAllocator.page_size_ a /\
    LargeMmapAllocator.list_invariant a' m' chain' /\
    chain'.*1 = pre.*1 ++ post.*1 /\
    (fun e : uptr * Header.t => Header.size e.2) <$> chain'
      = ((fun e : uptr * Header.t => Header.size e.2) <$> pre)
        ++ ((fun e : uptr * Header.t => Header.size e.2) <$> post) /\
    headers m' !! h = None /\ bytes m' = bytes m /\
    mappings m'
      = LargeMmapAllocator.unmap (Header.map_beg hdr) (Header.map_size hdr) (mappings m).
Proof. apply Deallocate_keeps_invariant. Qed.

Lemma LargeMmap_Deallocate_unlinks_witness :
  exists a' m' chain',
    LargeMmapAllocator.Deallocate TwoBlocks TwoBlocksMemory 0x11000 = Some (a', m') /\
    LargeMmapAllocator.page_size_ a' = 4096 /\
    LargeMmapAllocator.list_invariant a' m' chain' /\
    chain'.*1 = [0x20000] /\
    (fun e : uptr * Header.t => Header.size e.2) <$> chain' = [100] /\
    headers m' !! 0x10000 = None /\ bytes m' = ∅ /\
    mappings m' = [(0x20000, 8192)].
Proof.
  exact (LargeMmap_Deallocate_unlinks TwoBlocks TwoBlocksMemory 0x11000 0x10000
           {| Header.map_beg := 0x10000; Header.map_size := 12288;
              Header.size := 5000; Header.next := 0; Header.prev := 0x20000 |}
           [(0x20000, {| Header.map_beg := 0x20000; Header.map_size := 8192;
                         Header.size := 100; Header.next := 0x10000;
                         Header.prev := 0 |})]
           [] TwoBlocks_invariant eq_refl).
Defined.

(** X22. After [Deallocate] of a block on a well-formed list,
    [PointerIsMine] answers false for its address and still answers true
    for the user address of every other block of the list. *)
Theorem LargeMmap_Deallocate_forgets a m p h hdr pre post a' m' :
  pow2 (LargeMmapAllocator.page_size_ a) ->
  LargeMmapAllocator.list_invariant a m (pre ++ (h, hdr) :: post) ->
  LargeMmapAllocator.GetHeader a p = Some h ->
  LargeMmapAllocator.Deallocate a m p = Some (a', m') ->
  LargeMmapAllocator.PointerIsMine a' m' p = Some false /\
  forall k, k ∈ pre.*1 ++ post.*1 ->
    LargeMmapAllocator.PointerIsMine a' m' (k +% LargeMmapAllocator.page_size_ a)
      = Some true.
Proof. apply Deallocate_forgets. Qed.

Lemma LargeMmap_Deallocate_forgets_witness :
  exists a' m',
    LargeMmapAllocator.Deallocate TwoBlocks TwoBlocksMemory 0x21000 = Some (a', m') /\
    LargeMmapAllocator.PointerIsMine a' m' 0x21000 = Some false /\
    forall k, k ∈ [0x10000] ->
      LargeMmapAllocator.PointerIsMine a' m' (k +% 4096) = Some true.
Proof.
  destruct (LargeMmapAllocator.Deallocate TwoBlocks TwoBlocksMemory 0x21000)
    as [[a' m']|] eqn:E; [|vm_compute in E; discriminate].
  exists a', m'. split; [reflexivity|].
  exact (LargeMmap_Deallocate_forgets TwoBlocks TwoBlocksMemory 0x21000 0x20000
           {| Header.map_beg := 0x20000; Header.map_size := 8192;
              Header.size := 100; Header.next := 0x10000; Header.prev := 0 |}
           []
           [(0x10000, {| Header.map_beg := 0x10000; Header.map_size := 12288;
                         Header.size := 5000; Header.next := 0;
                         Header.prev := 0x20000 |})]
           a' m' pow2_4096 TwoBlocks_invariant eq_refl E).
Defined.

(** X23. [Deallocate] of a block on a well-formed list lowers
    [TotalMemoryUsed] by [RoundUpMapSize] of the size the block was
    allocated with, modulo 2^64: what [Allocate] added for it. *)
Theorem LargeMmap_TotalMemoryUsed_after_Deallocate a m p h hdr pre post a' m' :
  LargeMmapAllocator.list_invariant a m (pre ++ (h, hdr) :: post) ->
  LargeMmapAllocator.GetHeader a p = Some h ->
  LargeMmapAllocator.Deallocate a m p = Some (a', m') ->
  exists before after,
    LargeMmapAllocator.TotalMemoryUsed a m = Some before /\
    LargeMmapAllocator.TotalMemoryUsed a' m' = Some after /\
    before = after +% LargeMmapAllocator.RoundUpMapSize a (Header.size hdr).
Proof. apply TotalMemoryUsed_after_Deallocate. Qed.

Lemma LargeMmap_TotalMemoryUsed_after_Deallocate_witness :
  exists a' m' before after,
    LargeMmapAllocator.Deallocate TwoBlocks TwoBlocksMemory 0x21000 = Some (a', m') /\
    LargeMmapAllocator.TotalMemoryUsed TwoBlocks TwoBlocksMemory = Some before /\
    LargeMmapAllocator.TotalMemoryUsed a' m' = Some after /\
    before = after +% 8192.
Proof.
  destruct (LargeMmapAllocator.Deallocate TwoBlocks TwoBlocksMemory 0x21000)
    as [[a' m']|] eqn:E; [|vm_compute in E; discriminate].
  destruct (LargeMmap_TotalMemoryUsed_after_Deallocate TwoBlocks TwoBlocksMemory
              0x21000 0x20000
              {| Header.map_beg := 0x20000; Header.map_size := 8192;
                 Header.size := 100; Header.next := 0x10000; Header.prev := 0 |}
              []
              [(0x10000, {| Header.map_beg := 0x10000; Header.map_size := 12288;
                            Header.size := 5000; Header.next := 0;
                            Header.prev := 0x20000 |})]
              a' m' TwoBlocks_invariant eq_refl E) as (before & after & Hb & Ha & Hd).
  exists a', m', before, after. split; [reflexivity|]. auto.
Defined.

(** ** The combined allocator: what goes through the free lists *)

Lemma store_word_other (b : gmap Z Byte.byte) addr v q :
  0 <= addr -> addr + 8 <= kWordMod -> ~ (addr <= q < addr + 8) ->
  load_byte (store_word b addr v) q = load_byte b q.
Proof.
  intros H0 Htop Hq. unfold store_word. cbn [fold_left].
  repeat (rewrite load_insert_ne
            by (unfold uadd; rewrite wrap_small by (unfold is_uptr; lia); lia)).
  reflexivity.
Qed.

Section CombinedDeallocate.
Context {A : Type} `{SizeClassAllocator A}.

Lemma Deallocate_stores_below_cap (cache : LocalCache) (allocator : A) class_id p
    (fl : AllocatorFreeList) (b : gmap Z Byte.byte) :
  caps_ok SizeClassMapT -> is_uptr class_id ->
  class_id < SizeClassAllocatorLocalCache.kNumClasses ->
  cache !! Z.to_nat class_id = Some fl ->
  list_size (p :: fl) < 2 * SizeClassAllocatorLocalCache.MaxCached class_id ->
  SizeClassAllocatorLocalCache.Deallocate_stores cache allocator class_id p b
    = store_word b p (front fl).
Proof.
  intros Hcaps Hid Hlt Hfl Hroom.
  unfold SizeClassAllocatorLocalCache.Deallocate_stores. rewrite Hfl.
  destruct (class_cap_usable class_id Hcaps) as [Hpos Hmul];
    [unfold is_uptr in Hid; lia|].
  rewrite Hmul. unfold push_front.
  rewrite (proj2 (Z.leb_gt _ _) Hroom). reflexivity.
Qed.

(** A chunk of the primary whose list has room goes to the front of the
    list of its class; the one store is the link in its first word. *)
Lemma Deallocate_to_cache (s : CombinedAllocator.State) p class_id
    (fl : AllocatorFreeList) :
  p <> 0 ->
  PointerIsMine (CombinedAllocator.primary_ s) p = true ->
  GetSizeClass (CombinedAllocator.primary_ s) p = class_id ->
  caps_ok SizeClassMapT -> is_uptr class_id ->
  class_id < SizeClassAllocatorLocalCache.kNumClasses ->
  CombinedAllocator.cache_ s !! Z.to_nat class_id = Some fl ->
  list_size (p :: fl) < 2 * SizeClassAllocatorLocalCache.MaxCached class_id ->
  CombinedAllocator.Deallocate s p
    = Some {| CombinedAllocator.primary_ := CombinedAllocator.primary_ s;
              CombinedAllocator.secondary_ := CombinedAllocator.secondary_ s;
              CombinedAllocator.cache_ :=
                <[Z.to_nat class_id := p :: fl]> (CombinedAllocator.cache_ s);
              CombinedAllocator.memory_ :=
                with_bytes (CombinedAllocator.memory_ s)
                  (store_word (bytes (CombinedAllocator.memory_ s)) p (front fl)) |}.
Proof.
  intros Hp Hmine Hclass Hcaps Hid Hlt Hfl Hroom.
  unfold CombinedAllocator.Deallocate.
  rewrite (proj2 (Z.eqb_neq p 0) Hp), Hmine, Hclass.
  rewrite (Deallocate_below_cap _ _ _ _ _ Hcaps Hid Hlt Hfl Hroom).
  rewrite (Deallocate_stores_below_cap _ _ _ _ _ _ Hcaps Hid Hlt Hfl Hroom).
  reflexivity.
Qed.

(** A chunk of the primary that fills its list goes, with the front half
    of the list, to [BulkDeallocate]. *)
Lemma Deallocate_to_primary (s : CombinedAllocator.State) p class_id
    (fl : AllocatorFreeList) :
  p <> 0 ->
  PointerIsMine (CombinedAllocator.primary_ s) p = true ->
  GetSizeClass (CombinedAllocator.primary_ s) p = class_id ->
  caps_ok SizeClassMapT -> is_uptr class_id ->
  class_id < SizeClassAllocatorLocalCache.kNumClasses ->
  CombinedAllocator.cache_ s !! Z.to_nat class_id = Some fl ->
  2 * SizeClassAllocatorLocalCache.MaxCached class_id <= list_size (p :: fl) ->
  let count := Z.to_nat (list_size (p :: fl) / 2) in
  p ∈ take count (p :: fl) /\
  CombinedAllocator.Deallocate s p
    = Some {| CombinedAllocator.primary_ :=
                (BulkDeallocate (CombinedAllocator.primary_ s) class_id
                   (reverse (take count (p :: fl)))).1;
              CombinedAllocator.secondary_ := CombinedAllocator.secondary_ s;
              CombinedAllocator.cache_ :=
                <[Z.to_nat class_id := drop count (p :: fl)]>
                  (CombinedAllocator.cache_ s);
              CombinedAllocator.memory_ :=
                with_bytes (CombinedAllocator.memory_ s)
                  (SizeClassAllocatorLocalCache.Deallocate_stores
                     (CombinedAllocator.cache_ s) (CombinedAllocator.primary_ s)
                     class_id p (bytes (CombinedAllocator.memory_ s))) |}.
Proof.
  intros Hp Hmine Hclass Hcaps Hid Hlt Hfl Hfull count. split.
  - destruct (class_cap_usable class_id Hcaps) as [Hpos _];
      [unfold is_uptr in Hid; lia|].
    assert (Hc : (1 <= count)%nat).
    { unfold count. pose proof (Z.div_le_lower_bound (list_size (p :: fl)) 2 1
                                   ltac:(lia) ltac:(lia)). lia. }
    destruct count as [|count']; [lia|]. apply list_elem_of_here.
  - unfold CombinedAllocator.Deallocate.
    rewrite (proj2 (Z.eqb_neq p 0) Hp), Hmine, Hclass.
    rewrite (Deallocate_full _ _ _ _ _ Hcaps Hid Hlt Hfl Hfull). reflexivity.
Qed.

(** A block of the secondary: its header leaves the list and its mapping
    goes back to the system; no byte is stored. *)
Lemma Deallocate_to_system (s : CombinedAllocator.State) p h hdr pre post :
  p <> 0 ->
  PointerIsMine (CombinedAllocator.primary_ s) p = false ->
  pow2 (LargeMmapAllocator.page_size_ (CombinedAllocator.secondary_ s)) ->
  LargeMmapAllocator.list_invariant (CombinedAllocator.secondary_ s)
    (CombinedAllocator.memory_ s) (pre ++ (h, hdr) :: post) ->
  LargeMmapAllocator.GetHeader (CombinedAllocator.secondary_ s) p = Some h ->
  exists s',
    CombinedAllocator.Deallocate s p = Some s' /\
    CombinedAllocator.PointerIsMine s' p = Some false /\
    headers (CombinedAllocator.memory_ s') !! h = None /\
    mappings (CombinedAllocator.memory_ s')
      = LargeMmapAllocator.unmap (Header.map_beg hdr) (Header.map_size hdr)
          (mappings (CombinedAllocator.memory_ s)) /\
    bytes (CombinedAllocator.memory_ s') = bytes (CombinedAllocator.memory_ s) /\
    CombinedAllocator.cache_ s' = CombinedAllocator.cache_ s /\
    CombinedAllocator.primary_ s' = CombinedAllocator.primary_ s.
Proof.
  intros Hp Hmine Hpow Hinv HG.
  destruct (Deallocate_keeps_invariant _ _ _ _ _ _ _ Hinv HG)
    as (a' & m' & chain' & HD & _ & _ & _ & _ & Hgone & Hbytes & Hmaps).
  destruct (Deallocate_forgets _ _ _ _ _ _ _ _ _ Hpow Hinv HG HD) as [Hfalse _].
  eexists. split.
  { unfold CombinedAllocator.Deallocate.
    rewrite (proj2 (Z.eqb_neq p 0) Hp), Hmine, HD. reflexivity. }
  unfold CombinedAllocator.PointerIsMine.
  cbn [CombinedAllocator.primary_ CombinedAllocator.secondary_
       CombinedAllocator.memory_ CombinedAllocator.cache_].
  rewrite Hmine. auto 10.
Qed.

End CombinedDeallocate.


Section CombinedReallocate.
Context {A : Type} `{SizeClassAllocator A}.

(** The three ways the old pointer of [Reallocate] is given back, for the
    state [s1] the allocation left and the bytes [b] in memory when
    [Deallocate] is called. *)
Lemma Reallocate_gives_back (s s1 : CombinedAllocator.State) p new_size alignment
    map_beg new_p (b : gmap Z Byte.byte) :
  p <> 0 ->
  CombinedAllocator.Reallocate s p new_size alignment map_beg
    = match CombinedAllocator.Deallocate (CombinedAllocator.set_bytes s1 b) p with
      | Some s' => Some (s', new_p)
      | None => None
      end ->
  (forall class_id (fl : AllocatorFreeList),
     PointerIsMine (CombinedAllocator.primary_ s1) p = true ->
     GetSizeClass (CombinedAllocator.primary_ s1) p = class_id ->
     caps_ok SizeClassMapT -> is_uptr class_id ->
     class_id < SizeClassAllocatorLocalCache.kNumClasses ->
     CombinedAllocator.cache_ s1 !! Z.to_nat class_id = Some fl ->
     list_size (p :: fl) < 2 * SizeClassAllocatorLocalCache.MaxCached class_id ->
     exists s',
       CombinedAllocator.Reallocate s p new_size alignment map_beg = Some (s', new_p) /\
       CombinedAllocator.cache_ s'
         = <[Z.to_nat class_id := p :: fl]> (CombinedAllocator.cache_ s1) /\
       CombinedAllocator.primary_ s' = CombinedAllocator.primary_ s1 /\
       bytes (CombinedAllocator.memory_ s') = store_word b p (front fl)) /\
  (forall class_id (fl : AllocatorFreeList),
     PointerIsMine (CombinedAllocator.primary_ s1) p = true ->
     GetSizeClass (CombinedAllocator.primary_ s1) p = class_id ->
     caps_ok SizeClassMapT -> is_uptr class_id ->
     class_id < SizeClassAllocatorLocalCache.kNumClasses ->
     CombinedAllocator.cache_ s1 !! Z.to_nat class_id = Some fl ->
     2 * SizeClassAllocatorLocalCache.MaxCached class_id <= list_size (p :: fl) ->
     exists s',
       CombinedAllocator.Reallocate s p new_size alignment map_beg = Some (s', new_p) /\
       p ∈ take (Z.to_nat (list_size (p :: fl) / 2)) (p :: fl) /\
       CombinedAllocator.cache_ s'
         = <[Z.to_nat class_id := drop (Z.to_nat (list_size (p :: fl) / 2)) (p :: fl)]>
             (CombinedAllocator.cache_ s1) /\
       CombinedAllocator.primary_ s'
         = (BulkDeallocate (CombinedAllocator.primary_ s1) class_id
              (reverse (take (Z.to_nat (list_size (p :: fl) / 2)) (p :: fl)))).1 /\
       bytes (CombinedAllocator.memory_ s')
         = SizeClassAllocatorLocalCache.Deallocate_stores (CombinedAllocator.cache_ s1)
             (CombinedAllocator.primary_ s1) class_id p b) /\
  (forall h hdr pre post,
     PointerIsMine (CombinedAllocator.primary_ s1) p = false ->
     pow2 (LargeMmapAllocator.page_size_ (CombinedAllocator.secondary_ s1)) ->
     LargeMmapAllocator.list_invariant (CombinedAllocator.secondary_ s1)
       (CombinedAllocator.memory_ s1) (pre ++ (h, hdr) :: post) ->
     LargeMmapAllocator.GetHeader (CombinedAllocator.secondary_ s1) p = Some h ->
     exists s',
       CombinedAllocator.Reallocate s p new_size alignment map_beg = Some (s', new_p) /\
       CombinedAllocator.PointerIsMine s' p = Some false /\
       headers (CombinedAllocator.memory_ s') !! h = None /\
       mappings (CombinedAllocator.memory_ s')
         = LargeMmapAllocator.unmap (Header.map_beg hdr) (Header.map_size hdr)
             (mappings (CombinedAllocator.memory_ s1)) /\
       bytes (CombinedAllocator.memory_ s') = b).
Proof.
  intros Hp ER. split; [|split].
  - intros class_id fl Hmine Hclass Hcaps Hid Hlt Hfl Hroom.
    pose proof (Deallocate_to_cache (CombinedAllocator.set_bytes s1 b) p class_id fl
                  Hp Hmine Hclass Hcaps Hid Hlt Hfl Hroom) as HD.
    rewrite HD in ER. eexists. split; [exact ER|].
    repeat split; reflexivity.
  - intros class_id fl Hmine Hclass Hcaps Hid Hlt Hfl Hfull.
    destruct (Deallocate_to_primary (CombinedAllocator.set_bytes s1 b) p class_id fl
                Hp Hmine Hclass Hcaps Hid Hlt Hfl Hfull) as [Hin HD].
    rewrite HD in ER. eexists. split; [exact ER|].
    split; [exact Hin|]. repeat split; reflexivity.
  - intros h hdr pre post Hmine Hpow Hinv HG.
    destruct (Deallocate_to_system (CombinedAllocator.set_bytes s1 b) p h hdr pre post
                Hp Hmine Hpow Hinv HG)
      as (s' & HD & Hfalse & Hgone & Hmaps & Hbytes & _).
    rewrite HD in ER. exists s'. split; [exact ER|].
    split; [exact Hfalse|]. split; [exact Hgone|]. split; [exact Hmaps|exact Hbytes].
Qed.

(** After the copy and the store of the list link in the old chunk, the
    new region holds the bytes of the old one. *)
Lemma copied_then_linked (b : gmap Z Byte.byte) p new_p n v :
  0 <= p -> p + 8 <= kWordMod -> 0 <= new_p -> is_uptr n ->
  new_p + n <= kWordMod -> p + n <= kWordMod ->
  (new_p + n <= p \/ p + Z.max n 8 <= new_p) ->
  forall j, 0 <= j < n ->
    load_byte (store_word (internal_memcpy b new_p p n) p v) (new_p + j)
    = load_byte b (p + j).
Proof.
  intros H0p Hp8 H0n Hn Hnn Hpn Hdis j Hj.
  rewrite store_word_other by lia.
  apply internal_memcpy_spec; try assumption; lia.
Qed.

End CombinedReallocate.

(** C9. [Reallocate] of a null pointer is [Allocate]; of a live pointer to
    size zero it is [Deallocate] and the result is null.  Otherwise, when
    the new region is allocated, [min (old size) (new size)] bytes are copied
    from the old region to the new one, byte for byte and changing nothing
    else, then the old pointer is deallocated and the new pointer returned:
    a chunk of the primary goes to the front of the free list of its class,
    which stores the list link in its first word and nothing else, or, when
    that fills the list, to the primary with the front half of the list; a
    block of the secondary leaves the live list and its mapping is
    unmapped, with no store.  In the final memory the new region holds the
    bytes the old one held. *)
Theorem Combined_Reallocate_cases (A : Type) (H : SizeClassAllocator A) :
  (forall (s : CombinedAllocator.State) new_size alignment map_beg,
     CombinedAllocator.Reallocate s 0 new_size alignment map_beg
       = CombinedAllocator.Allocate s new_size alignment false map_beg) /\
  (forall (s : CombinedAllocator.State) p alignment map_beg,
     p <> 0 ->
     CombinedAllocator.Reallocate s p 0 alignment map_beg
       = match CombinedAllocator.Deallocate s p with
         | Some s' => Some (s', 0)
         | None => None
         end) /\
  (forall (s s1 : CombinedAllocator.State) p new_size alignment map_beg old_size new_p,
     p <> 0 -> new_size <> 0 ->
     CombinedAllocator.PointerIsMine s p = Some true ->
     CombinedAllocator.GetActuallyAllocatedSize s p = Some old_size ->
     CombinedAllocator.Allocate s new_size alignment false map_beg = Some (s1, new_p) ->
     new_p <> 0 ->
     let n := Z.min old_size new_size in
     let copied := internal_memcpy (bytes (CombinedAllocator.memory_ s1)) new_p p n in
     (* the copy, then [Deallocate] *)
     CombinedAllocator.Reallocate s p new_size alignment map_beg
       = match CombinedAllocator.Deallocate (CombinedAllocator.set_bytes s1 copied) p with
         | Some s' => Some (s', new_p)
         | None => None
         end /\
     (* the copy *)
     (0 <= p -> 0 <= new_p -> is_uptr n ->
      new_p + n <= kWordMod -> p + n <= kWordMod ->
      (new_p + n <= p \/ p + n <= new_p) ->
      (forall j, 0 <= j < n ->
         load_byte copied (new_p + j)
         = load_byte (bytes (CombinedAllocator.memory_ s1)) (p + j)) /\
      (forall q, ~ (new_p <= q < new_p + n) ->
         load_byte copied q = load_byte (bytes (CombinedAllocator.memory_ s1)) q)) /\
     (* the old chunk goes on the free list of its class *)
     (forall class_id (fl : AllocatorFreeList),
        PointerIsMine (CombinedAllocator.primary_ s1) p = true ->
        GetSizeClass (CombinedAllocator.primary_ s1) p = class_id ->
        caps_ok SizeClassMapT -> is_uptr class_id ->
        class_id < SizeClassAllocatorLocalCache.kNumClasses ->
        CombinedAllocator.cache_ s1 !! Z.to_nat class_id = Some fl ->
        list_size (p :: fl) < 2 * SizeClassAllocatorLocalCache.MaxCached class_id ->
        exists s',
          CombinedAllocator.Reallocate s p new_size alignment map_beg
            = Some (s', new_p) /\
          CombinedAllocator.cache_ s'
            = <[Z.to_nat class_id := p :: fl]> (CombinedAllocator.cache_ s1) /\
          CombinedAllocator.primary_ s' = CombinedAllocator.primary_ s1 /\
          bytes (CombinedAllocator.memory_ s') = store_word copied p (front fl) /\
          (0 <= p -> p + 8 <= kWordMod -> 0 <= new_p -> is_uptr n ->
           new_p + n <= kWordMod -> p + n <= kWordMod ->
           (new_p + n <= p \/ p + Z.max n 8 <= new_p) ->
           forall j, 0 <= j < n ->
             load_byte (bytes (CombinedAllocator.memory_ s')) (new_p + j)
             = load_byte (bytes (CombinedAllocator.memory_ s1)) (p + j))) /\
     (* or, filling the list, to the primary with the front half of it *)
     (forall class_id (fl : AllocatorFreeList),
        PointerIsMine (CombinedAllocator.primary_ s1) p = true ->
        GetSizeClass (CombinedAllocator.primary_ s1) p = class_id ->
        caps_ok SizeClassMapT -> is_uptr class_id ->
        class_id < SizeClassAllocatorLocalCache.kNumClasses ->
        CombinedAllocator.cache_ s1 !! Z.to_nat class_id = Some fl ->
        2 * SizeClassAllocatorLocalCache.MaxCached class_id <= list_size (p :: fl) ->
        exists s',
          CombinedAllocator.Reallocate s p new_size alignment map_beg
            = Some (s', new_p) /\
          p ∈ take (Z.to_nat (list_size (p :: fl) / 2)) (p :: fl) /\
          CombinedAllocator.cache_ s'
            = <[Z.to_nat class_id :=
                  drop (Z.to_nat (list_size (p :: fl) / 2)) (p :: fl)]>
                (CombinedAllocator.cache_ s1) /\
          CombinedAllocator.primary_ s'
            = (BulkDeallocate (CombinedAllocator.primary_ s1) class_id
                 (reverse (take (Z.to_nat (list_size (p :: fl) / 2)) (p :: fl)))).1 /\
          bytes (CombinedAllocator.memory_ s')
            = SizeClassAllocatorLocalCache.Deallocate_stores
                (CombinedAllocator.cache_ s1) (CombinedAllocator.primary_ s1)
                class_id p copied) /\
     (* the old block of the secondary is unmapped *)
     (forall h hdr pre post,
        PointerIsMine (CombinedAllocator.primary_ s1) p = false ->
        pow2 (LargeMmapAllocator.page_size_ (CombinedAllocator.secondary_ s1)) ->
        LargeMmapAllocator.list_invariant (CombinedAllocator.secondary_ s1)
          (CombinedAllocator.memory_ s1) (pre ++ (h, hdr) :: post) ->
        LargeMmapAllocator.GetHeader (CombinedAllocator.secondary_ s1) p = Some h ->
        exists s',
          CombinedAllocator.Reallocate s p new_size alignment map_beg
            = Some (s', new_p) /\
          CombinedAllocator.PointerIsMine s' p = Some false /\
          headers (CombinedAllocator.memory_ s') !! h = None /\
          mappings (CombinedAllocator.memory_ s')
            = LargeMmapAllocator.unmap (Header.map_beg hdr) (Header.map_size hdr)
                (mappings (CombinedAllocator.memory_ s1)) /\
          bytes (CombinedAllocator.memory_ s') = copied)).
Proof.
  split; [intros; apply Reallocate_null|].
  split; [intros; apply Reallocate_zero_size; assumption|].
  intros s s1 p new_size alignment map_beg old_size new_p Hp Hn Hmine Hold Halloc Hnew
    n copied.
  assert (ER : CombinedAllocator.Reallocate s p new_size alignment map_beg
               = match CombinedAllocator.Deallocate
                         (CombinedAllocator.set_bytes s1 copied) p with
                 | Some s' => Some (s', new_p)
                 | None => None
                 end).
  { rewrite (Reallocate_moves s s1 p new_size alignment map_beg old_size new_p)
      by assumption.
    rewrite (proj2 (Z.eqb_neq new_p 0) Hnew). reflexivity. }
  destruct (Reallocate_gives_back s s1 p new_size alignment map_beg new_p copied Hp ER)
    as (Hcache & Hprimary & Hsystem).
  split; [exact ER|].
  split; [intros H0p H0n Hu Hdn Hsn Hdis; apply internal_memcpy_spec; assumption|].
  split; [|split; [exact Hprimary|exact Hsystem]].
  intros class_id fl Hm Hc Hcaps Hid Hlt Hfl Hroom.
  destruct (Hcache class_id fl Hm Hc Hcaps Hid Hlt Hfl Hroom)
    as (s' & HR & Ecache & Eprim & Ebytes).
  exists s'. split; [exact HR|]. split; [exact Ecache|]. split; [exact Eprim|].
  split; [exact Ebytes|].
  intros H0p Hp8 H0n Hu Hnn Hpn Hdis j Hj. rewrite Ebytes.
  apply copied_then_linked; assumption.
Qed.

(** C10. When the allocation inside [Reallocate] returns null, nothing is
    copied: the old pointer is deallocated in the state the allocation left,
    which is the state [Reallocate] was called in if the allocation failed
    because [new_size + alignment] wraps, and the result is null.  The old
    pointer is given back all the same: a chunk of the primary goes to the
    front of the free list of its class, which stores the list link in its
    first word and nothing else, or, when that fills the list, to the
    primary with the front half of the list; a block of the secondary
    leaves the live list and its mapping is unmapped, with no store. *)
Theorem Combined_Reallocate_allocation_fails (A : Type) (H : SizeClassAllocator A)
    (s s1 : CombinedAllocator.State) p new_size alignment map_beg old_size :
  p <> 0 -> new_size <> 0 ->
  CombinedAllocator.PointerIsMine s p = Some true ->
  CombinedAllocator.GetActuallyAllocatedSize s p = Some old_size ->
  CombinedAllocator.Allocate s new_size alignment false map_beg = Some (s1, 0) ->
  CombinedAllocator.Reallocate s p new_size alignment map_beg
    = match CombinedAllocator.Deallocate s1 p with
      | Some s' => Some (s', 0)
      | None => None
      end /\
  (new_size +% alignment < new_size -> s1 = s) /\
  (forall class_id (fl : AllocatorFreeList),
     PointerIsMine (CombinedAllocator.primary_ s1) p = true ->
     GetSizeClass (CombinedAllocator.primary_ s1) p = class_id ->
     caps_ok SizeClassMapT -> is_uptr class_id ->
     class_id < SizeClassAllocatorLocalCache.kNumClasses ->
     CombinedAllocator.cache_ s1 !! Z.to_nat class_id = Some fl ->
     list_size (p :: fl) < 2 * SizeClassAllocatorLocalCache.MaxCached class_id ->
     exists s',
       CombinedAllocator.Reallocate s p new_size alignment map_beg = Some (s', 0) /\
       CombinedAllocator.cache_ s'
         = <[Z.to_nat class_id := p :: fl]> (CombinedAllocator.cache_ s1) /\
       CombinedAllocator.primary_ s' = CombinedAllocator.primary_ s1 /\
       bytes (CombinedAllocator.memory_ s')
         = store_word (bytes (CombinedAllocator.memory_ s1)) p (front fl)) /\
  (forall class_id (fl : AllocatorFreeList),
     PointerIsMine (CombinedAllocator.primary_ s1) p = true ->
     GetSizeClass (CombinedAllocator.primary_ s1) p = class_id ->
     caps_ok SizeClassMapT -> is_uptr class_id ->
     class_id < SizeClassAllocatorLocalCache.kNumClasses ->
     CombinedAllocator.cache_ s1 !! Z.to_nat class_id = Some fl ->
     2 * SizeClassAllocatorLocalCache.MaxCached class_id <= list_size (p :: fl) ->
     exists s',
       CombinedAllocator.Reallocate s p new_size alignment map_beg = Some (s', 0) /\
       p ∈ take (Z.to_nat (list_size (p :: fl) / 2)) (p :: fl) /\
       CombinedAllocator.cache_ s'
         = <[Z.to_nat class_id := drop (Z.to_nat (list_size (p :: fl) / 2)) (p :: fl)]>
             (CombinedAllocator.cache_ s1) /\
       CombinedAllocator.primary_ s'
         = (BulkDeallocate (CombinedAllocator.primary_ s1) class_id
              (reverse (take (Z.to_nat (list_size (p :: fl) / 2)) (p :: fl)))).1 /\
       bytes (CombinedAllocator.memory_ s')
         = SizeClassAllocatorLocalCache.Deallocate_stores (CombinedAllocator.cache_ s1)
             (CombinedAllocator.primary_ s1) class_id p
             (bytes (CombinedAllocator.memory_ s1))) /\
  (forall h hdr pre post,
     PointerIsMine (CombinedAllocator.primary_ s1) p = false ->
     pow2 (LargeMmapAllocator.page_size_ (CombinedAllocator.secondary_ s1)) ->
     LargeMmapAllocator.list_invariant (CombinedAllocator.secondary_ s1)
       (CombinedAllocator.memory_ s1) (pre ++ (h, hdr) :: post) ->
     LargeMmapAllocator.GetHeader (CombinedAllocator.secondary_ s1) p = Some h ->
     exists s',
       CombinedAllocator.Reallocate s p new_size alignment map_beg = Some (s', 0) /\
       CombinedAllocator.PointerIsMine s' p = Some false /\
       headers (CombinedAllocator.memory_ s') !! h = None /\
       mappings (CombinedAllocator.memory_ s')
         = LargeMmapAllocator.unmap (Header.map_beg hdr) (Header.map_size hdr)
             (mappings (CombinedAllocator.memory_ s1)) /\
       bytes (CombinedAllocator.memory_ s') = bytes (CombinedAllocator.memory_ s1)).
Proof.
  intros Hp Hn Hmine Hold Halloc.
  assert (ER : CombinedAllocator.Reallocate s p new_size alignment map_beg
               = match CombinedAllocator.Deallocate s1 p with
                 | Some s' => Some (s', 0)
                 | None => None
                 end).
  { rewrite (Reallocate_moves s s1 p new_size alignment map_beg old_size 0)
      by assumption.
    reflexivity. }
  split; [exact ER|].
  split; [intros Hw; rewrite Allocate_wraps in Halloc by exact Hw; congruence|].
  assert (Es : CombinedAllocator.set_bytes s1 (bytes (CombinedAllocator.memory_ s1)) = s1)
    by (destruct s1 as [a1 l1 c1 [h1 b1 m1]]; reflexivity).
  apply (Reallocate_gives_back s s1 p new_size alignment map_beg 0
           (bytes (CombinedAllocator.memory_ s1)) Hp).
  rewrite Es. exact ER.
Qed.


Lemma bytes_all (b : gmap Z Byte.byte) base n c :
  forallb (fun j => Byte.eqb (load_byte b (base + j)) c) (seqZ 0 n) = true ->
  forall j, 0 <= j < n -> load_byte b (base + j) = c.
Proof.
  intros Hall j Hj. rewrite forallb_forall in Hall.
  apply Byte.byte_dec_bl. apply Hall.
  apply list_elem_of_In. apply elem_of_seqZ. lia.
Qed.

Lemma Combined_Reallocate_cases_witness :
  (@CombinedAllocator.Allocate _ GreedyPrimary FilledChunk 200 8 false 0x10000
     = Some (GrownChunk, 0x700000000100) /\
   exists s' : CombinedAllocator.State,
     @CombinedAllocator.Reallocate _ GreedyPrimary FilledChunk 0x700000000000 200 8
       0x10000 = Some (s', 0x700000000100) /\
     (forall j, 0 <= j < 64 ->
        load_byte (bytes (CombinedAllocator.memory_ s')) (0x700000000100 + j)
        = Byte.xa5) /\
     CombinedAllocator.cache_ s' !! 3%nat
       = Some [0x700000000000; 0x700000000040; 0x700000000080; 0x7000000000c0] /\
     load_byte (bytes (CombinedAllocator.memory_ s')) 0x700000000000 = Byte.x40 /\
     load_byte (bytes (CombinedAllocator.memory_ s')) 0x700000000008 = Byte.xa5) /\
  (@CombinedAllocator.Allocate _ GreedyPrimary FilledBlock 64 8 false 0x20000
     = Some (ShrunkBlock, 0x700000000000) /\
   exists s' : CombinedAllocator.State,
     @CombinedAllocator.Reallocate _ GreedyPrimary FilledBlock 0x11000 64 8 0x20000
       = Some (s', 0x700000000000) /\
     (forall j, 0 <= j < 64 ->
        load_byte (bytes (CombinedAllocator.memory_ s')) (0x700000000000 + j)
        = Byte.xa5) /\
     @CombinedAllocator.PointerIsMine _ GreedyPrimary s' 0x11000 = Some false /\
     headers (CombinedAllocator.memory_ s') !! 0x10000 = None /\
     mappings (CombinedAllocator.memory_ s') = []).
Proof.
  split.
  - assert (E1 : @CombinedAllocator.Allocate _ GreedyPrimary FilledChunk 200 8 false
                   0x10000 = Some (GrownChunk, 0x700000000100))
      by (vm_compute; reflexivity).
    split; [exact E1|].
    assert (Hmine : @CombinedAllocator.PointerIsMine _ GreedyPrimary FilledChunk
                      0x700000000000 = Some true) by (vm_compute; reflexivity).
    assert (Hold : @CombinedAllocator.GetActuallyAllocatedSize _ GreedyPrimary
                     FilledChunk 0x700000000000 = Some 64) by (vm_compute; reflexivity).
    pose proof (proj2 (proj2 (Combined_Reallocate_cases ToyPrimary.t GreedyPrimary))
                  FilledChunk GrownChunk 0x700000000000 200 8 0x10000 64 0x700000000100
                  ltac:(discriminate) ltac:(discriminate) Hmine Hold E1
                  ltac:(discriminate)) as HT.
    cbv zeta in HT. destruct HT as (_ & _ & Hcache & _ & _).
    destruct (Hcache 3 [0x700000000040; 0x700000000080; 0x7000000000c0])
      as (s' & HR & Ecache & _ & Ebytes & Hfinal).
    + vm_compute. reflexivity.
    + vm_compute. reflexivity.
    + exact DefaultSizeClassMap_caps.
    + exact is_uptr_3.
    + vm_compute. reflexivity.
    + vm_compute. reflexivity.
    + vm_compute. reflexivity.
    + exists s'. split; [exact HR|]. split; [|split; [|split]].
      * intros j Hj.
        rewrite Hfinal; [|unfold is_uptr; rewrite ?kWordMod_val; lia..].
        apply (bytes_all (bytes (CombinedAllocator.memory_ GrownChunk))
                 0x700000000000 64 Byte.xa5); [|exact Hj].
        vm_compute. reflexivity.
      * rewrite Ecache. vm_compute. reflexivity.
      * rewrite Ebytes. vm_compute. reflexivity.
      * rewrite Ebytes. vm_compute. reflexivity.
  - assert (E1 : @CombinedAllocator.Allocate _ GreedyPrimary FilledBlock 64 8 false
                   0x20000 = Some (ShrunkBlock, 0x700000000000))
      by (vm_compute; reflexivity).
    split; [exact E1|].
    assert (Hmine : @CombinedAllocator.PointerIsMine _ GreedyPrimary FilledBlock
                      0x11000 = Some true) by (vm_compute; reflexivity).
    assert (Hold : @CombinedAllocator.GetActuallyAllocatedSize _ GreedyPrimary
                     FilledBlock 0x11000 = Some 5001216) by (vm_compute; reflexivity).
    pose proof (proj2 (proj2 (Combined_Reallocate_cases ToyPrimary.t GreedyPrimary))
                  FilledBlock ShrunkBlock 0x11000 64 8 0x20000 5001216 0x700000000000
                  ltac:(discriminate) ltac:(discriminate) Hmine Hold E1
                  ltac:(discriminate)) as HT.
    cbv zeta in HT. destruct HT as (_ & Hcopy & _ & _ & Hsystem).
    destruct (Hsystem 0x10000
                {| Header.map_beg := 0x10000; Header.map_size := 5005312;
                   Header.size := 5000000; Header.next := 0; Header.prev := 0 |}
                [] [])
      as (s' & HR & Hfalse & Hgone & Hmaps & Ebytes).
    + vm_compute. reflexivity.
    + replace (LargeMmapAllocator.page_size_ (CombinedAllocator.secondary_ ShrunkBlock))
        with 4096 by (vm_compute; reflexivity).
      exact pow2_4096.
    + split.
      * cbn [app LargeMmapAllocator.doubly_linked Header.prev Header.next].
        split; [vm_compute; reflexivity|]. split; [discriminate|].
        split; [vm_compute; reflexivity|]. split; reflexivity.
      * cbn [app fmap list_fmap fst].
        apply Forall_cons. split; [|apply Forall_nil; exact I].
        split; [word_facts|vm_compute; reflexivity].
    + vm_compute. reflexivity.
    + exists s'. split; [exact HR|].
      split; [|split; [exact Hfalse|split; [exact Hgone|]]].
      * intros j Hj. rewrite Ebytes.
        destruct Hcopy as [Hin _];
          [unfold is_uptr; rewrite ?kWordMod_val; lia..|].
        rewrite (Hin j Hj).
        apply (bytes_all (bytes (CombinedAllocator.memory_ ShrunkBlock)) 0x11000 64
                 Byte.xa5); [|exact Hj].
        vm_compute. reflexivity.
      * rewrite Hmaps. vm_compute. reflexivity.
Defined.


Lemma Combined_Reallocate_allocation_fails_witness :
  @CombinedAllocator.Allocate _ GreedyPrimary FilledChunk (kWordMod - 8) 16 false 0x10000
    = Some (FilledChunk, 0) /\
  exists s' : CombinedAllocator.State,
    @CombinedAllocator.Reallocate _ GreedyPrimary FilledChunk 0x700000000000
      (kWordMod - 8) 16 0x10000 = Some (s', 0) /\
    CombinedAllocator.cache_ s' !! 3%nat
      = Some [0x700000000000; 0x700000000040; 0x700000000080; 0x7000000000c0] /\
    load_byte (bytes (CombinedAllocator.memory_ s')) 0x700000000000 = Byte.x40 /\
    (forall q, ~ (0x700000000000 <= q < 0x700000000008) ->
       load_byte (bytes (CombinedAllocator.memory_ s')) q
       = load_byte (bytes (CombinedAllocator.memory_ FilledChunk)) q).
Proof.
  assert (E1 : @CombinedAllocator.Allocate _ GreedyPrimary FilledChunk (kWordMod - 8) 16
                 false 0x10000 = Some (FilledChunk, 0))
    by (apply Allocate_wraps; vm_compute; reflexivity).
  split; [exact E1|].
  assert (Hmine : @CombinedAllocator.PointerIsMine _ GreedyPrimary FilledChunk
                    0x700000000000 = Some true) by (vm_compute; reflexivity).
  assert (Hold : @CombinedAllocator.GetActuallyAllocatedSize _ GreedyPrimary FilledChunk
                   0x700000000000 = Some 64) by (vm_compute; reflexivity).
  assert (Hn : kWordMod - 8 <> 0) by (rewrite kWordMod_val; lia).
  destruct (Combined_Reallocate_allocation_fails ToyPrimary.t GreedyPrimary
              FilledChunk FilledChunk 0x700000000000 (kWordMod - 8) 16 0x10000 64
              ltac:(discriminate) Hn Hmine Hold E1) as (_ & _ & Hcache & _ & _).
  destruct (Hcache 3 [0x700000000040; 0x700000000080; 0x7000000000c0])
    as (s' & HR & Ecache & _ & Ebytes).
  - vm_compute. reflexivity.
  - vm_compute. reflexivity.
  - exact DefaultSizeClassMap_caps.
  - exact is_uptr_3.
  - vm_compute. reflexivity.
  - vm_compute. reflexivity.
  - vm_compute. reflexivity.
  - exists s'. split; [exact HR|]. split; [|split].
    + rewrite Ecache. vm_compute. reflexivity.
    + rewrite Ebytes. vm_compute. reflexivity.
    + intros q Hq. rewrite Ebytes.
      apply store_word_other; [lia|rewrite kWordMod_val; lia|exact Hq].
Defined.

(** ** The combined allocator: clearing, dispatch and the cache *)

(** X24. [Allocate] with [cleared] set zeroes the block it returns: every
    byte of the block, over the size [Allocate] works with ([1] for [0],
    rounded up to the alignment when that is above [8]), reads zero
    afterwards.  When the primary serves the request from a list of the
    cache that is not empty, no byte outside the block changes: popping the
    list stores nothing (a refill would store list links in the chunks it
    brings). *)
Theorem Combined_Allocate_cleared (A : Type) (H : SizeClassAllocator A)
    (s s' : CombinedAllocator.State) size alignment map_beg res :
  CombinedAllocator.Allocate s size alignment true map_beg = Some (s', res) ->
  res <> 0 -> 0 <= res ->
  let size1 := if size =? 0 then 1 else size in
  let size2 := if 8 <? alignment then RoundUpTo size1 alignment else size1 in
  0 <= size2 -> res + size2 <= kWordMod ->
  (forall j, 0 <= j < size2 ->
     load_byte (bytes (CombinedAllocator.memory_ s')) (res + j) = Byte.x00) /\
  (forall x (fl : AllocatorFreeList),
     CanAllocate (CombinedAllocator.primary_ s) size2 alignment = true ->
     CombinedAllocator.cache_ s
       !! Z.to_nat (ClassID (CombinedAllocator.primary_ s) size2)
     = Some (x :: fl) ->
     forall q, ~ (res <= q < res + size2) ->
       load_byte (bytes (CombinedAllocator.memory_ s')) q
       = load_byte (bytes (CombinedAllocator.memory_ s)) q).
Proof.
  intros HA Hres Hr0 size1 size2 Hs0 Hfit.
  destruct (Allocate_cleared s s' size alignment map_beg res HA Hres Hr0 Hs0 Hfit)
    as [Hin Hout].
  split; [exact Hin|].
  intros x fl Hcan Hfl q Hq. rewrite (Hout q Hq). fold size1 size2.
  rewrite Hcan.
  rewrite (Allocate_stores_cached _ _ _ x fl _ Hfl). reflexivity.
Qed.

Lemma Combined_Allocate_cleared_witness :
  exists (s' : CombinedAllocator.State) res,
    @CombinedAllocator.Allocate _ GreedyPrimary DirtyState 64 8 true 0x10000
      = Some (s', res) /\
    res = 4096 /\
    load_byte (bytes (CombinedAllocator.memory_ DirtyState)) res = Byte.xff /\
    (forall j, 0 <= j < 64 ->
       load_byte (bytes (CombinedAllocator.memory_ s')) (res + j) = Byte.x00) /\
    load_byte (bytes (CombinedAllocator.memory_ s')) (res + 64) = Byte.xff.
Proof.
  destruct (@CombinedAllocator.Allocate _ GreedyPrimary DirtyState 64 8 true 0x10000)
    as [[s' res]|] eqn:E; [|vm_compute in E; inversion E].
  assert (Er : res = 4096) by (vm_compute in E; injection E as _ <-; reflexivity).
  exists s', res. split; [reflexivity|]. split; [exact Er|].
  split; [rewrite Er; vm_compute; reflexivity|].
  destruct (Combined_Allocate_cleared ToyPrimary.t GreedyPrimary DirtyState s' 64 8
              0x10000 res E) as [Hzero Hout].
  - rewrite Er. discriminate.
  - rewrite Er. discriminate.
  - discriminate.
  - rewrite Er. discriminate.
  - split; [exact Hzero|].
    rewrite (Hout 4096 [8192]).
    + rewrite Er. vm_compute. reflexivity.
    + vm_compute. reflexivity.
    + vm_compute. reflexivity.
    + change (~ (res <= res + 64 < res + 64)). lia.
Defined.

(** X26. A request the primary cannot serve goes to the secondary, and
    the combined allocator then owns the block: [PointerIsMine] answers
    true for it, and, provided the primary does not claim the address,
    [GetActuallyAllocatedSize] is the size [Allocate] worked with rounded up
    to whole pages. *)
Theorem Combined_Allocate_large (A : Type) (H : SizeClassAllocator A)
    (s s' : CombinedAllocator.State) size alignment cleared map_beg res :
  let size1 := if size =? 0 then 1 else size in
  let size2 := if 8 <? alignment then RoundUpTo size1 alignment else size1 in
  let page := LargeMmapAllocator.page_size_ (CombinedAllocator.secondary_ s) in
  pow2 page ->
  CanAllocate (CombinedAllocator.primary_ s) size2 alignment = false ->
  CombinedAllocator.Allocate s size alignment cleared map_beg = Some (s', res) ->
  is_uptr res -> page < res ->
  CombinedAllocator.PointerIsMine s' res = Some true /\
  (PointerIsMine (CombinedAllocator.primary_ s) res = false ->
   CombinedAllocator.GetActuallyAllocatedSize s' res = Some (RoundUpTo size2 page)).
Proof. apply Allocate_large_queries. Qed.

Lemma Combined_Allocate_large_witness :
  exists (s' : CombinedAllocator.State) res,
    @CombinedAllocator.Allocate _ ModestPrimary ToyState 5000000 8 false 0x10000
      = Some (s', res) /\
    @CombinedAllocator.PointerIsMine _ ModestPrimary s' res = Some true /\
    @CombinedAllocator.GetActuallyAllocatedSize _ ModestPrimary s' res = Some 5001216.
Proof.
  destruct (@CombinedAllocator.Allocate _ ModestPrimary ToyState 5000000 8 false 0x10000)
    as [[s' res]|] eqn:E; [|vm_compute in E; inversion E].
  assert (Ep : res = 0x11000)
    by (vm_compute in E; injection E as _ <-; reflexivity).
  exists s', res. split; [reflexivity|].
  destruct (Combined_Allocate_large ToyPrimary.t ModestPrimary ToyState s'
              5000000 8 false 0x10000 res pow2_4096 eq_refl E) as [Hmine Hsize].
  - rewrite Ep. word_facts.
  - rewrite Ep. reflexivity.
  - split; [exact Hmine|]. apply Hsize. rewrite Ep. reflexivity.
Defined.

(** X27. [SwallowCache] that completes leaves every list of the cache
    empty, the cache as [Init] makes it; it completes whenever the cache has
    its [kNumClasses] lists and [BulkDeallocate] takes all the chunks it is
    handed, which is all it asks of the primary. *)
Theorem Combined_SwallowCache_empties (A : Type) (H : SizeClassAllocator A)
    (s : CombinedAllocator.State) :
  length (CombinedAllocator.cache_ s)
    = Z.to_nat SizeClassAllocatorLocalCache.kNumClasses ->
  (forall s', CombinedAllocator.SwallowCache s = Some s' ->
     CombinedAllocator.cache_ s' = SizeClassAllocatorLocalCache.Init) /\
  (drain_takes_all A -> exists s', CombinedAllocator.SwallowCache s = Some s').
Proof. apply SwallowCache_spec. Qed.

Lemma Combined_SwallowCache_empties_witness :
  exists s' : CombinedAllocator.State,
    @CombinedAllocator.SwallowCache _ ModestPrimary WarmState = Some s' /\
    CombinedAllocator.cache_ s' = @SizeClassAllocatorLocalCache.Init _ ModestPrimary.
Proof.
  assert (Hlen : length (CombinedAllocator.cache_ WarmState)
                 = Z.to_nat (@SizeClassAllocatorLocalCache.kNumClasses _ ModestPrimary))
    by (vm_compute; reflexivity).
  destruct (Combined_SwallowCache_empties ToyPrimary.t ModestPrimary WarmState Hlen)
    as [Hafter Hdone].
  destruct Hdone as [s' Hs'].
  { apply ToyPrimary_drain_takes_all. }
  exists s'. split; [exact Hs'|]. apply Hafter. exact Hs'.
Defined.
